(** * Boss timer backups: export, import, normalisation and merge

    A shallow embedding of [src/utils/backup.ts] and the properties of its
    codec, normaliser, merge engine and conflict resolver.

    Conventions of the embedding.
    - A JavaScript [number] is a value of [number]: a finite value, one of
      the two infinities, or NaN.  A finite value is an integer ([FInt]) or
      a non-integer ([FFrac fl r]: its floor [fl] and a tag [r] naming its
      fractional part).  The code only floors, compares and copies
      numbers, so the fractional part is never computed with.  [0] and
      [-0] are one value.
    - Channel numbers and channel counts of typed tables are integers ([Z]).
    - [undefined] is [None]; a JavaScript value of unknown type is a [json].
    - A string is a string of 8-bit characters.
    - A rejected promise or a thrown [Error] is the left side of a sum: the
      two messages of [importState] are the two constructors of
      [importError].
    - The [warnings] array is a list that is passed in and returned; its
      messages are kept as structured values ([warning]), one constructor
      per template literal of the source.
    - [Date.now()] and [generateTableId()] read the section variables
      [Date_now] and [generateTableId] at a counter that is threaded through
      the calls.  The [while] loop of [ensureUniqueId] takes fuel.
    - The host functions of the codec ([JSON], [btoa]/[atob], the compression
      streams, [TextEncoder]/[TextDecoder]) are the fields of a [runtime];
      [APP_TIME_ZONE], imported from [src/utils/time], is a section
      variable. *)

From Stdlib Require Import Ascii.
From stdpp Require Import base list gmap strings pretty sorting.

Set Warnings "-register-all,-clear-no-such-hyp".

Local Open Scope Z_scope.

(** ** JavaScript values *)

Inductive finite :=
  | FInt (z : Z)
  | FFrac (fl : Z) (r : positive).

Inductive number :=
  | Finite (x : finite)
  | PosInfinity
  | NegInfinity
  | NaN.

Global Instance finite_eq_dec : EqDecision finite.
Proof. solve_decision. Defined.

Global Instance number_eq_dec : EqDecision number.
Proof. solve_decision. Defined.

(** [Math.floor] on a finite number. *)
Definition Math_floor (x : finite) : Z :=
  match x with
  | FInt z => z
  | FFrac fl _ => fl
  end.

(** [x < k] and [k < x] for a finite [x] and an integer [k]; a non-integer
    with floor [fl] lies strictly between [fl] and [fl + 1]. *)
Definition finite_ltZ (x : finite) (k : Z) : Prop :=
  match x with
  | FInt z => z < k
  | FFrac fl _ => fl < k
  end.

Definition finite_gtZ (x : finite) (k : Z) : Prop :=
  match x with
  | FInt z => k < z
  | FFrac fl _ => k ≤ fl
  end.

(** A value produced by [JSON.parse], or any value inspected dynamically. An
    object is the list of its own properties in insertion order. *)
Inductive json :=
  | JNull
  | JBool (b : bool)
  | JNum (n : number)
  | JStr (s : string)
  | JArr (items : list json)
  | JObj (fields : list (string * json)).

(** Property lookup in a list of properties: the last binding of a key is
    the one an object holds. *)
Fixpoint lookupField (key : string) (fields : list (string * json)) : option json :=
  match fields with
  | [] => None
  | (k, v) :: rest =>
      match lookupField key rest with
      | Some w => Some w
      | None => if decide (k = key) then Some v else None
      end
  end.

(** [value.key] for the property names the code reads ([bossName],
    [channels], [version], ...): none of them is defined on arrays or on
    [Object.prototype], and [getField] is only used behind [isObject]. *)
Definition getField (value : json) (key : string) : option json :=
  match value with
  | JObj fields => lookupField key fields
  | _ => None
  end.

(** [String.prototype.trim] on strings of 8-bit characters. *)
Definition isWhiteSpace (a : ascii) : bool :=
  Ascii.is_space a || bool_decide (a = "160"%char).

Fixpoint trimStart (s : string) : string :=
  match s with
  | String a rest => if isWhiteSpace a then trimStart rest else s
  | EmptyString => EmptyString
  end.

Fixpoint trimEnd (s : string) : string :=
  match s with
  | EmptyString => EmptyString
  | String a rest =>
      match trimEnd rest with
      | EmptyString => if isWhiteSpace a then EmptyString else String a EmptyString
      | kept => String a kept
      end
  end.

Definition trim (s : string) : string := trimEnd (trimStart s).

(** ** Data model *)

(** Modelled from the spec: the types [ChannelTimer] and [BossTable], which
    [backup.ts] imports from [src/types].  The fields are those of the data
    model, which are also those the object literals of [backup.ts] write. *)
Record ChannelTimer := {
  channel : Z;
  killedAt : option number;
  earliestRespawnAt : option number;
  latestRespawnAt : option number;
}.

Record BossTable := {
  id : string;
  bossName : string;
  channelsCount : Z;
  channels : list ChannelTimer;
  createdAt : number;
}.

Global Instance ChannelTimer_eq_dec : EqDecision ChannelTimer.
Proof. solve_decision. Defined.

Global Instance BossTable_eq_dec : EqDecision BossTable.
Proof. solve_decision. Defined.

Record ExportPayload := {
  version : Z;
  storageVersion : string;
  exportedAt : number;
  timezone : string;
  tables : list BossTable;
}.

Inductive ConflictChoice := mine_choice | theirs_choice.

Global Instance ConflictChoice_eq_dec : EqDecision ConflictChoice.
Proof. solve_decision. Defined.

Module MergeConflict.
Record t := mk {
  id : string;
  bossName : string;
  tableId : string;
  channel : Z;
  mine : ChannelTimer;
  theirs : ChannelTimer;
}.
End MergeConflict.

Record MergePreview := {
  mergedTables : list BossTable;
  conflicts : list MergeConflict.t;
  defaultChoices : gmap string ConflictChoice;
}.

(** The messages pushed on the [warnings] array. *)
Inductive warning :=
  | SkippedNotObject (position : nat)
      (* Skipped table #${index + 1}: not an object. *)
  | SkippedMissingBossName (position : nat)
      (* Skipped table #${index + 1}: missing bossName. *)
  | ChannelsCountClamped (name : string) (clampedOriginal : Z)
      (* Table "${bossName}": channelsCount was clamped to ${clampedOriginal}. *)
  | ChannelsRebuilt (name : string) (before : nat) (after : Z)
      (* Table "${bossName}": channels rebuilt (${before} -> ${after}) to match count. *)
  | TimezoneMismatch (backup : option json) (host : string).
      (* Backup timezone is "${String(parsed.timezone)}", your timezone is "${APP_TIME_ZONE}". *)

(** The two errors of [importState]: [Invalid backup string] and
    [Unsupported backup version]. *)
Inductive importError := InvalidFormat | UnsupportedVersion.

Global Instance importError_eq_dec : EqDecision importError.
Proof. solve_decision. Defined.

Record ImportResult := {
  payload : ExportPayload;
  warnings : list warning;
}.

(** ** Constants *)

Definition BACKUP_PREFIX : string := "BOSSTIMER_V1:".
Definition BACKUP_PREFIX_GZ : string := "BOSSTIMER_V2GZ:".
Definition BACKUP_VERSION : Z := 1.
Definition STORAGE_VERSION : string := "boss-timer/v1".
Definition MIN_CHANNELS : Z := 1.
Definition MAX_CHANNELS : Z := 50.

(** ** A JavaScript [Map]: bindings in insertion order *)

Module JsMap.
Section ops.
Context {K V : Type} `{EqDecision K}.

(** [map.set(k, v)]: an existing key keeps its position. *)
Fixpoint set (k : K) (v : V) (m : list (K * V)) : list (K * V) :=
  match m with
  | [] => [(k, v)]
  | (k', v') :: rest =>
      if decide (k' = k) then (k', v) :: rest else (k', v') :: set k v rest
  end.

Fixpoint get (k : K) (m : list (K * V)) : option V :=
  match m with
  | [] => None
  | (k', v') :: rest => if decide (k' = k) then Some v' else get k rest
  end.

Definition values (m : list (K * V)) : list V := m.*2.

(** [new Map(entries)] *)
Definition of_entries (entries : list (K * V)) : list (K * V) :=
  foldl (λ m kv, set kv.1 kv.2 m) [] entries.
End ops.
End JsMap.

(** ** Helpers *)

Definition clampChannelsCount (value : finite) : Z :=
  Z.max MIN_CHANNELS (Z.min MAX_CHANNELS (Math_floor value)).

Definition toEpoch (value : option json) : option number :=
  match value with
  | Some (JNum (Finite x)) => Some (Finite x)
  | _ => None
  end.

Definition isObject (value : json) : bool :=
  match value with
  | JObj _ | JArr _ => true
  | _ => false
  end.

Definition hasTimer (c : ChannelTimer) : bool :=
  bool_decide (is_Some (killedAt c)) ||
  bool_decide (is_Some (earliestRespawnAt c)) ||
  bool_decide (is_Some (latestRespawnAt c)).

(** The joined string of [timerSignature] is kept as the three components
    it is joined from: the text of a number is never empty, has no ['|'] and
    names one number, so two signatures are the same string exactly when the
    components agree. *)
Definition timerSignature (c : ChannelTimer) : list (option number) :=
  [killedAt c; earliestRespawnAt c; latestRespawnAt c].

Definition cloneChannel (c : ChannelTimer) : ChannelTimer :=
  {| channel := channel c;
     killedAt := killedAt c;
     earliestRespawnAt := earliestRespawnAt c;
     latestRespawnAt := latestRespawnAt c |}.

Definition cloneTable (table : BossTable) : BossTable :=
  {| id := id table;
     bossName := bossName table;
     channelsCount := channelsCount table;
     channels := cloneChannel <$> channels table;
     createdAt := createdAt table |}.

(** The object literal [{ channel: channelNumber }]. *)
Definition emptyChannel (channelNumber : Z) : ChannelTimer :=
  {| channel := channelNumber;
     killedAt := None;
     earliestRespawnAt := None;
     latestRespawnAt := None |}.

(** [[channel.channel, channel]] *)
Definition channelEntry (c : ChannelTimer) : Z * ChannelTimer := (channel c, c).

(** [new Map(channels.map((channel) => [channel.channel, channel]))] *)
Definition channelIndex (cs : list ChannelTimer) : list (Z * ChannelTimer) :=
  JsMap.of_entries (channelEntry <$> cs).

(** ** Normaliser *)

Definition normalizeChannel (raw : json) : option ChannelTimer :=
  if negb (isObject raw) then None
  else
    match getField raw "channel" with
    | Some (JNum (Finite rawChannel)) =>
        let channelNumber := Z.max 1 (Math_floor rawChannel) in
        Some {| channel := channelNumber;
                killedAt := toEpoch (getField raw "killedAt");
                earliestRespawnAt := toEpoch (getField raw "earliestRespawnAt");
                latestRespawnAt := toEpoch (getField raw "latestRespawnAt") |}
    | _ => None
    end.

Definition byChannelNumber (a b : ChannelTimer) : Prop := channel a ≤ channel b.

Global Instance byChannelNumber_dec : RelDecision byChannelNumber.
Proof. intros a b. unfold byChannelNumber. apply _. Defined.

(** [table.channels.map(normalizeChannel).filter(value => value !== null)] *)
Definition parseChannels (table : json) : list ChannelTimer :=
  match getField table "channels" with
  | Some (JArr items) => omap normalizeChannel items
  | _ => []
  end.

(** The [deduped] map of [normalizeTable]. *)
Definition dedupe (parsedChannels : list ChannelTimer) : list (Z * ChannelTimer) :=
  foldl (λ deduped c, JsMap.set (channel c) c deduped) [] parsedChannels.

(** [Array.from(deduped.values()).sort((a, b) => a.channel - b.channel)] *)
Definition sortChannels (deduped : list (Z * ChannelTimer)) : list ChannelTimer :=
  merge_sort byChannelNumber (JsMap.values deduped).

Definition maxChannelOf (uniqueChannels : list ChannelTimer) : Z :=
  match last uniqueChannels with
  | None => 0
  | Some c => channel c
  end.

Definition requestedCountOf (table : json) (maxChannel : Z) : Z :=
  match getField table "channelsCount" with
  | Some (JNum (Finite v)) => Math_floor v
  | _ => if decide (0 < maxChannel) then maxChannel else MIN_CHANNELS
  end.

(** [Array.from({ length: channelsCount }, (_, idx) => ...)] *)
Definition materialize (uniqueChannels : list ChannelTimer) (channelsCount : Z)
  : list ChannelTimer :=
  let byChannel := channelIndex uniqueChannels in
  (λ idx, let channelNumber := idx + 1 in
          default (emptyChannel channelNumber) (JsMap.get channelNumber byChannel))
    <$> seqZ 0 channelsCount.

(** The warning of lines 223-228, as the list of what is pushed. *)
Definition clampWarning (table : json) (name : string) : list warning :=
  match getField table "channelsCount" with
  | Some (JNum (Finite v)) =>
      let clampedOriginal := clampChannelsCount v in
      if decide (FInt clampedOriginal ≠ v)
      then [ChannelsCountClamped name clampedOriginal]
      else []
  | _ => []
  end.

(** The warning of lines 230-234. *)
Definition rebuildWarning (name : string) (uniqueChannels : list ChannelTimer)
    (count : Z) : list warning :=
  if decide (count ≠ Z.of_nat (length uniqueChannels))
  then [ChannelsRebuilt name (length uniqueChannels) count]
  else [].

Section clock.
(** The successive readings of [Date.now()]. *)
Variable Date_now : nat → Z.

(** The [id] of line 243, and the clock position after it. *)
Definition assignId (table : json) (index : nat) (clk : nat) : string * nat :=
  match getField table "id" with
  | Some (JStr s) =>
      if decide (0 < String.length s)%nat then (s, clk)
      else ("imported-" +:+ pretty (Date_now clk) +:+ "-" +:+ pretty index, S clk)
  | _ => ("imported-" +:+ pretty (Date_now clk) +:+ "-" +:+ pretty index, S clk)
  end.

(** The [createdAt] of line 247, and the clock position after it. *)
Definition assignCreatedAt (table : json) (clk : nat) : number * nat :=
  match toEpoch (getField table "createdAt") with
  | Some n => (n, clk)
  | None => (Finite (FInt (Date_now clk)), S clk)
  end.

(** [normalizeTable table index warnings] at clock position [clk]: the
    table or [null], the [warnings] array after the call, and the clock
    position after the call. *)
Definition normalizeTable (table : json) (index : nat)
    (warnings : list warning) (clk : nat)
  : option BossTable * list warning * nat :=
  if negb (isObject table) then
    (None, warnings ++ [SkippedNotObject (index + 1)], clk)
  else
    match getField table "bossName" with
    | Some (JStr name) =>
        if decide (String.length (trim name) = 0%nat) then
          (None, warnings ++ [SkippedMissingBossName (index + 1)], clk)
        else
          let parsedChannels := parseChannels table in
          let deduped := dedupe parsedChannels in
          let uniqueChannels := sortChannels deduped in
          let maxChannel := maxChannelOf uniqueChannels in
          let requestedCount := requestedCountOf table maxChannel in
          let count := clampChannelsCount (FInt (Z.max requestedCount maxChannel)) in
          let warnings := warnings ++ clampWarning table name in
          let warnings := warnings ++ rebuildWarning name uniqueChannels count in
          let '(tableId, clk) := assignId table index clk in
          let '(created, clk) := assignCreatedAt table clk in
          (Some {| id := tableId;
                   bossName := name;
                   channelsCount := count;
                   channels := materialize uniqueChannels count;
                   createdAt := created |},
           warnings, clk)
    | _ => (None, warnings ++ [SkippedMissingBossName (index + 1)], clk)
    end.

(** [parsed.tables.map((table, index) => normalizeTable(table, index, warnings))
    .filter((table) => table !== null)], from [index] on. *)
Fixpoint normalizeTables (rawTables : list json) (index : nat)
    (warnings : list warning) (clk : nat)
  : list BossTable * list warning * nat :=
  match rawTables with
  | [] => ([], warnings, clk)
  | table :: rest =>
      let '(normalized, warnings, clk) := normalizeTable table index warnings clk in
      let '(others, warnings, clk) := normalizeTables rest (S index) warnings clk in
      (match normalized with
       | Some t => t :: others
       | None => others
       end, warnings, clk)
  end.
End clock.

(** ** The values a typed object presents to dynamic inspection *)

Definition optionalField (key : string) (value : option number)
  : list (string * json) :=
  match value with
  | Some n => [(key, JNum n)]
  | None => []
  end.

Definition valueOfChannel (c : ChannelTimer) : json :=
  JObj ([("channel", JNum (Finite (FInt (channel c))))]
        ++ optionalField "killedAt" (killedAt c)
        ++ optionalField "earliestRespawnAt" (earliestRespawnAt c)
        ++ optionalField "latestRespawnAt" (latestRespawnAt c)).

Definition valueOfTable (table : BossTable) : json :=
  JObj [("id", JStr (id table));
        ("bossName", JStr (bossName table));
        ("channelsCount", JNum (Finite (FInt (channelsCount table))));
        ("channels", JArr (valueOfChannel <$> channels table));
        ("createdAt", JNum (createdAt table))].

Definition valueOfPayload (p : ExportPayload) : json :=
  JObj [("version", JNum (Finite (FInt (version p))));
        ("storageVersion", JStr (storageVersion p));
        ("exportedAt", JNum (exportedAt p));
        ("timezone", JStr (timezone p));
        ("tables", JArr (valueOfTable <$> tables p))].

(** ** Codec *)

(** The host functions the codec calls.  A [Uint8Array] and the binary
    string handed to [btoa] are both a list of 8-bit characters. *)
Record runtime := {
  JSON_stringify : json → string;
  JSON_parse : string → option json;                 (* None: SyntaxError *)
  CompressionStream_gzip : option (string → list ascii);
      (* None: typeof CompressionStream === 'undefined' *)
  DecompressionStream_gunzip : option (list ascii → option string);
      (* None: typeof DecompressionStream === 'undefined'; the stream may fail *)
  btoa : list ascii → string;
  atob : string → option (list ascii);               (* None: InvalidCharacterError *)
  TextEncoder_encode : string → list ascii;
  TextDecoder_decode : list ascii → string;
}.

(** [text.slice(n)] *)
Fixpoint slice (n : nat) (text : string) : string :=
  match n, text with
  | O, _ => text
  | S n', String _ rest => slice n' rest
  | S _, EmptyString => EmptyString
  end.

Definition startsWith (text prefix : string) : bool := String.prefix prefix text.

Definition strictEqNumber (value : option json) (k : Z) : bool :=
  match value with
  | Some (JNum (Finite (FInt z))) => bool_decide (z = k)
  | _ => false
  end.

Definition strictEqString (value : option json) (s : string) : bool :=
  match value with
  | Some (JStr s') => bool_decide (s' = s)
  | _ => false
  end.

Section codec.
Variable rt : runtime.
Variable APP_TIME_ZONE : string.
Variable Date_now : nat → Z.

Definition bytesToBase64 (bytes : list ascii) : string := btoa rt bytes.

Definition base64ToBytes (base64 : string) : option (list ascii) := atob rt base64.

Definition encodeBase64 (text : string) : string :=
  bytesToBase64 (TextEncoder_encode rt text).

Definition decodeBase64 (base64 : string) : option string :=
  TextDecoder_decode rt <$> base64ToBytes base64.

Definition gzipText (text : string) : option (list ascii) :=
  (λ gzip, gzip text) <$> CompressionStream_gzip rt.

Definition gunzipBytes (bytes : list ascii) : option string :=
  gunzip ← DecompressionStream_gunzip rt; gunzip bytes.

Definition exportPayload (tables : list BossTable) (clk : nat) : ExportPayload :=
  {| version := BACKUP_VERSION;
     storageVersion := STORAGE_VERSION;
     exportedAt := Finite (FInt (Date_now clk));
     timezone := APP_TIME_ZONE;
     tables := tables |}.

(** [exportState tables], whose one reading of the clock is at position
    [clk]: the resolved value of the promise. *)
Definition exportState (tables : list BossTable) (clk : nat) : string :=
  let json := JSON_stringify rt (valueOfPayload (exportPayload tables clk)) in
  match gzipText json with
  | Some compressed =>
      if decide (0 < length compressed)%nat
      then BACKUP_PREFIX_GZ +:+ bytesToBase64 compressed
      else BACKUP_PREFIX +:+ encodeBase64 json
  | None => BACKUP_PREFIX +:+ encodeBase64 json
  end.

(** The text handed to [JSON.parse]: lines 252-273 of the source. *)
Definition envelopeText (input : string) : importError + string :=
  let trimmed := trim input in
  if decide (trimmed = "") then inl InvalidFormat
  else if startsWith trimmed BACKUP_PREFIX_GZ then
    let encoded := slice (String.length BACKUP_PREFIX_GZ) trimmed in
    match base64ToBytes encoded ≫= gunzipBytes with
    | Some jsonText => inr jsonText
    | None => inl InvalidFormat
    end
  else if startsWith trimmed BACKUP_PREFIX then
    let encoded := slice (String.length BACKUP_PREFIX) trimmed in
    match decodeBase64 encoded with
    | Some jsonText => inr jsonText
    | None => inl InvalidFormat
    end
  else inr trimmed.

(** [JSON.parse(jsonText)] with its [catch]. *)
Definition parseEnvelope (input : string) : importError + json :=
  match envelopeText input with
  | inl e => inl e
  | inr jsonText =>
      match JSON_parse rt jsonText with
      | Some parsed => inr parsed
      | None => inl InvalidFormat
      end
  end.

(** Lines 282-314 of the source, on the parsed value. *)
Definition importParsed (parsed : json) (clk : nat) : importError + ImportResult :=
  if negb (isObject parsed) then inl InvalidFormat
  else if negb (strictEqNumber (getField parsed "version") BACKUP_VERSION) then
    inl UnsupportedVersion
  else
    match getField parsed "tables" with
    | Some (JArr rawTables) =>
        let warnings : list warning :=
          if negb (strictEqString (getField parsed "timezone") APP_TIME_ZONE)
          then [TimezoneMismatch (getField parsed "timezone") APP_TIME_ZONE]
          else [] in
        let '(tables, warnings, clk) :=
          normalizeTables Date_now rawTables 0 warnings clk in
        inr {| payload :=
                 {| version := BACKUP_VERSION;
                    storageVersion :=
                      match getField parsed "storageVersion" with
                      | Some (JStr s) =>
                          if decide (0 < String.length s)%nat then s
                          else STORAGE_VERSION
                      | _ => STORAGE_VERSION
                      end;
                    exportedAt :=
                      default (Finite (FInt (Date_now clk)))
                              (toEpoch (getField parsed "exportedAt"));
                    timezone :=
                      match getField parsed "timezone" with
                      | Some (JStr s) => s
                      | _ => APP_TIME_ZONE
                      end;
                    tables := tables |};
               warnings := warnings |}
    | _ => inl InvalidFormat
    end.

(** [importState input] at clock position [clk]: the rejection or the
    resolved value of the promise. *)
Definition importState (input : string) (clk : nat) : importError + ImportResult :=
  match parseEnvelope input with
  | inl e => inl e
  | inr parsed => importParsed parsed clk
  end.
End codec.

(** ** Merge engine *)

(** The loop state of [buildMergePreview]: the arrays and the record it
    fills, the [usedIds] set, and the number of identifiers drawn so far. *)
Record mergeState := {
  ms_mergedTables : list BossTable;
  ms_conflicts : list MergeConflict.t;
  ms_defaultChoices : gmap string ConflictChoice;
  ms_usedIds : gset string;
  ms_draws : nat;
}.

(** The body of the loop over [channelNumber] (lines 342-378). *)
Definition mergeChannel (existing : BossTable)
    (mineByChannel theirsByChannel : list (Z * ChannelTimer))
    (st : list ChannelTimer * list MergeConflict.t * gmap string ConflictChoice)
    (channelNumber : Z)
  : list ChannelTimer * list MergeConflict.t * gmap string ConflictChoice :=
  let '(nextChannels, conflicts, defaultChoices) := st in
  let mine := default (emptyChannel channelNumber) (JsMap.get channelNumber mineByChannel) in
  let theirs := default (emptyChannel channelNumber) (JsMap.get channelNumber theirsByChannel) in
  let mineHas := hasTimer mine in
  let theirsHas := hasTimer theirs in
  if negb mineHas && theirsHas then
    (nextChannels ++ [cloneChannel theirs], conflicts, defaultChoices)
  else if mineHas && negb theirsHas then
    (nextChannels ++ [cloneChannel mine], conflicts, defaultChoices)
  else if negb mineHas && negb theirsHas then
    (nextChannels ++ [emptyChannel channelNumber], conflicts, defaultChoices)
  else if decide (timerSignature mine = timerSignature theirs) then
    (nextChannels ++ [cloneChannel mine], conflicts, defaultChoices)
  else
    let conflictId :=
      id existing +:+ ":" +:+ pretty channelNumber +:+ ":" +:+ pretty (length conflicts) in
    (nextChannels ++ [cloneChannel mine],
     conflicts ++ [MergeConflict.mk conflictId (bossName existing) (id existing)
                     channelNumber (cloneChannel mine) (cloneChannel theirs)],
     <[conflictId := mine_choice]> defaultChoices).

Section merge.
(** The successive results of [generateTableId()]. *)
Variable generateTableId : nat → string.

(** The [while] loop of [ensureUniqueId], with the first draw before it: at
    most [fuel] identifiers are drawn. *)
Fixpoint drawUnusedId (fuel : nat) (existingIds : gset string) (draws : nat)
  : option (string * nat) :=
  match fuel with
  | O => None
  | S fuel' =>
      let nextId := generateTableId draws in
      if decide (nextId ∈ existingIds)
      then drawUnusedId fuel' existingIds (S draws)
      else Some (nextId, S draws)
  end.

(** [ensureUniqueId existingIds preferredId]: the identifier, the set after
    the call and the draw counter after the call. *)
Definition ensureUniqueId (fuel : nat) (existingIds : gset string)
    (preferredId : string) (draws : nat)
  : option (string * gset string * nat) :=
  if decide (preferredId ∉ existingIds) then
    Some (preferredId, {[preferredId]} ∪ existingIds, draws)
  else
    '(nextId, draws) ← drawUnusedId fuel existingIds draws;
    Some (nextId, {[nextId]} ∪ existingIds, draws).

(** One turn of the loop over the imported tables (lines 325-385). *)
Definition mergeImported (fuel : nat) (st : mergeState) (importedTable : BossTable)
  : option mergeState :=
  match list_find (λ table, bossName table = bossName importedTable)
                  (ms_mergedTables st) with
  | None =>
      '(uniqueId, usedIds, draws) ←
        ensureUniqueId fuel (ms_usedIds st) (id importedTable) (ms_draws st);
      Some {| ms_mergedTables :=
                ms_mergedTables st ++
                  [ {| id := uniqueId;
                       bossName := bossName importedTable;
                       channelsCount := channelsCount importedTable;
                       channels := channels importedTable;
                       createdAt := createdAt importedTable |} ];
              ms_conflicts := ms_conflicts st;
              ms_defaultChoices := ms_defaultChoices st;
              ms_usedIds := usedIds;
              ms_draws := draws |}
  | Some (targetIndex, existing) =>
      let mergedCount :=
        clampChannelsCount
          (FInt (Z.max (channelsCount existing) (channelsCount importedTable))) in
      let mineByChannel := channelIndex (channels existing) in
      let theirsByChannel := channelIndex (channels importedTable) in
      let '(nextChannels, conflicts, defaultChoices) :=
        foldl (mergeChannel existing mineByChannel theirsByChannel)
              ([], ms_conflicts st, ms_defaultChoices st)
              (seqZ 1 mergedCount) in
      Some {| ms_mergedTables :=
                <[targetIndex :=
                    {| id := id existing;
                       bossName := bossName existing;
                       channelsCount := mergedCount;
                       channels := nextChannels;
                       createdAt := createdAt existing |}]> (ms_mergedTables st);
              ms_conflicts := conflicts;
              ms_defaultChoices := defaultChoices;
              ms_usedIds := ms_usedIds st;
              ms_draws := ms_draws st |}
  end.

Fixpoint mergeAll (fuel : nat) (st : mergeState) (importedTables : list BossTable)
  : option mergeState :=
  match importedTables with
  | [] => Some st
  | importedTable :: rest =>
      st' ← mergeImported fuel st importedTable; mergeAll fuel st' rest
  end.

(** [buildMergePreview existingTables importedTables], the identifier
    generator being at position [draws].  [None]: some [while] loop of
    [ensureUniqueId] has not ended within [fuel] draws. *)
Definition buildMergePreview (fuel : nat) (draws : nat)
    (existingTables importedTables : list BossTable) : option MergePreview :=
  let mergedTables := cloneTable <$> existingTables in
  let usedIds : gset string := list_to_set (id <$> mergedTables) in
  st ← mergeAll fuel
         {| ms_mergedTables := mergedTables;
            ms_conflicts := [];
            ms_defaultChoices := ∅;
            ms_usedIds := usedIds;
            ms_draws := draws |}
         (cloneTable <$> importedTables);
  Some {| mergedTables := ms_mergedTables st;
          conflicts := ms_conflicts st;
          defaultChoices := ms_defaultChoices st |}.
End merge.

(** ** Conflict resolver *)

(** The body of the loop over [preview.conflicts] (lines 399-407). [result]
    holds one object per table, so the assignment to [table.channels] is an
    update of [result] at [idx]. *)
Definition applyChoice (choices : gmap string ConflictChoice)
    (tableIndexById : list (string * nat))
    (result : list BossTable) (conflict : MergeConflict.t) : list BossTable :=
  let selected := default mine_choice (choices !! MergeConflict.id conflict) in
  match JsMap.get (MergeConflict.tableId conflict) tableIndexById with
  | None => result
  | Some idx =>
      match result !! idx with
      | None => result
      | Some table =>
          match list_find (λ c, channel c = MergeConflict.channel conflict)
                          (channels table) with
          | None => result
          | Some (channelIdx, _) =>
              let chosen :=
                match selected with
                | theirs_choice => cloneChannel (MergeConflict.theirs conflict)
                | mine_choice => cloneChannel (MergeConflict.mine conflict)
                end in
              <[idx := {| id := id table;
                          bossName := bossName table;
                          channelsCount := channelsCount table;
                          channels := <[channelIdx := chosen]> (channels table);
                          createdAt := createdAt table |}]> result
          end
      end
  end.

Definition applyMergeChoices (preview : MergePreview)
    (choices : gmap string ConflictChoice) : list BossTable :=
  let result := cloneTable <$> mergedTables preview in
  let tableIndexById := JsMap.of_entries (imap (λ index table, (id table, index)) result) in
  foldl (applyChoice choices tableIndexById) result (conflicts preview).

(** * Specification vocabulary *)

(** The notions the claims are stated with.  They are not part of the
    source; each is defined from the words of the data model or names a
    piece of a source function. *)

(** ** Tables *)

(** The invariant of the data model: as many channels as [channelsCount],
    numbered [1..channelsCount] in this order, and a count within [1, 50]. *)
Definition tableInvariant (t : BossTable) : Prop :=
  Z.of_nat (length (channels t)) = channelsCount t ∧
  channel <$> channels t = seqZ 1 (channelsCount t) ∧
  1 ≤ channelsCount t ≤ 50.

Global Instance tableInvariant_dec t : Decision (tableInvariant t).
Proof. unfold tableInvariant. apply _. Defined.

Definition isFiniteNumber (n : number) : Prop :=
  match n with
  | Finite _ => True
  | _ => False
  end.

Global Instance isFiniteNumber_dec n : Decision (isFiniteNumber n).
Proof. destruct n; simpl; apply _. Defined.

(** A timestamp field that is absent or a finite number. *)
Definition finiteStamp (o : option number) : Prop :=
  match o with
  | Some n => isFiniteNumber n
  | None => True
  end.

Global Instance finiteStamp_dec o : Decision (finiteStamp o).
Proof. destruct o; simpl; apply _. Defined.

Definition finiteTimers (c : ChannelTimer) : Prop :=
  finiteStamp (killedAt c) ∧ finiteStamp (earliestRespawnAt c) ∧
  finiteStamp (latestRespawnAt c).

Global Instance finiteTimers_dec c : Decision (finiteTimers c).
Proof. unfold finiteTimers. apply _. Defined.

(** A boss name that [normalizeTable] rejects: empty once trimmed. *)
Definition blank (name : string) : Prop := String.length (trim name) = 0%nat.

Global Instance blank_dec name : Decision (blank name).
Proof. unfold blank. apply _. Defined.

(** The tables in the image of [normalizeTable]. *)
Definition normalForm (t : BossTable) : Prop :=
  (0 < String.length (id t))%nat ∧
  ¬ blank (bossName t) ∧
  tableInvariant t ∧
  Forall finiteTimers (channels t) ∧
  isFiniteNumber (createdAt t).

Global Instance normalForm_dec t : Decision (normalForm t).
Proof. unfold normalForm. apply _. Defined.

(** A table as the data model describes it. *)
Definition wellFormedTable (t : BossTable) : Prop :=
  id t ≠ "" ∧ bossName t ≠ "" ∧ tableInvariant t ∧
  Forall finiteTimers (channels t) ∧ isFiniteNumber (createdAt t).

Global Instance wellFormedTable_dec t : Decision (wellFormedTable t).
Proof. unfold wellFormedTable. apply _. Defined.

Definition wellFormedCollection (ts : list BossTable) : Prop :=
  NoDup (id <$> ts) ∧ Forall wellFormedTable ts.

Global Instance wellFormedCollection_dec ts : Decision (wellFormedCollection ts).
Proof. unfold wellFormedCollection. apply _. Defined.

(** ** The normaliser *)

(** The highest channel number among the parsed channels, [0] when there is
    none. *)
Definition highestObserved (cs : list ChannelTimer) : Z :=
  foldr Z.max 0 (channel <$> cs).

(** The entry that deduplication keeps for a channel number: the last one
    parsed with this number. *)
Fixpoint lastSeen (k : Z) (cs : list ChannelTimer) : option ChannelTimer :=
  match cs with
  | [] => None
  | c :: rest =>
      match lastSeen k rest with
      | Some c' => Some c'
      | None => if decide (channel c = k) then Some c else None
      end
  end.

Definition isTimezoneMismatch (w : warning) : Prop :=
  match w with
  | TimezoneMismatch _ _ => True
  | _ => False
  end.

(** ** The merge *)

(** [byChannel.get(channelNumber) ?? { channel: channelNumber }] *)
Definition channelAt (byChannel : list (Z * ChannelTimer)) (channelNumber : Z)
  : ChannelTimer :=
  default (emptyChannel channelNumber) (JsMap.get channelNumber byChannel).

(** The two sides hold timer data that differ. *)
Definition inConflict (mine theirs : ChannelTimer) : bool :=
  hasTimer mine && hasTimer theirs &&
  bool_decide (timerSignature mine ≠ timerSignature theirs).

(** The channel the loop pushes on [nextChannels]. *)
Definition mergedChannel (mine theirs : ChannelTimer) (channelNumber : Z)
  : ChannelTimer :=
  if hasTimer mine then mine
  else if hasTimer theirs then theirs
  else emptyChannel channelNumber.

Definition conflictAt (existing : BossTable) (mine theirs : ChannelTimer)
    (channelNumber : Z) (position : nat) : MergeConflict.t :=
  MergeConflict.mk
    (id existing +:+ ":" +:+ pretty channelNumber +:+ ":" +:+ pretty position)
    (bossName existing) (id existing) channelNumber mine theirs.

(** A conflict names its table and carries the two sides of its channel. *)
Definition conflictLabelled (c : MergeConflict.t) : Prop :=
  channel (MergeConflict.mine c) = MergeConflict.channel c ∧
  channel (MergeConflict.theirs c) = MergeConflict.channel c.

Global Instance conflictLabelled_dec c : Decision (conflictLabelled c).
Proof. unfold conflictLabelled. apply _. Defined.

Definition mergedCountOf (existing importedTable : BossTable) : Z :=
  clampChannelsCount
    (FInt (Z.max (channelsCount existing) (channelsCount importedTable))).

(** The state of the channel loop when it ends. *)
Definition channelLoop (st : mergeState) (existing importedTable : BossTable)
  : list ChannelTimer * list MergeConflict.t * gmap string ConflictChoice :=
  foldl (mergeChannel existing (channelIndex (channels existing))
                      (channelIndex (channels importedTable)))
        ([], ms_conflicts st, ms_defaultChoices st)
        (seqZ 1 (mergedCountOf existing importedTable)).

Definition withId (t : BossTable) (uniqueId : string) : BossTable :=
  {| id := uniqueId;
     bossName := bossName t;
     channelsCount := channelsCount t;
     channels := channels t;
     createdAt := createdAt t |}.

Definition mergedTable (existing importedTable : BossTable)
    (nextChannels : list ChannelTimer) : BossTable :=
  {| id := id existing;
     bossName := bossName existing;
     channelsCount := mergedCountOf existing importedTable;
     channels := nextChannels;
     createdAt := createdAt existing |}.

Definition initialState (existingTables : list BossTable) (draws : nat) : mergeState :=
  {| ms_mergedTables := existingTables;
     ms_conflicts := [];
     ms_defaultChoices := ∅;
     ms_usedIds := list_to_set (id <$> existingTables);
     ms_draws := draws |}.

Definition previewOf (st : mergeState) : MergePreview :=
  {| mergedTables := ms_mergedTables st;
     conflicts := ms_conflicts st;
     defaultChoices := ms_defaultChoices st |}.

(** The identifiers of the result are pairwise distinct and recorded in
    [usedIds]. *)
Definition idsTracked (st : mergeState) : Prop :=
  NoDup (id <$> ms_mergedTables st) ∧
  ∀ i, i ∈ id <$> ms_mergedTables st → i ∈ ms_usedIds st.

(** ** Boards with one timer *)

Definition timed (channelNumber stamp : Z) : ChannelTimer :=
  {| channel := channelNumber;
     killedAt := Some (Finite (FInt stamp));
     earliestRespawnAt := None;
     latestRespawnAt := None |}.

(** Channels [1..n], all empty but channel 3, which was killed at [stamp]. *)
Definition board (n stamp : Z) : list ChannelTimer :=
  (λ k, if decide (k = 3) then timed 3 stamp else emptyChannel k) <$> seqZ 1 n.

Definition boardTable (i name : string) (n stamp : Z) (created : number) : BossTable :=
  {| id := i; bossName := name; channelsCount := n;
     channels := board n stamp; createdAt := created |}.

(** ** The host *)

Definition noWhiteSpace (s : string) : Prop :=
  Forall (λ a, isWhiteSpace a = false) (String.list_ascii_of_string s).

(** What the codec needs of the host: base64 text decodes to the bytes it
    encodes and has no white space, decompression undoes compression, and
    UTF-8 decoding undoes encoding. *)
Record codecLaws (rt : runtime) : Prop := {
  atob_btoa : ∀ bytes, atob rt (btoa rt bytes) = Some bytes;
  btoa_noWhiteSpace : ∀ bytes, noWhiteSpace (btoa rt bytes);
  gunzip_gzip : ∀ gzip text,
    CompressionStream_gzip rt = Some gzip →
    ∃ gunzip, DecompressionStream_gunzip rt = Some gunzip ∧
              gunzip (gzip text) = Some text;
  decode_encode : ∀ text, TextDecoder_decode rt (TextEncoder_encode rt text) = text;
}.

(** * A reference host *)

(** A host to run the codec on: base64 as in RFC 4648, UTF-8 as the identity
    on 8-bit strings, a stand-in for the compression streams that can be
    switched off, a serialiser of JSON values and a [JSON.parse] that reads
    back the documents of a given corpus. *)

Definition base64Alphabet : list ascii :=
  String.list_ascii_of_string
    "ABCDEFGHIJKLMNOPQRSTUVWXYZabcdefghijklmnopqrstuvwxyz0123456789+/".

Definition base64Pad : ascii := "="%char.

Definition sextetValue (b5 b4 b3 b2 b1 b0 : bool) : nat :=
  ((if b5 then 32 else 0) + (if b4 then 16 else 0) + (if b3 then 8 else 0) +
   (if b2 then 4 else 0) + (if b1 then 2 else 0) + (if b0 then 1 else 0))%nat.

Definition encodeSextet (b5 b4 b3 b2 b1 b0 : bool) : ascii :=
  default base64Pad (base64Alphabet !! sextetValue b5 b4 b3 b2 b1 b0).

Definition decodeSextet (a : ascii) : option (bool * bool * bool * bool * bool * bool) :=
  '(n, _) ← list_find (λ c, c = a) base64Alphabet;
  Some (Nat.testbit n 5, Nat.testbit n 4, Nat.testbit n 3,
        Nat.testbit n 2, Nat.testbit n 1, Nat.testbit n 0).

Fixpoint base64Encode (bytes : list ascii) : string :=
  match bytes with
  | [] => ""
  | [Ascii x0 x1 x2 x3 x4 x5 x6 x7] =>
      String (encodeSextet x7 x6 x5 x4 x3 x2)
        (String (encodeSextet x1 x0 false false false false)
           (String base64Pad (String base64Pad "")))
  | [Ascii x0 x1 x2 x3 x4 x5 x6 x7; Ascii y0 y1 y2 y3 y4 y5 y6 y7] =>
      String (encodeSextet x7 x6 x5 x4 x3 x2)
        (String (encodeSextet x1 x0 y7 y6 y5 y4)
           (String (encodeSextet y3 y2 y1 y0 false false)
              (String base64Pad "")))
  | Ascii x0 x1 x2 x3 x4 x5 x6 x7 :: Ascii y0 y1 y2 y3 y4 y5 y6 y7
      :: Ascii z0 z1 z2 z3 z4 z5 z6 z7 :: rest =>
      String (encodeSextet x7 x6 x5 x4 x3 x2)
        (String (encodeSextet x1 x0 y7 y6 y5 y4)
           (String (encodeSextet y3 y2 y1 y0 z7 z6)
              (String (encodeSextet z5 z4 z3 z2 z1 z0) (base64Encode rest))))
  end.

Fixpoint base64Decode (text : string) : option (list ascii) :=
  match text with
  | "" => Some []
  | String a (String b (String c (String d rest))) =>
      '(x7, x6, x5, x4, x3, x2) ← decodeSextet a;
      '(x1, x0, y7, y6, y5, y4) ← decodeSextet b;
      let x := Ascii x0 x1 x2 x3 x4 x5 x6 x7 in
      if decide (d = base64Pad) then
        if decide (rest = "") then
          if decide (c = base64Pad) then Some [x]
          else
            '(y3, y2, y1, y0, _, _) ← decodeSextet c;
            Some [x; Ascii y0 y1 y2 y3 y4 y5 y6 y7]
        else None
      else
        '(y3, y2, y1, y0, z7, z6) ← decodeSextet c;
        '(z5, z4, z3, z2, z1, z0) ← decodeSextet d;
        tail ← base64Decode rest;
        Some (x :: Ascii y0 y1 y2 y3 y4 y5 y6 y7 :: Ascii z0 z1 z2 z3 z4 z5 z6 z7 :: tail)
  | _ => None
  end.

(** The text of a JSON value.  The characters of strings are written as
    they are; a number that is not an integer is written as its floor
    followed by the tag of its fractional part. *)
Definition quoteMark : string := String "034"%char "".

Definition joinWith (separator : string) (parts : list string) : string :=
  match parts with
  | [] => ""
  | first :: others => foldl (λ text part, text +:+ separator +:+ part) first others
  end.

Fixpoint printJson (value : json) : string :=
  match value with
  | JNull => "null"
  | JBool true => "true"
  | JBool false => "false"
  | JNum (Finite (FInt z)) => pretty z
  | JNum (Finite (FFrac fl r)) => pretty fl +:+ "." +:+ pretty r
  | JNum _ => "null"
  | JStr s => quoteMark +:+ s +:+ quoteMark
  | JArr items => "[" +:+ joinWith "," (printJson <$> items) +:+ "]"
  | JObj fields =>
      "{" +:+ joinWith ","
                ((λ kv, quoteMark +:+ kv.1 +:+ quoteMark +:+ ":" +:+ printJson kv.2)
                   <$> fields) +:+ "}"
  end.

Definition parseFrom (corpus : list json) (text : string) : option json :=
  snd <$> list_find (λ value, printJson value = text) corpus.

(** A stand-in for the compression streams: the text behind the two magic
    bytes of a gzip member. *)
Definition gzipMagic : list ascii := ["031"%char; "139"%char].

Definition storeText (text : string) : list ascii :=
  gzipMagic ++ String.list_ascii_of_string text.

Definition unstoreText (bytes : list ascii) : option string :=
  match bytes with
  | a :: b :: rest =>
      if decide ([a; b] = gzipMagic) then Some (String.string_of_list_ascii rest)
      else None
  | _ => None
  end.

Definition referenceHost (compression : bool) (corpus : list json) : runtime :=
  {| JSON_stringify := printJson;
     JSON_parse := parseFrom corpus;
     CompressionStream_gzip := if compression then Some storeText else None;
     DecompressionStream_gunzip := if compression then Some unstoreText else None;
     btoa := base64Encode;
     atob := base64Decode;
     TextEncoder_encode := String.list_ascii_of_string;
     TextDecoder_decode := String.string_of_list_ascii |}.

(** * Sample data *)

(** Sample data for the examples below. *)
Definition sampleIds (n : nat) : string := "generated-" +:+ pretty n.
Definition sampleClock (n : nat) : Z := 1700000000000 + Z.of_nat n.
Definition sampleTable (i name : string) (cs : list ChannelTimer) : BossTable :=
  {| id := i; bossName := name; channelsCount := Z.of_nat (length cs);
     channels := cs; createdAt := Finite (FInt 1700000000000) |}.

Definition hostZone : string := "Asia/Seoul".

Definition twoBosses : list BossTable :=
  [sampleTable "a" "Zakum" [timed 1 100; emptyChannel 2];
   sampleTable "b" "Horntail" [emptyChannel 1]].

Definition twoBossesPayload : json :=
  valueOfPayload (exportPayload hostZone sampleClock twoBosses 0).

(** Two tables of one well-formed collection that share a boss name: the second
    is merged into the first, their channel 1 is in conflict and channel 2
    of the first takes the timer of the second. *)
Definition sameBossTwice : list BossTable :=
  [sampleTable "a" "Zakum" [timed 1 100; emptyChannel 2];
   sampleTable "b" "Zakum" [timed 1 200; timed 2 300]].

(** Two imported tables carry the id ["a"], which the existing collection
    already uses. *)
Definition existingA : list BossTable :=
  [sampleTable "a" "Zakum" [emptyChannel 1]].

Definition importedTwiceA : list BossTable :=
  [sampleTable "a" "Horntail" [emptyChannel 1];
   sampleTable "a" "Pianus" [timed 1 100]].

Definition threeChannels : BossTable :=
  sampleTable "a" "Zakum" [emptyChannel 1; timed 2 100; emptyChannel 3].

Definition rawThreeChannels : json :=
  JObj [("bossName", JStr "Zakum");
        ("channels",
         JArr [JObj [("channel", JNum (Finite (FInt 3)));
                     ("killedAt", JNum (Finite (FInt 100)))]])].

(** A preview whose [mergedTables] satisfy the invariant, with a conflict
    on channel 2 whose two sides are numbered 7 and 9: the resolved table
    has the channel numbers 1, 7, 3. *)
Definition mislabelledPreview : MergePreview :=
  {| mergedTables := [threeChannels];
     conflicts := [MergeConflict.mk "a:2:0" "Zakum" "a" 2 (timed 7 100) (timed 9 200)];
     defaultChoices := {["a:2:0" := mine_choice]} |}.

Definition rawDuplicates : json :=
  JObj [("bossName", JStr "Zakum");
        ("channels",
         JArr [JObj [("channel", JNum (Finite (FInt 2)));
                     ("killedAt", JNum (Finite (FInt 100)))];
               JObj [("channel", JNum (Finite (FInt 4)))];
               JObj [("channel", JNum (Finite (FFrac 2 1)));
                     ("killedAt", JNum (Finite (FInt 200)))]])].

(** A table with a timer on channel 60: the count is clamped to 50 and the
    entry of channel 60, which survived deduplication, is not in the output. *)
Definition rawChannel60 : json :=
  JObj [("bossName", JStr "Zakum");
        ("channels",
         JArr [JObj [("channel", JNum (Finite (FInt 60)));
                     ("killedAt", JNum (Finite (FInt 100)))]])].

Definition rawCount1000 : json :=
  JObj [("bossName", JStr "Zakum");
        ("channelsCount", JNum (Finite (FInt 1000)));
        ("channels",
         JArr [JObj [("channel", JNum (Finite (FInt 2)));
                     ("killedAt", JNum (Finite (FInt 100)))]])].

(** A well-formed table whose boss name is one space: the name is not empty,
    [normalizeTable] rejects it as blank, and the imported collection is
    empty. *)
Definition blankNamed : list BossTable :=
  [sampleTable "a" " " [emptyChannel 1]].

Definition blankNamedPayload : json :=
  valueOfPayload (exportPayload hostZone sampleClock blankNamed 0).

Definition versionTwo : json :=
  JObj [("version", JNum (Finite (FInt 2)));
        ("timezone", JStr hostZone);
        ("tables", JArr (valueOfTable <$> twoBosses))].

Definition noTimezone : json :=
  JObj [("version", JNum (Finite (FInt 1)));
        ("tables", JArr (valueOfTable <$> twoBosses))].

(** * Further vocabulary *)

(** ** Text *)

(** The character occurs in the text. *)
Fixpoint occurs (c : ascii) (s : string) : bool :=
  match s with
  | EmptyString => false
  | String a rest => bool_decide (a = c) || occurs c rest
  end.

(** The text behind the last occurrence of a character (the whole text when
    there is none). *)
Fixpoint afterLast (c : ascii) (s : string) : string :=
  match s with
  | EmptyString => EmptyString
  | String a rest =>
      if occurs c rest then afterLast c rest
      else if decide (a = c) then rest else String a rest
  end.

Definition isDigit (a : ascii) : bool :=
  bool_decide (a ∈ String.list_ascii_of_string "0123456789").

Fixpoint allDigits (s : string) : bool :=
  match s with
  | EmptyString => true
  | String a rest => isDigit a && allDigits rest
  end.

(** ** The channel loop as a function of the channel numbers *)

(** The conflicts the loop pushes over the channel numbers [ks], the first
    of them at [position]. *)
Fixpoint newConflicts (existing : BossTable)
    (mineByChannel theirsByChannel : list (Z * ChannelTimer))
    (position : nat) (ks : list Z) : list MergeConflict.t :=
  match ks with
  | [] => []
  | k :: rest =>
      let mine := channelAt mineByChannel k in
      let theirs := channelAt theirsByChannel k in
      if inConflict mine theirs then
        conflictAt existing mine theirs k position
          :: newConflicts existing mineByChannel theirsByChannel (S position) rest
      else newConflicts existing mineByChannel theirsByChannel position rest
  end.

(** [defaultChoices[conflict.id] = 'mine'] for each of the conflicts. *)
Definition withDefaults (choices : gmap string ConflictChoice)
    (cs : list MergeConflict.t) : gmap string ConflictChoice :=
  foldl (λ m c, <[MergeConflict.id c := mine_choice]> m) choices cs.

(** ** What a merge keeps *)

(** What identifies a table in a collection. *)
Definition header (t : BossTable) : string * string * number :=
  (id t, bossName t, createdAt t).

(** Every timer of [t] is in [t'], at the same index. *)
Definition keepsTimers (t t' : BossTable) : Prop :=
  ∀ (k : nat) c, channels t !! k = Some c → hasTimer c = true →
                 channels t' !! k = Some c.

(** The table a conflict names holds, on the channel of the conflict, the
    [mine] side of the conflict. *)
Definition settled (ts : list BossTable) (c : MergeConflict.t) : Prop :=
  ∃ (i : nat) t,
    ts !! i = Some t ∧ id t = MergeConflict.tableId c ∧
    1 ≤ MergeConflict.channel c ∧
    channels t !! Z.to_nat (MergeConflict.channel c - 1) = Some (MergeConflict.mine c) ∧
    hasTimer (MergeConflict.mine c) = true.

(** ** What the conflict resolver keeps *)

(** [new Map(result.map((table, index) => [table.id, index]))] *)
Definition tableIndex (ts : list BossTable) : list (string * nat) :=
  JsMap.of_entries (imap (λ index table, (id table, index)) ts).

(** A table but for the content of its channels. *)
Definition shape (t : BossTable) : string * string * Z * number * nat :=
  (id t, bossName t, channelsCount t, createdAt t, length (channels t)).

(** ** Further sample data *)

(** Two tables of bosses that [existingA] does not track, with unused ids. *)
Definition newBosses : list BossTable :=
  [sampleTable "b" "Horntail" [emptyChannel 1];
   sampleTable "c" "Pianus" [timed 1 100; emptyChannel 2]].

(** A preview whose conflict names a table that is not in [mergedTables]. *)
Definition stalePreview : MergePreview :=
  {| mergedTables := [threeChannels];
     conflicts := [MergeConflict.mk "gone:2:0" "Zakum" "gone" 2 (timed 2 100) (timed 2 200)];
     defaultChoices := {["gone:2:0" := mine_choice]} |}.

(** ** What the normaliser accepts *)

(** The boss name of a raw table that passes the two checks of
    [normalizeTable] (lines 192-200). *)
Definition acceptedName (table : json) : option string :=
  if isObject table then
    match getField table "bossName" with
    | Some (JStr name) => if decide (blank name) then None else Some name
    | _ => None
    end
  else None.

(** The table number of a warning about a skipped table. *)
Definition skippedAt (w : warning) : option nat :=
  match w with
  | SkippedNotObject position | SkippedMissingBossName position => Some position
  | _ => None
  end.

(** A raw table without an [id] that [normalizeTable] would keep. *)
Definition lacksId (table : json) : Prop :=
  ∀ s, getField table "id" = Some (JStr s) → s = "".

(** Text made of white space only. *)
Definition whiteSpaceOnly (s : string) : Prop :=
  Forall (λ a, isWhiteSpace a = true) (String.list_ascii_of_string s).

Global Instance whiteSpaceOnly_dec s : Decision (whiteSpaceOnly s).
Proof. unfold whiteSpaceOnly. apply _. Defined.

(** An envelope with a table whose channels repeat a number, a value that is
    not a table, and a table with a channel beyond the limit. *)
Definition messyEnvelope : json :=
  JObj [("version", JNum (Finite (FInt 1)));
        ("timezone", JStr hostZone);
        ("tables", JArr [rawDuplicates; JNull; rawChannel60])].

(** * The backup panel *)

(** The handlers of [BackupPanel.tsx] that call the functions above, as
    functions of the state of the component.  [onReplaceTables] is taken
    not to throw; its argument, when a handler calls it, is returned beside
    the state. *)
Module BackupPanel.

(** The texts of [setMessage]. *)
Inductive notice :=
  | NoNotice
      (* '' *)
  | MergedWithWarnings (warnings : list warning)
      (* Merged with warnings: ${result.warnings.join(' ')} *)
  | MergedWithoutConflicts (count : nat)
      (* Merged ${result.payload.tables.length} table(s) with no conflicts. *)
  | FoundConflicts (count : nat)
      (* Found ${preview.conflicts.length} conflict(s). Choose what to keep, ... *)
  | MergeApplied.
      (* Merge applied. *)

(** The state that the merge handlers read and write. [error] is [None] for
    the empty text and else the error whose message is shown. *)
Record state := {
  importText : string;
  message : notice;
  error : option importError;
  isBusy : bool;
  mergePreview : option MergePreview;
  choices : gmap string ConflictChoice;
}.

(** [!value] for an optional number: [undefined], [0] and [NaN]. *)
Definition falsy (value : option number) : bool :=
  match value with
  | None | Some (Finite (FInt 0)) | Some NaN => true
  | _ => false
  end.

Section handlers.
Variable rt : runtime.
Variable APP_TIME_ZONE : string.
Variable Date_now : nat → Z.
Variable generateTableId : nat → string.
Variable fuel : nat.
(** [formatTimestampLocal], of [src/utils/time]. *)
Variable formatTimestampLocal : option number → string.

Definition formatChannelTimer (timer : ChannelTimer) : string :=
  if falsy (earliestRespawnAt timer) && falsy (latestRespawnAt timer) then "No timer"
  else
    let earliest := formatTimestampLocal (earliestRespawnAt timer) in
    let latest := formatTimestampLocal (latestRespawnAt timer) in
    let killed := formatTimestampLocal (killedAt timer) in
    "Killed: " +:+ killed +:+ " | Earliest: " +:+ earliest +:+ " | Latest: " +:+ latest.

(** [handleMergeImport], for the [tables] of the properties, at the positions
    [clk] of the clock and [draws] of the id generator.  [None]: a loop of
    [ensureUniqueId] has not ended within [fuel] draws. *)
Definition handleMergeImport (currentTables : list BossTable) (st : state)
    (clk draws : nat) : option (state * option (list BossTable)) :=
  match importState rt APP_TIME_ZONE Date_now (importText st) clk with
  | inl err =>
      Some ({| importText := importText st;
               message := NoNotice;
               error := Some err;
               isBusy := false;
               mergePreview := None;
               choices := choices st |}, None)
  | inr result =>
      preview ← buildMergePreview generateTableId fuel draws currentTables
                  (tables (payload result));
      if decide (length (conflicts preview) = 0%nat) then
        Some ({| importText := importText st;
                 message :=
                   if decide (0 < length (warnings result))%nat
                   then MergedWithWarnings (warnings result)
                   else MergedWithoutConflicts (length (tables (payload result)));
                 error := None;
                 isBusy := false;
                 mergePreview := None;
                 choices := choices st |}, Some (mergedTables preview))
      else
        Some ({| importText := importText st;
                 message := FoundConflicts (length (conflicts preview));
                 error := None;
                 isBusy := false;
                 mergePreview := Some preview;
                 choices := defaultChoices preview |}, None)
  end.


End handlers.
End BackupPanel.

(** A panel in which nothing has been pasted or merged yet. *)
Definition freshPanel (pasted : string) : BackupPanel.state :=
  {| BackupPanel.importText := pasted;
     BackupPanel.message := BackupPanel.NoNotice;
     BackupPanel.error := None;
     BackupPanel.isBusy := false;
     BackupPanel.mergePreview := None;
     BackupPanel.choices := ∅ |}.

(** The backup of a device that tracks Zakum with other timers than
    [twoBosses]: channel 1 is in conflict and channel 2 is new. *)
Definition otherDevice : list BossTable :=
  [sampleTable "z" "Zakum" [timed 1 200; timed 2 300]].


(** ** What a merge accounts for *)

(** The timer [c], imported on the channel of index [k] for the boss
    [name], is accounted for: the table of this boss holds it on this
    channel, or a conflict of this table carries it as the imported side. *)
Definition accounted (ts : list BossTable) (cs : list MergeConflict.t)
    (name : string) (k : nat) (c : ChannelTimer) : Prop :=
  ∃ (i : nat) e,
    ts !! i = Some e ∧ bossName e = name ∧
    (channels e !! k = Some c ∨
     ∃ cf, cf ∈ cs ∧ MergeConflict.tableId cf = id e ∧
           MergeConflict.channel cf = channel c ∧ MergeConflict.theirs cf = c).

(** A conflict between two timers that differ, on the channel it names, in
    a table of the collection that it names by id and boss name. *)
Definition genuineIn (ts : list BossTable) (cf : MergeConflict.t) : Prop :=
  hasTimer (MergeConflict.mine cf) = true ∧
  hasTimer (MergeConflict.theirs cf) = true ∧
  timerSignature (MergeConflict.mine cf) ≠ timerSignature (MergeConflict.theirs cf) ∧
  channel (MergeConflict.mine cf) = MergeConflict.channel cf ∧
  channel (MergeConflict.theirs cf) = MergeConflict.channel cf ∧
  ∃ (i : nat) e, ts !! i = Some e ∧ id e = MergeConflict.tableId cf ∧
                 bossName e = MergeConflict.bossName cf.

(** * Properties *)

(** ** Trimming and prefixes *)

Lemma trimStart_noWhiteSpace s : noWhiteSpace s → trimStart s = s.
Proof.
  destruct s as [|a s]; [done|]. unfold noWhiteSpace. simpl.
  intros [Ha _]%Forall_cons. by rewrite Ha.
Qed.

Lemma trimEnd_noWhiteSpace s : noWhiteSpace s → trimEnd s = s.
Proof.
  unfold noWhiteSpace. induction s as [|a s IH]; [done|]. simpl.
  intros [Ha Hs]%Forall_cons. rewrite IH by done.
  destruct s; [by rewrite Ha|done].
Qed.

Lemma trim_noWhiteSpace s : noWhiteSpace s → trim s = s.
Proof.
  intros Hs. unfold trim. rewrite trimStart_noWhiteSpace by done.
  by apply trimEnd_noWhiteSpace.
Qed.

Lemma noWhiteSpace_app s1 s2 :
  noWhiteSpace s1 → noWhiteSpace s2 → noWhiteSpace (s1 +:+ s2).
Proof.
  unfold noWhiteSpace. induction s1 as [|a s1 IH]; simpl; [done|].
  intros [Ha Hs]%Forall_cons ?. constructor; auto.
Qed.

Lemma startsWith_app prefix rest : startsWith (prefix +:+ rest) prefix = true.
Proof.
  unfold startsWith. induction prefix as [|a prefix IH]; simpl.
  - by destruct rest.
  - destruct (ascii_dec a a); [done|congruence].
Qed.

Lemma slice_app prefix rest : slice (String.length prefix) (prefix +:+ rest) = rest.
Proof. induction prefix as [|a prefix IH]; simpl; [by destruct rest|done]. Qed.

(** ** The [Map] model *)

Section JsMap_facts.
Context {K V : Type} `{EqDecision K}.
Implicit Types (m : list (K * V)) (k : K) (v : V).

Lemma JsMap_get_set m k k' v :
  JsMap.get k (JsMap.set k' v m) = if decide (k' = k) then Some v else JsMap.get k m.
Proof.
  induction m as [|[k0 v0] m IH]; simpl.
  - done.
  - destruct (decide (k0 = k')) as [->|Hne]; simpl.
    + by destruct (decide (k' = k)).
    + destruct (decide (k0 = k)) as [->|]; [|done].
      by rewrite decide_False by congruence.
Qed.

Lemma JsMap_set_fresh m k v : k ∉ m.*1 → JsMap.set k v m = m ++ [(k, v)].
Proof.
  induction m as [|[k0 v0] m IH]; simpl; [done|].
  intros Hk. rewrite decide_False by set_solver. f_equal. apply IH. set_solver.
Qed.

Lemma JsMap_keys_set m k v :
  (JsMap.set k v m).*1 = if decide (k ∈ m.*1) then m.*1 else m.*1 ++ [k].
Proof.
  induction m as [|[k0 v0] m IH].
  - by rewrite decide_False by set_solver.
  - cbn [JsMap.set]. destruct (decide (k0 = k)) as [->|Hne].
    + by rewrite decide_True by set_solver.
    + rewrite fmap_cons, IH. cbn [fst fmap list_fmap].
      destruct (decide (k ∈ m.*1)).
      * by rewrite decide_True by set_solver.
      * by rewrite decide_False by set_solver.
Qed.

Lemma JsMap_NoDup_set m k v : NoDup m.*1 → NoDup (JsMap.set k v m).*1.
Proof.
  intros Hm. rewrite JsMap_keys_set. case_decide; [done|].
  apply NoDup_app. split_and!; [done|set_solver|apply NoDup_singleton].
Qed.

Lemma JsMap_get_Some_elem_of m k v : JsMap.get k m = Some v → (k, v) ∈ m.
Proof.
  induction m as [|[k0 v0] m IH]; simpl; [done|].
  case_decide; intros; simplify_eq; set_solver.
Qed.

Lemma JsMap_elem_of_get m k v : NoDup m.*1 → (k, v) ∈ m → JsMap.get k m = Some v.
Proof.
  induction m as [|[k0 v0] m IH]; simpl; [set_solver|].
  intros [Hk0 Hm]%NoDup_cons [?|Hin]%elem_of_cons; simplify_eq.
  - by rewrite decide_True.
  - rewrite decide_False; [auto|]. intros ->. apply Hk0.
    apply list_elem_of_fmap. by exists (k, v).
Qed.

Lemma JsMap_of_entries_snoc (entries : list (K * V)) k v :
  JsMap.of_entries (entries ++ [(k, v)]) = JsMap.set k v (JsMap.of_entries entries).
Proof. unfold JsMap.of_entries. by rewrite foldl_app. Qed.

Lemma JsMap_NoDup_of_entries (entries : list (K * V)) :
  NoDup (JsMap.of_entries entries).*1.
Proof.
  induction entries as [|[k v] entries IH] using rev_ind.
  - apply NoDup_nil_2.
  - rewrite JsMap_of_entries_snoc. by apply JsMap_NoDup_set.
Qed.

(** Entries with pairwise distinct keys are stored as they come. *)
Lemma JsMap_of_entries_NoDup (entries : list (K * V)) :
  NoDup entries.*1 → JsMap.of_entries entries = entries.
Proof.
  induction entries as [|[k v] entries IH] using rev_ind; [done|].
  rewrite fmap_app. intros (Hl & Hk & _)%NoDup_app.
  rewrite JsMap_of_entries_snoc, IH by done.
  apply JsMap_set_fresh. intros Hin. apply (Hk k); [done|]. simpl. set_solver.
Qed.
End JsMap_facts.

(** ** Channel maps, deduplication and sorting *)

Lemma dedupe_channelIndex cs : dedupe cs = channelIndex cs.
Proof. unfold dedupe, channelIndex, JsMap.of_entries. by rewrite foldl_fmap. Qed.

Lemma channelIndex_snoc cs c :
  channelIndex (cs ++ [c]) = JsMap.set (channel c) c (channelIndex cs).
Proof. unfold channelIndex. rewrite fmap_app. apply JsMap_of_entries_snoc. Qed.

Lemma channelIndex_get_snoc cs c k :
  JsMap.get k (channelIndex (cs ++ [c])) =
    if decide (channel c = k) then Some c else JsMap.get k (channelIndex cs).
Proof. by rewrite channelIndex_snoc, JsMap_get_set. Qed.

(** A binding of the map is filed under the channel number it carries. *)
Lemma channelIndex_get_Some cs k c :
  JsMap.get k (channelIndex cs) = Some c → channel c = k ∧ c ∈ cs.
Proof.
  induction cs as [|c' cs IH] using rev_ind; [done|].
  rewrite channelIndex_get_snoc. case_decide; intros; simplify_eq.
  - set_solver.
  - destruct IH; [done|]. set_solver.
Qed.

Lemma channelIndex_keys cs k : k ∈ (channelIndex cs).*1 ↔ k ∈ channel <$> cs.
Proof.
  induction cs as [|c cs IH] using rev_ind; [done|].
  rewrite channelIndex_snoc, JsMap_keys_set, fmap_app. case_decide; set_solver.
Qed.

Lemma channelIndex_NoDup cs : NoDup (channelIndex cs).*1.
Proof. apply JsMap_NoDup_of_entries. Qed.

Lemma channelIndex_elem_of cs k c : (k, c) ∈ channelIndex cs → channel c = k ∧ c ∈ cs.
Proof.
  intros Hin. apply channelIndex_get_Some.
  by apply JsMap_elem_of_get; [apply channelIndex_NoDup|].
Qed.

Lemma channelIndex_values_keys cs :
  channel <$> JsMap.values (channelIndex cs) = (channelIndex cs).*1.
Proof.
  unfold JsMap.values. rewrite <-list_fmap_compose.
  apply Forall_fmap_ext_1, Forall_forall.
  intros [k c] Hin%channelIndex_elem_of. simpl. tauto.
Qed.

Lemma channelIndex_distinct cs :
  NoDup (channel <$> cs) → channelIndex cs = channelEntry <$> cs.
Proof.
  intros Hcs. apply JsMap_of_entries_NoDup.
  by rewrite <-list_fmap_compose.
Qed.

Lemma channelIndex_get_elem_of cs c :
  NoDup (channel <$> cs) → c ∈ cs → JsMap.get (channel c) (channelIndex cs) = Some c.
Proof.
  intros Hcs Hc. apply JsMap_elem_of_get; [apply channelIndex_NoDup|].
  rewrite channelIndex_distinct by done.
  apply list_elem_of_fmap. by exists c.
Qed.

Global Instance byChannelNumber_trans : Transitive byChannelNumber.
Proof. unfold byChannelNumber. intros a b c. lia. Qed.

Global Instance byChannelNumber_total : Total byChannelNumber.
Proof. unfold byChannelNumber. intros a b. lia. Qed.

Lemma sortChannels_sorted m : StronglySorted byChannelNumber (sortChannels m).
Proof. apply StronglySorted_merge_sort; apply _. Qed.

Lemma sortChannels_perm m : sortChannels m ≡ₚ JsMap.values m.
Proof. apply merge_sort_Permutation. Qed.

(** What survives deduplication: one entry per channel number. *)
Lemma uniqueChannels_NoDup cs : NoDup (channel <$> sortChannels (dedupe cs)).
Proof.
  rewrite sortChannels_perm, dedupe_channelIndex, channelIndex_values_keys.
  apply channelIndex_NoDup.
Qed.

Lemma uniqueChannels_elem_of cs c : c ∈ sortChannels (dedupe cs) → c ∈ cs.
Proof.
  rewrite sortChannels_perm, dedupe_channelIndex. unfold JsMap.values.
  intros ([k c'] & -> & Hin)%list_elem_of_fmap.
  by apply channelIndex_elem_of in Hin as [_ ?].
Qed.

Lemma uniqueChannels_keys cs k :
  k ∈ channel <$> sortChannels (dedupe cs) ↔ k ∈ channel <$> cs.
Proof.
  rewrite sortChannels_perm, dedupe_channelIndex, channelIndex_values_keys.
  apply channelIndex_keys.
Qed.

(** A list that is already sorted, with distinct channel numbers, is left as
    it is. *)
Lemma sortChannels_sorted_id cs :
  StronglySorted byChannelNumber cs → NoDup (channel <$> cs) →
  sortChannels (dedupe cs) = cs.
Proof.
  intros Hsorted Hnodup.
  assert (sortChannels (dedupe cs) ≡ₚ cs) as Hperm.
  { rewrite sortChannels_perm, dedupe_channelIndex, channelIndex_distinct by done.
    unfold JsMap.values. rewrite <-list_fmap_compose. by rewrite list_fmap_id. }
  apply (StronglySorted_unique_strong byChannelNumber);
    [|apply sortChannels_sorted|done..].
  unfold byChannelNumber. intros x1 x2 Hx1 Hx2 ??.
  rewrite Hperm in Hx1.
  apply list_elem_of_lookup in Hx1 as [i1 Hi1], Hx2 as [i2 Hi2].
  assert (i1 = i2) as ->; [|congruence].
  apply (NoDup_lookup (channel <$> cs) i1 i2 (channel x1)); [done|..].
  - by rewrite list_lookup_fmap, Hi1.
  - rewrite list_lookup_fmap, Hi2. simpl. f_equal. lia.
Qed.

(** ** The highest observed channel *)

Lemma highestObserved_upper cs c : c ∈ cs → channel c ≤ highestObserved cs.
Proof.
  unfold highestObserved. induction cs as [|c' cs IH]; [set_solver|].
  intros [->|Hin]%elem_of_cons; csimpl; [lia|]. specialize (IH Hin). lia.
Qed.

Lemma highestObserved_attained cs :
  cs ≠ [] → Forall (λ c, 1 ≤ channel c) cs →
  ∃ c, c ∈ cs ∧ channel c = highestObserved cs.
Proof.
  unfold highestObserved. induction cs as [|c' cs IH]; [done|].
  intros _ [Hc' Hcs]%Forall_cons. csimpl.
  destruct cs as [|c'' cs].
  - exists c'. csimpl. split; [set_solver|lia].
  - destruct IH as (c & Hin & Hc); [done..|].
    destruct (decide (channel c' ≤ channel c)).
    + exists c. split; [set_solver|]. rewrite <-Hc. lia.
    + exists c'. split; [set_solver|]. rewrite <-Hc. lia.
Qed.

Lemma highestObserved_nonneg cs : 0 ≤ highestObserved cs.
Proof. unfold highestObserved. induction cs; csimpl; lia. Qed.

Lemma maxChannelOf_upper u c :
  StronglySorted byChannelNumber u → c ∈ u → channel c ≤ maxChannelOf u.
Proof.
  unfold maxChannelOf. intros Hsorted Hc.
  destruct (last u) as [c'|] eqn:Hlast.
  - apply last_Some in Hlast as [u' ->].
    apply elem_of_app in Hc as [Hc|Hc].
    + apply (StronglySorted_app_1_elem_of _ _ _ _ _ Hsorted Hc). set_solver.
    + apply list_elem_of_singleton in Hc as ->. lia.
  - apply last_None in Hlast as ->. set_solver.
Qed.

Lemma maxChannelOf_elem_of u :
  u ≠ [] → ∃ c, c ∈ u ∧ channel c = maxChannelOf u.
Proof.
  unfold maxChannelOf. intros Hu.
  destruct (last u) as [c'|] eqn:Hlast.
  - exists c'. split; [|done]. by apply last_Some_elem_of.
  - by apply last_None in Hlast.
Qed.

(** The [maxChannel] of [normalizeTable] is the highest channel number that
    was parsed. *)
Lemma maxChannelOf_highestObserved cs :
  Forall (λ c, 1 ≤ channel c) cs →
  maxChannelOf (sortChannels (dedupe cs)) = highestObserved cs.
Proof.
  intros Hpos. set (u := sortChannels (dedupe cs)).
  destruct (decide (cs = [])) as [->|Hne]; [done|].
  assert (u ≠ []) as Hu.
  { destruct cs as [|c cs]; [done|].
    assert (channel c ∈ channel <$> u) as Hin
      by (apply uniqueChannels_keys; set_solver).
    intros Hnil. rewrite Hnil in Hin. set_solver. }
  destruct (maxChannelOf_elem_of u Hu) as (c1 & Hc1 & Hmax1).
  destruct (highestObserved_attained cs Hne Hpos) as (c2 & Hc2 & Hmax2).
  apply Z.le_antisymm.
  - rewrite <-Hmax1. apply highestObserved_upper. by apply uniqueChannels_elem_of.
  - rewrite <-Hmax2.
    assert (channel c2 ∈ channel <$> u) as (c3 & -> & Hc3)%list_elem_of_fmap
      by (apply uniqueChannels_keys; set_solver).
    apply maxChannelOf_upper; [apply sortChannels_sorted|done].
Qed.

(** ** Materialising the dense array *)

Lemma materialize_lookup u n (i : nat) :
  Z.of_nat i < n →
  materialize u n !! i =
    Some (default (emptyChannel (Z.of_nat i + 1))
                  (JsMap.get (Z.of_nat i + 1) (channelIndex u))).
Proof.
  intros Hi. unfold materialize. rewrite list_lookup_fmap, lookup_seqZ_lt by done.
  simpl. by rewrite Z.add_0_l.
Qed.

Lemma materialize_length u n : length (materialize u n) = Z.to_nat n.
Proof. unfold materialize. by rewrite length_fmap, length_seqZ. Qed.

Lemma materialize_channel u n : channel <$> materialize u n = seqZ 1 n.
Proof.
  unfold materialize. rewrite <-list_fmap_compose, <-(fmap_add_seqZ 1 0).
  apply Forall_fmap_ext_1, Forall_forall. intros idx _. simpl.
  destruct (JsMap.get (idx + 1) _) as [c|] eqn:Hget; simpl; [|lia].
  apply channelIndex_get_Some in Hget as [-> _]. lia.
Qed.

Lemma materialize_elem_of u n c :
  NoDup (channel <$> u) → c ∈ u → 1 ≤ channel c ≤ n → c ∈ materialize u n.
Proof.
  intros Hu Hc Hrange. apply list_elem_of_lookup.
  exists (Z.to_nat (channel c - 1)).
  rewrite materialize_lookup by lia.
  replace (Z.of_nat (Z.to_nat (channel c - 1)) + 1) with (channel c) by lia.
  by rewrite channelIndex_get_elem_of.
Qed.

(** An entry of the dense array is a surviving entry or an empty channel. *)
Lemma materialize_elem_of_inv u n c :
  c ∈ materialize u n → c ∈ u ∨ c = emptyChannel (channel c).
Proof.
  unfold materialize. intros (idx & -> & _)%list_elem_of_fmap. simpl.
  destruct (JsMap.get (idx + 1) _) as [c|] eqn:Hget; simpl; [|by right].
  apply channelIndex_get_Some in Hget as [_ ?]. by left.
Qed.

Lemma labelled_lookup cs n (i : nat) c :
  channel <$> cs = seqZ 1 n → cs !! i = Some c → channel c = 1 + Z.of_nat i ∧ Z.of_nat i < n.
Proof.
  intros Hlab Hi. apply (lookup_seqZ 1 n i). rewrite <-Hlab, list_lookup_fmap, Hi. done.
Qed.

Lemma labelled_length cs n : channel <$> cs = seqZ 1 n → length cs = Z.to_nat n.
Proof. intros Hlab. by rewrite <-(length_fmap channel), Hlab, length_seqZ. Qed.

Lemma labelled_NoDup cs n : channel <$> cs = seqZ 1 n → NoDup (channel <$> cs).
Proof. intros ->. apply NoDup_seqZ. Qed.

(** In an array labelled [1..n], the map finds channel [k] at index [k - 1]. *)
Lemma labelled_get cs n k :
  channel <$> cs = seqZ 1 n →
  JsMap.get k (channelIndex cs) = if decide (1 ≤ k ≤ n) then cs !! Z.to_nat (k - 1) else None.
Proof.
  intros Hlab. case_decide as Hk.
  - destruct (cs !! Z.to_nat (k - 1)) as [c|] eqn:Hc.
    + destruct (labelled_lookup _ _ _ _ Hlab Hc) as [Hch _].
      replace k with (channel c) by lia.
      apply channelIndex_get_elem_of; [by eapply labelled_NoDup|].
      by eapply list_elem_of_lookup_2.
    + apply lookup_ge_None in Hc. rewrite (labelled_length _ _ Hlab) in Hc. lia.
  - destruct (JsMap.get k (channelIndex cs)) as [c|] eqn:Hget; [|done].
    apply channelIndex_get_Some in Hget as [<- Hin].
    apply (list_elem_of_fmap_2 channel) in Hin. rewrite Hlab in Hin.
    apply elem_of_seqZ in Hin. lia.
Qed.

Lemma materialize_labelled cs n : channel <$> cs = seqZ 1 n → materialize cs n = cs.
Proof.
  intros Hlab. apply list_eq. intros i.
  destruct (decide (Z.of_nat i < n)) as [Hi|Hi].
  - rewrite materialize_lookup, (labelled_get _ n) by done.
    rewrite decide_True by lia.
    replace (Z.to_nat (Z.of_nat i + 1 - 1)) with i by lia.
    destruct (cs !! i) eqn:Hc; [done|].
    apply lookup_ge_None in Hc. rewrite (labelled_length _ _ Hlab) in Hc. lia.
  - rewrite !(proj2 (lookup_ge_None _ _)); [done|..].
    + rewrite (labelled_length _ _ Hlab). lia.
    + rewrite materialize_length. lia.
Qed.

Lemma labelled_sorted cs n :
  channel <$> cs = seqZ 1 n → StronglySorted byChannelNumber cs.
Proof.
  revert n. generalize 1. induction cs as [|c cs IH]; intros m n Hlab.
  - constructor.
  - destruct (decide (0 < n)) as [Hn|Hn].
    + rewrite seqZ_cons in Hlab by done. csimpl in Hlab.
      injection Hlab as Hc Hcs. constructor; [by eapply IH|].
      apply Forall_forall. intros c' Hc'.
      apply (list_elem_of_fmap_2 channel) in Hc'. rewrite Hcs in Hc'.
      apply elem_of_seqZ in Hc'. unfold byChannelNumber. lia.
    + by rewrite seqZ_nil in Hlab by lia.
Qed.

Lemma labelled_maxChannelOf cs n :
  1 ≤ n → channel <$> cs = seqZ 1 n → maxChannelOf cs = n.
Proof.
  intros Hn Hlab. unfold maxChannelOf.
  rewrite last_lookup. destruct (cs !! pred (length cs)) as [c|] eqn:Hc.
  - destruct (labelled_lookup _ _ _ _ Hlab Hc) as [-> _].
    rewrite (labelled_length _ _ Hlab). lia.
  - apply lookup_ge_None in Hc. rewrite (labelled_length _ _ Hlab) in Hc. lia.
Qed.

(** ** What the normaliser returns *)

Lemma clampChannelsCount_range v : 1 ≤ clampChannelsCount v ≤ 50.
Proof. unfold clampChannelsCount, MIN_CHANNELS, MAX_CHANNELS. lia. Qed.

Lemma clampChannelsCount_id n : 1 ≤ n ≤ 50 → clampChannelsCount (FInt n) = n.
Proof. unfold clampChannelsCount, MIN_CHANNELS, MAX_CHANNELS. simpl. lia. Qed.

Lemma toEpoch_finiteStamp v : finiteStamp (toEpoch v).
Proof. by destruct v as [[| |[]| | |]|]. Qed.

Lemma normalizeChannel_Some raw c :
  normalizeChannel raw = Some c → 1 ≤ channel c ∧ finiteTimers c.
Proof.
  unfold normalizeChannel. destruct (isObject raw); [|done]. simpl.
  destruct (getField raw "channel") as [[| |[]| | |]|]; intros; simplify_eq.
  split; [simpl; lia|]. repeat split; apply toEpoch_finiteStamp.
Qed.

Lemma parseChannels_Forall table :
  Forall (λ c, 1 ≤ channel c ∧ finiteTimers c) (parseChannels table).
Proof.
  unfold parseChannels. destruct (getField table "channels") as [[]|]; try done.
  apply Forall_forall. intros c (raw & _ & Hc)%list_elem_of_omap.
  by apply normalizeChannel_Some in Hc.
Qed.

Section normalizer_facts.
Variable Date_now : nat → Z.

Lemma assignId_nonempty table index clk :
  (0 < String.length (assignId Date_now table index clk).1)%nat.
Proof.
  unfold assignId.
  destruct (getField table "id") as [[| | |s| |]|]; simpl; try lia.
  case_decide; simpl; [done|lia].
Qed.

Lemma assignCreatedAt_finite table clk :
  isFiniteNumber (assignCreatedAt Date_now table clk).1.
Proof.
  unfold assignCreatedAt.
  by destruct (getField table "createdAt") as [[| |[]| | |]|].
Qed.

(** What [normalizeTable] returns on a table it accepts. *)
Lemma normalizeTable_accepted table index ws clk name :
  isObject table = true →
  getField table "bossName" = Some (JStr name) →
  ¬ blank name →
  let uniqueChannels := sortChannels (dedupe (parseChannels table)) in
  let maxChannel := maxChannelOf uniqueChannels in
  let count :=
    clampChannelsCount (FInt (Z.max (requestedCountOf table maxChannel) maxChannel)) in
  let tid := assignId Date_now table index clk in
  let created := assignCreatedAt Date_now table tid.2 in
  normalizeTable Date_now table index ws clk =
    (Some {| id := tid.1;
             bossName := name;
             channelsCount := count;
             channels := materialize uniqueChannels count;
             createdAt := created.1 |},
     (ws ++ clampWarning table name) ++ rebuildWarning name uniqueChannels count,
     created.2).
Proof.
  intros Hobj Hname Hblank. simpl. unfold normalizeTable.
  rewrite Hobj, Hname. simpl. rewrite decide_False by done.
  destruct (assignId Date_now table index clk) as [tid clk1]. simpl.
  by destruct (assignCreatedAt Date_now table clk1) as [created clk2].
Qed.

(** A table is returned only for an object with a boss name that is not
    blank. *)
Lemma normalizeTable_Some table index ws clk t ws' clk' :
  normalizeTable Date_now table index ws clk = (Some t, ws', clk') →
  isObject table = true ∧
  getField table "bossName" = Some (JStr (bossName t)) ∧ ¬ blank (bossName t).
Proof.
  unfold normalizeTable. destruct (isObject table); [|done]. simpl.
  destruct (getField table "bossName") as [[| | |name| |]|]; try done.
  case_decide as Hblank; [done|].
  destruct (assignId Date_now table index clk) as [tid clk1].
  destruct (assignCreatedAt Date_now table clk1) as [created clk2].
  intros; simplify_eq. done.
Qed.

Lemma normalizeTable_normalForm table index ws clk t ws' clk' :
  normalizeTable Date_now table index ws clk = (Some t, ws', clk') → normalForm t.
Proof.
  intros Hrun. destruct (normalizeTable_Some _ _ _ _ _ _ _ Hrun) as (Hobj & Hname & Hblank).
  rewrite (normalizeTable_accepted _ index ws clk _ Hobj Hname Hblank) in Hrun.
  simpl in Hrun. injection Hrun as <- _ _.
  unfold normalForm, tableInvariant. simpl.
  pose proof (clampChannelsCount_range
    (FInt (Z.max (requestedCountOf table
                    (maxChannelOf (sortChannels (dedupe (parseChannels table)))))
                 (maxChannelOf (sortChannels (dedupe (parseChannels table))))))).
  split_and!; try done.
  - apply assignId_nonempty.
  - rewrite materialize_length. lia.
  - apply materialize_channel.
  - lia.
  - lia.
  - apply Forall_forall. intros c [Hc| ->]%materialize_elem_of_inv; [|done].
    apply uniqueChannels_elem_of in Hc.
    pose proof (parseChannels_Forall table) as Hall.
    rewrite Forall_forall in Hall. by apply Hall.
  - apply assignCreatedAt_finite.
Qed.
End normalizer_facts.

(** ** Normalising a table that is already in normal form *)

Lemma normalizeChannel_valueOfChannel c :
  1 ≤ channel c → finiteTimers c → normalizeChannel (valueOfChannel c) = Some c.
Proof.
  destruct c as [k ka ea la]. unfold finiteTimers. simpl. intros Hk (Hka & Hea & Hla).
  destruct ka as [[]|], ea as [[]|], la as [[]|]; try done;
    match goal with
    | |- _ = Some ?c =>
        transitivity (Some {| channel := Z.max 1 k;
                              killedAt := killedAt c;
                              earliestRespawnAt := earliestRespawnAt c;
                              latestRespawnAt := latestRespawnAt c |});
        [reflexivity|simpl; by rewrite Z.max_r by lia]
    end.
Qed.

Lemma parseChannels_valueOfTable t :
  Forall (λ c, 1 ≤ channel c) (channels t) → Forall finiteTimers (channels t) →
  parseChannels (valueOfTable t) = channels t.
Proof.
  intros Hpos Hfin. unfold parseChannels.
  change (getField (valueOfTable t) "channels")
    with (Some (JArr (valueOfChannel <$> channels t))).
  induction Hpos as [|c cs Hc Hcs IH]; [done|].
  apply Forall_cons in Hfin as [Hfc Hfcs]. csimpl.
  by rewrite normalizeChannel_valueOfChannel, IH.
Qed.

Lemma labelled_positive cs n :
  channel <$> cs = seqZ 1 n → Forall (λ c, 1 ≤ channel c) cs.
Proof.
  intros Hlab. apply Forall_forall. intros c Hc.
  apply (list_elem_of_fmap_2 channel) in Hc. rewrite Hlab in Hc.
  apply elem_of_seqZ in Hc. lia.
Qed.

Section renormalize.
Variable Date_now : nat → Z.

(** [normalizeTable] returns a table in normal form as it is, pushes no
    warning and does not read the clock. *)
Lemma normalizeTable_normalForm_id t index ws clk :
  normalForm t →
  normalizeTable Date_now (valueOfTable t) index ws clk = (Some t, ws, clk).
Proof.
  intros (Hid & Hblank & (Hlen & Hlab & Hrange) & Hfin & Hcreated).
  rewrite (normalizeTable_accepted Date_now _ index ws clk (bossName t));
    [|done..].
  rewrite parseChannels_valueOfTable by eauto using labelled_positive.
  rewrite sortChannels_sorted_id
    by eauto using labelled_sorted, labelled_NoDup.
  rewrite (labelled_maxChannelOf _ (channelsCount t)) by (done || lia).
  assert (requestedCountOf (valueOfTable t) (channelsCount t) = channelsCount t)
    as -> by done.
  rewrite Z.max_id, clampChannelsCount_id by done.
  rewrite materialize_labelled by done.
  assert (clampWarning (valueOfTable t) (bossName t) = []) as ->.
  { unfold clampWarning.
    change (getField (valueOfTable t) "channelsCount")
      with (Some (JNum (Finite (FInt (channelsCount t))))).
    simpl. rewrite clampChannelsCount_id by done. by rewrite decide_False by auto. }
  assert (rebuildWarning (bossName t) (channels t) (channelsCount t) = []) as ->.
  { unfold rebuildWarning. by rewrite decide_False by auto. }
  assert (assignId Date_now (valueOfTable t) index clk = (id t, clk)) as ->.
  { unfold assignId.
    change (getField (valueOfTable t) "id") with (Some (JStr (id t))).
    cbv beta iota. by rewrite decide_True. }
  cbn [fst snd].
  assert (assignCreatedAt Date_now (valueOfTable t) clk = (createdAt t, clk)) as ->.
  { unfold assignCreatedAt.
    change (getField (valueOfTable t) "createdAt") with (Some (JNum (createdAt t))).
    by destruct (createdAt t). }
  rewrite !app_nil_r. by destruct t.
Qed.

Lemma normalizeTables_normalForm_id ts index ws clk :
  Forall normalForm ts →
  normalizeTables Date_now (valueOfTable <$> ts) index ws clk = (ts, ws, clk).
Proof.
  intros Hts. revert index. induction Hts as [|t ts Ht Hts IH]; intros index; [done|].
  csimpl. by rewrite normalizeTable_normalForm_id, IH.
Qed.
End renormalize.

(** ** The channel loop of the merge *)

Lemma cloneChannel_id c : cloneChannel c = c.
Proof. by destruct c. Qed.

Lemma cloneTable_id t : cloneTable t = t.
Proof.
  destruct t as [i b n cs created]. unfold cloneTable. simpl. f_equal.
  rewrite <-(list_fmap_id cs) at 2. apply Forall_fmap_ext_1, Forall_forall.
  intros c _. apply cloneChannel_id.
Qed.

Lemma cloneTables_id (ts : list BossTable) : cloneTable <$> ts = ts.
Proof.
  rewrite <-(list_fmap_id ts) at 2. apply Forall_fmap_ext_1, Forall_forall.
  intros t _. apply cloneTable_id.
Qed.

Lemma mergeChannel_unfold existing mb tb nc cf ch k :
  mergeChannel existing mb tb (nc, cf, ch) k =
    let mine := channelAt mb k in
    let theirs := channelAt tb k in
    if inConflict mine theirs then
      (nc ++ [mine],
       cf ++ [conflictAt existing mine theirs k (length cf)],
       <[MergeConflict.id (conflictAt existing mine theirs k (length cf)) := mine_choice]> ch)
    else (nc ++ [mergedChannel mine theirs k], cf, ch).
Proof.
  unfold mergeChannel, inConflict, mergedChannel, conflictAt. fold (channelAt mb k).
  fold (channelAt tb k). simpl. rewrite !cloneChannel_id.
  destruct (hasTimer (channelAt mb k)), (hasTimer (channelAt tb k)); simpl; try done.
  destruct (decide (timerSignature _ = _)) as [Heq|Hne].
  - by rewrite bool_decide_eq_false_2 by auto.
  - by rewrite bool_decide_eq_true_2.
Qed.

Lemma channelAt_channel cs k : channel (channelAt (channelIndex cs) k) = k.
Proof.
  unfold channelAt. destruct (JsMap.get k _) as [c|] eqn:Hget; [|done].
  by apply channelIndex_get_Some in Hget as [? _].
Qed.

Lemma channelAt_labelled cs n k :
  channel <$> cs = seqZ 1 n →
  channelAt (channelIndex cs) k =
    if decide (1 ≤ k ≤ n) then default (emptyChannel k) (cs !! Z.to_nat (k - 1))
    else emptyChannel k.
Proof. intros Hlab. unfold channelAt. rewrite (labelled_get _ n) by done. by case_decide. Qed.

Lemma mergedChannel_channel mine theirs k :
  channel mine = k → channel theirs = k → channel (mergedChannel mine theirs k) = k.
Proof. unfold mergedChannel. by repeat case_match. Qed.

(** While no channel is in conflict the loop only pushes channels. *)
Lemma foldl_mergeChannel_quiet existing mb tb ks nc cf ch :
  Forall (λ k, inConflict (channelAt mb k) (channelAt tb k) = false) ks →
  foldl (mergeChannel existing mb tb) (nc, cf, ch) ks =
    (nc ++ ((λ k, mergedChannel (channelAt mb k) (channelAt tb k) k) <$> ks), cf, ch).
Proof.
  intros Hks. revert nc. induction Hks as [|k ks Hk Hks IH]; intros nc.
  - by rewrite app_nil_r.
  - cbn [foldl]. rewrite mergeChannel_unfold. cbv zeta. rewrite Hk, IH.
    by rewrite <-app_assoc.
Qed.

(** What the loop leaves in general: one channel per number, in order, and
    conflicts that are labelled with their channel. *)
Lemma foldl_mergeChannel_shape existing mine theirs ks nc cf ch nc' cf' ch' :
  foldl (mergeChannel existing (channelIndex mine) (channelIndex theirs))
        (nc, cf, ch) ks = (nc', cf', ch') →
  channel <$> nc' = (channel <$> nc) ++ ks ∧
  (Forall conflictLabelled cf → Forall conflictLabelled cf').
Proof.
  revert nc cf ch. induction ks as [|k ks IH]; intros nc cf ch Hrun.
  - simpl in Hrun. simplify_eq. by rewrite app_nil_r.
  - cbn [foldl] in Hrun. rewrite mergeChannel_unfold in Hrun. cbv zeta in Hrun.
    destruct (inConflict _ _); apply IH in Hrun as [Hch Hcf];
      rewrite Hch, fmap_app, <-app_assoc; csimpl.
    + rewrite channelAt_channel. split; [done|]. intros Hall. apply Hcf.
      apply Forall_app. split; [done|]. apply Forall_singleton.
      split; simpl; apply channelAt_channel.
    + by rewrite mergedChannel_channel by apply channelAt_channel.
Qed.

(** ** One imported table *)

Section merge_facts.
Variable generateTableId : nat → string.

Lemma mergeImported_unfold fuel st t :
  mergeImported generateTableId fuel st t =
    match list_find (λ table, bossName table = bossName t) (ms_mergedTables st) with
    | None =>
        '(uniqueId, usedIds, draws) ←
          ensureUniqueId generateTableId fuel (ms_usedIds st) (id t) (ms_draws st);
        Some {| ms_mergedTables := ms_mergedTables st ++ [withId t uniqueId];
                ms_conflicts := ms_conflicts st;
                ms_defaultChoices := ms_defaultChoices st;
                ms_usedIds := usedIds;
                ms_draws := draws |}
    | Some (targetIndex, existing) =>
        Some {| ms_mergedTables :=
                  <[targetIndex := mergedTable existing t (channelLoop st existing t).1.1]>
                    (ms_mergedTables st);
                ms_conflicts := (channelLoop st existing t).1.2;
                ms_defaultChoices := (channelLoop st existing t).2;
                ms_usedIds := ms_usedIds st;
                ms_draws := ms_draws st |}
    end.
Proof.
  unfold mergeImported. destruct (list_find _ _) as [[i e]|]; [|done].
  unfold channelLoop, mergedCountOf, mergedTable.
  by destruct (foldl _ _ _) as [[nc cf] ch].
Qed.

Lemma channelLoop_shape st existing t :
  channel <$> (channelLoop st existing t).1.1 = seqZ 1 (mergedCountOf existing t) ∧
  (Forall conflictLabelled (ms_conflicts st) →
   Forall conflictLabelled (channelLoop st existing t).1.2).
Proof.
  unfold channelLoop.
  destruct (foldl _ _ _) as [[nc cf] ch] eqn:Hrun.
  by apply foldl_mergeChannel_shape in Hrun.
Qed.

Lemma mergedTable_invariant st existing t :
  tableInvariant (mergedTable existing t (channelLoop st existing t).1.1).
Proof.
  destruct (channelLoop_shape st existing t) as [Hch _].
  pose proof (clampChannelsCount_range
    (FInt (Z.max (channelsCount existing) (channelsCount t)))) as Hrange.
  unfold tableInvariant. simpl. split_and!; [|done|apply Hrange..].
  rewrite <-(length_fmap channel), Hch, length_seqZ.
  unfold mergedCountOf. lia.
Qed.

(** The invariant of the data model is kept by each turn of the loop. *)
Lemma mergeImported_invariant fuel st t st' :
  mergeImported generateTableId fuel st t = Some st' →
  Forall tableInvariant (ms_mergedTables st) → tableInvariant t →
  Forall tableInvariant (ms_mergedTables st').
Proof.
  rewrite mergeImported_unfold. intros Hrun Hst Ht.
  destruct (list_find _ _) as [[i e]|] eqn:Hfind.
  - simplify_eq. simpl. apply Forall_insert; [done|]. apply mergedTable_invariant.
  - destruct (ensureUniqueId _ _ _ _ _) as [[[uid used] d]|]; simplify_eq/=.
    apply Forall_app. split; [done|]. by apply Forall_singleton.
Qed.

Lemma mergeImported_conflicts fuel st t st' :
  mergeImported generateTableId fuel st t = Some st' →
  Forall conflictLabelled (ms_conflicts st) →
  Forall conflictLabelled (ms_conflicts st').
Proof.
  rewrite mergeImported_unfold. intros Hrun Hst.
  destruct (list_find _ _) as [[i e]|] eqn:Hfind.
  - simplify_eq. simpl. by apply channelLoop_shape.
  - by destruct (ensureUniqueId _ _ _ _ _) as [[[uid used] d]|]; simplify_eq/=.
Qed.

Lemma mergeAll_invariant fuel st ts st' :
  mergeAll generateTableId fuel st ts = Some st' →
  Forall tableInvariant (ms_mergedTables st) → Forall tableInvariant ts →
  Forall tableInvariant (ms_mergedTables st').
Proof.
  intros Hrun Hst Hts. revert st Hrun Hst.
  induction Hts as [|t ts Ht Hts IH]; intros st Hrun Hst; simplify_eq/=; [done|].
  destruct (mergeImported _ _ _ _) as [st1|] eqn:Hstep; simplify_eq/=.
  eapply IH; [done|]. by eapply mergeImported_invariant.
Qed.

Lemma mergeAll_conflicts fuel st ts st' :
  mergeAll generateTableId fuel st ts = Some st' →
  Forall conflictLabelled (ms_conflicts st) →
  Forall conflictLabelled (ms_conflicts st').
Proof.
  revert st. induction ts as [|t ts IH]; intros st Hrun Hst; simplify_eq/=; [done|].
  destruct (mergeImported _ _ _ _) as [st1|] eqn:Hstep; simplify_eq/=.
  eapply IH; [done|]. by eapply mergeImported_conflicts.
Qed.

(** *** Identifiers *)

Lemma drawUnusedId_Some fuel used d i d' :
  drawUnusedId generateTableId fuel used d = Some (i, d') →
  (i ∉ used) ∧ (d < d' ≤ d + fuel)%nat.
Proof.
  revert d. induction fuel as [|fuel IH]; intros d Hrun; simplify_eq/=.
  case_decide; simplify_eq.
  - apply IH in Hrun. split; [tauto|lia].
  - split; [done|lia].
Qed.

Lemma ensureUniqueId_Some fuel used preferred d i used' d' :
  ensureUniqueId generateTableId fuel used preferred d = Some (i, used', d') →
  (i ∉ used) ∧ used' = {[i]} ∪ used ∧ (d ≤ d' ≤ d + fuel)%nat.
Proof.
  unfold ensureUniqueId. case_decide; intros Hrun; simplify_eq/=.
  - split_and!; [done..|lia|lia].
  - destruct (drawUnusedId _ _ _ _) as [[i' d'']|] eqn:Hdraw; simplify_eq/=.
    apply drawUnusedId_Some in Hdraw. split_and!; [tauto|done|lia|lia].
Qed.

Lemma mergeImported_idsTracked fuel st t st' :
  mergeImported generateTableId fuel st t = Some st' →
  idsTracked st → idsTracked st'.
Proof.
  rewrite mergeImported_unfold. intros Hrun [Hnodup Hused].
  destruct (list_find _ _) as [[i e]|] eqn:Hfind.
  - simplify_eq. unfold idsTracked. simpl.
    apply list_find_Some in Hfind as (Hi & _ & _).
    rewrite list_fmap_insert. simpl.
    rewrite (list_insert_id (id <$> ms_mergedTables st))
      by (by rewrite list_lookup_fmap, Hi).
    done.
  - destruct (ensureUniqueId _ _ _ _ _) as [[[uid used] d]|] eqn:Hid; simplify_eq/=.
    apply ensureUniqueId_Some in Hid as (Hfresh & -> & _).
    unfold idsTracked. simpl. rewrite fmap_app. simpl. split.
    + apply NoDup_app. split_and!; [done| |apply NoDup_singleton].
      intros i Hi ->%list_elem_of_singleton. by apply Hfresh, Hused.
    + intros i [Hi| ->%list_elem_of_singleton]%elem_of_app; [|set_solver].
      apply elem_of_union_r. by apply Hused.
Qed.

Lemma mergeAll_idsTracked fuel st ts st' :
  mergeAll generateTableId fuel st ts = Some st' → idsTracked st → idsTracked st'.
Proof.
  revert st. induction ts as [|t ts IH]; intros st Hrun Hst; simplify_eq/=; [done|].
  destruct (mergeImported _ _ _ _) as [st1|] eqn:Hstep; simplify_eq/=.
  eapply IH; [done|]. by eapply mergeImported_idsTracked.
Qed.
(** *** Termination of the identifier loop *)

Lemma drawUnusedId_total fuel used d i :
  (i < fuel)%nat → generateTableId (d + i)%nat ∉ used →
  is_Some (drawUnusedId generateTableId fuel used d).
Proof.
  revert d i. induction fuel as [|fuel IH]; intros d i Hi Hfresh; [lia|].
  simpl. case_decide as Hused; [|by eexists].
  destruct i as [|i]; [by rewrite Nat.add_0_r in Hfresh|].
  apply (IH (S d) i); [lia|]. by replace (S d + i)%nat with (d + S i)%nat by lia.
Qed.

(** Among more distinct identifiers than the set holds, one is not in the
    set. *)
Lemma unused_draw_exists fuel (used : gset string) d :
  NoDup (generateTableId <$> seq d fuel) → (size used < fuel)%nat →
  ∃ i, (i < fuel)%nat ∧ generateTableId (d + i)%nat ∉ used.
Proof.
  intros Hnodup Hsize.
  destruct (decide (Exists (λ x, x ∉ used) (generateTableId <$> seq d fuel)))
    as [Hex|Hall].
  - apply Exists_exists in Hex as (x & Hx & Hfresh).
    apply list_elem_of_fmap in Hx as (j & -> & Hj).
    apply elem_of_seq in Hj. exists (j - d)%nat. split; [lia|].
    by replace (d + (j - d))%nat with j by lia.
  - apply not_Exists_Forall in Hall; [|intros x; apply _].
    assert (list_to_set (generateTableId <$> seq d fuel) ⊆ used) as Hsub.
    { intros x Hx%elem_of_list_to_set. rewrite Forall_forall in Hall.
      specialize (Hall x Hx). simpl in Hall. by apply dec_stable. }
    apply subseteq_size in Hsub.
    rewrite size_list_to_set, length_fmap, length_seq in Hsub by done. lia.
Qed.

Lemma ensureUniqueId_total fuel used preferred d :
  NoDup (generateTableId <$> seq d fuel) → (size used < fuel)%nat →
  is_Some (ensureUniqueId generateTableId fuel used preferred d).
Proof.
  intros Hnodup Hsize. unfold ensureUniqueId. case_decide; [by eexists|].
  destruct (unused_draw_exists fuel used d Hnodup Hsize) as (i & Hi & Hfresh).
  destruct (drawUnusedId_total fuel used d i Hi Hfresh) as [[i' d'] ->].
  by eexists.
Qed.

Lemma mergeImported_total fuel st t :
  NoDup (generateTableId <$> seq (ms_draws st) fuel) →
  (size (ms_usedIds st) < fuel)%nat →
  ∃ st', mergeImported generateTableId fuel st t = Some st' ∧
         (size (ms_usedIds st') ≤ S (size (ms_usedIds st)))%nat ∧
         (ms_draws st ≤ ms_draws st' ≤ ms_draws st + fuel)%nat.
Proof.
  intros Hnodup Hsize. rewrite mergeImported_unfold.
  destruct (list_find _ _) as [[i e]|].
  - eexists. split; [done|]. simpl. lia.
  - destruct (ensureUniqueId_total fuel (ms_usedIds st) (id t) (ms_draws st))
      as [[[uid used] d] Hid]; [done..|].
    rewrite Hid. simpl. eexists. split; [done|]. simpl.
    apply ensureUniqueId_Some in Hid as (Hfresh & -> & Hd).
    split; [|lia]. rewrite size_union by set_solver. rewrite size_singleton. lia.
Qed.

Lemma NoDup_draws_window d len d' len' :
  (d ≤ d')%nat → (d' + len' ≤ d + len)%nat →
  NoDup (generateTableId <$> seq d len) → NoDup (generateTableId <$> seq d' len').
Proof.
  intros Hlo Hhi.
  replace len with ((d' - d) + (len' + (d + len - (d' + len'))))%nat by lia.
  rewrite !seq_app, !fmap_app.
  intros (_ & _ & Hrest)%NoDup_app. apply NoDup_app in Hrest as (Hmid & _ & _).
  by replace (d + (d' - d))%nat with d' in Hmid by lia.
Qed.

(** The loop over the imported tables ends when the generator does not
    repeat itself and [fuel] exceeds the number of tables at hand. *)
Lemma mergeAll_total fuel st ts :
  (size (ms_usedIds st) + length ts ≤ fuel)%nat →
  NoDup (generateTableId <$> seq (ms_draws st) (length ts * fuel)) →
  is_Some (mergeAll generateTableId fuel st ts).
Proof.
  revert st. induction ts as [|t ts IH]; intros st Hsize Hnodup; [by eexists|].
  simpl in *.
  destruct (mergeImported_total fuel st t) as (st1 & -> & Hused & Hdraws).
  { eapply NoDup_draws_window; [| |done]; lia. }
  { lia. }
  simpl. apply IH; [lia|].
  eapply NoDup_draws_window; [| |done]; lia.
Qed.
End merge_facts.

(** ** Merging a table into itself *)

Lemma hasTimer_false c : hasTimer c = false → c = emptyChannel (channel c).
Proof. by destruct c as [k [?|] [?|] [?|]]. Qed.

Lemma inConflict_same c : inConflict c c = false.
Proof.
  unfold inConflict. rewrite bool_decide_eq_false_2 by auto.
  by rewrite andb_false_r.
Qed.

Lemma mergedChannel_same c : mergedChannel c c (channel c) = c.
Proof.
  unfold mergedChannel. destruct (hasTimer c) eqn:Hc; [done|].
  by rewrite <-hasTimer_false.
Qed.

Lemma mergedCountOf_same t : tableInvariant t → mergedCountOf t t = channelsCount t.
Proof.
  intros (_ & _ & Hrange). unfold mergedCountOf.
  by rewrite Z.max_id, clampChannelsCount_id.
Qed.

Lemma channelLoop_self st t :
  tableInvariant t →
  channelLoop st t t = (channels t, ms_conflicts st, ms_defaultChoices st).
Proof.
  intros Ht. pose proof Ht as (Hlen & Hlab & Hrange). unfold channelLoop.
  rewrite mergedCountOf_same by done.
  rewrite foldl_mergeChannel_quiet
    by (apply Forall_forall; intros; apply inConflict_same).
  simpl. do 2 f_equal. apply list_eq. intros i.
  rewrite list_lookup_fmap.
  destruct (decide (Z.of_nat i < channelsCount t)) as [Hi|Hi].
  - rewrite lookup_seqZ_lt by done. simpl.
    rewrite (channelAt_labelled _ (channelsCount t)) by done.
    rewrite decide_True by lia.
    replace (Z.to_nat (1 + Z.of_nat i - 1)) with i by lia.
    destruct (channels t !! i) as [c|] eqn:Hc.
    + simpl. destruct (labelled_lookup _ _ _ _ Hlab Hc) as [<- _].
      by rewrite mergedChannel_same.
    + apply lookup_ge_None in Hc. lia.
  - rewrite lookup_seqZ_ge by lia. simpl. symmetry. apply lookup_ge_None. lia.
Qed.

Lemma list_find_bossName (ts : list BossTable) i t :
  NoDup (bossName <$> ts) → ts !! i = Some t →
  list_find (λ table, bossName table = bossName t) ts = Some (i, t).
Proof.
  intros Hnodup Hi. apply list_find_Some. split_and!; [done..|].
  intros j t' Hj Hlt Heq.
  assert (i = j); [|lia].
  apply (NoDup_lookup (bossName <$> ts) i j (bossName t)); [done|..];
    rewrite list_lookup_fmap; [by rewrite Hi|by rewrite Hj, <-Heq].
Qed.

Section self_merge.
Variable generateTableId : nat → string.

Lemma mergeImported_self fuel st t :
  NoDup (bossName <$> ms_mergedTables st) → t ∈ ms_mergedTables st →
  tableInvariant t →
  mergeImported generateTableId fuel st t = Some st.
Proof.
  intros Hnames [i Hi]%list_elem_of_lookup Ht.
  rewrite mergeImported_unfold, (list_find_bossName _ i t) by done.
  rewrite channelLoop_self by done. simpl.
  assert (mergedTable t t (channels t) = t) as ->.
  { unfold mergedTable. rewrite mergedCountOf_same by done. by destruct t. }
  rewrite list_insert_id by done. by destruct st.
Qed.

Lemma mergeAll_self fuel st ts :
  NoDup (bossName <$> ms_mergedTables st) →
  Forall (λ t, t ∈ ms_mergedTables st ∧ tableInvariant t) ts →
  mergeAll generateTableId fuel st ts = Some st.
Proof.
  intros Hnames Hts. induction Hts as [|t ts [Hin Ht] Hts IH]; [done|].
  simpl. by rewrite mergeImported_self.
Qed.
End self_merge.

(** ** Boards with one timer *)

Lemma seqZ_around_3 n : 3 ≤ n → seqZ 1 n = [1; 2] ++ [3] ++ seqZ 4 (n - 3).
Proof.
  intros Hn. replace n with (3 + (n - 3)) at 1 by lia.
  by rewrite seqZ_app by lia.
Qed.

Lemma board_unfold n stamp :
  3 ≤ n →
  board n stamp =
    [emptyChannel 1; emptyChannel 2; timed 3 stamp] ++ (emptyChannel <$> seqZ 4 (n - 3)).
Proof.
  intros Hn. unfold board. rewrite seqZ_around_3, !fmap_app by done. simpl.
  do 3 f_equal. apply Forall_fmap_ext_1, Forall_seqZ. intros k Hk.
  by rewrite decide_False by lia.
Qed.

Lemma board_channel n stamp : channel <$> board n stamp = seqZ 1 n.
Proof.
  unfold board. rewrite <-list_fmap_compose.
  etrans; [|apply list_fmap_id].
  apply Forall_fmap_ext_1, Forall_forall. intros k _. simpl. by case_decide; subst.
Qed.

Lemma board_invariant i name n stamp created :
  1 ≤ n ≤ 50 →
  tableInvariant {| id := i; bossName := name; channelsCount := n;
                    channels := board n stamp; createdAt := created |}.
Proof.
  intros Hn. unfold tableInvariant. simpl.
  rewrite board_channel. split_and!; [|done|lia..].
  rewrite <-(length_fmap channel), board_channel, length_seqZ. lia.
Qed.

Lemma channelAt_board n stamp k :
  3 ≤ n →
  channelAt (channelIndex (board n stamp)) k =
    if decide (k = 3) then timed 3 stamp else emptyChannel k.
Proof.
  intros Hn. rewrite (channelAt_labelled _ n) by apply board_channel.
  destruct (decide (1 ≤ k ≤ n)) as [Hk|Hk].
  - unfold board. rewrite list_lookup_fmap, lookup_seqZ_lt by lia. simpl.
    replace (1 + Z.of_nat (Z.to_nat (k - 1))) with k by lia. done.
  - by rewrite decide_False by lia.
Qed.

(** ** The conflict resolver keeps the invariant *)

Lemma applyChoice_invariant choices tableIndexById result conflict :
  Forall tableInvariant result → conflictLabelled conflict →
  Forall tableInvariant (applyChoice choices tableIndexById result conflict).
Proof.
  intros Hresult [Hmine Htheirs]. unfold applyChoice.
  destruct (JsMap.get _ _) as [idx|]; [|done].
  destruct (result !! idx) as [table|] eqn:Htable; [|done].
  destruct (list_find _ _) as [[channelIdx c]|] eqn:Hfind; [|done].
  apply Forall_insert; [done|].
  apply list_find_Some in Hfind as (Hc & Hnum & _).
  rewrite Forall_forall in Hresult.
  destruct (Hresult table) as (Hlen & Hlab & Hrange);
    [by eapply list_elem_of_lookup_2|].
  unfold tableInvariant. simpl. rewrite length_insert, list_fmap_insert.
  split_and!; [done| |lia..].
  rewrite list_insert_id; [done|].
  rewrite list_lookup_fmap, Hc. simpl. f_equal.
  destruct (default mine_choice _); simpl; congruence.
Qed.

Lemma applyMergeChoices_invariant preview choices :
  Forall tableInvariant (mergedTables preview) →
  Forall conflictLabelled (conflicts preview) →
  Forall tableInvariant (applyMergeChoices preview choices).
Proof.
  unfold applyMergeChoices. rewrite cloneTables_id.
  generalize (JsMap.of_entries (imap (λ index table, (id table, index))
                                     (mergedTables preview))).
  intros tableIndexById. generalize (mergedTables preview).
  induction (conflicts preview) as [|conflict cs IH]; intros result Hresult Hcs; [done|].
  apply Forall_cons in Hcs as [Hc Hcs]. simpl.
  apply IH; [|done]. by apply applyChoice_invariant.
Qed.

(** ** The preview as a run of the loop *)

Lemma buildMergePreview_unfold generateTableId fuel draws existingTables importedTables :
  buildMergePreview generateTableId fuel draws existingTables importedTables =
    previewOf <$>
      mergeAll generateTableId fuel (initialState existingTables draws) importedTables.
Proof. unfold buildMergePreview. by rewrite !cloneTables_id. Qed.

Lemma initialState_idsTracked existingTables draws :
  NoDup (id <$> existingTables) → idsTracked (initialState existingTables draws).
Proof. intros Hnodup. split; [done|]. simpl. set_solver. Qed.

Lemma size_list_to_set_le (l : list string) :
  (size (list_to_set l : gset string) ≤ length l)%nat.
Proof.
  induction l as [|i l IH]; [by rewrite list_to_set_nil, size_empty|].
  rewrite list_to_set_cons, size_union_alt, size_singleton. simpl.
  assert (size (list_to_set l ∖ {[i]} : gset string) ≤ size (list_to_set l : gset string))%nat
    by (apply subseteq_size; set_solver).
  lia.
Qed.

Lemma initialState_size existingTables draws :
  (size (ms_usedIds (initialState existingTables draws)) ≤ length existingTables)%nat.
Proof.
  simpl. rewrite <-(length_fmap id existingTables). apply size_list_to_set_le.
Qed.

(** The preview exists when the generator does not repeat itself within the
    draws the loops can make. *)
Lemma buildMergePreview_total generateTableId fuel draws existingTables importedTables :
  (length existingTables + length importedTables ≤ fuel)%nat →
  NoDup (generateTableId <$> seq draws (length importedTables * fuel)) →
  is_Some (buildMergePreview generateTableId fuel draws existingTables importedTables).
Proof.
  intros Hfuel Hnodup. rewrite buildMergePreview_unfold.
  destruct (mergeAll_total generateTableId fuel (initialState existingTables draws)
              importedTables) as [st ->]; [|done|by eexists].
  pose proof (initialState_size existingTables draws). lia.
Qed.

(** ** Well-formed tables *)

Lemma normalForm_wellFormedTable t : normalForm t → wellFormedTable t.
Proof.
  intros (Hid & Hblank & Hinv & Hfin & Hcreated). split_and!; try done.
  - intros Heq. rewrite Heq in Hid. simpl in Hid. lia.
  - intros Heq. apply Hblank. by rewrite Heq.
Qed.

Lemma wellFormedTable_normalForm t : wellFormedTable t → ¬ blank (bossName t) → normalForm t.
Proof.
  intros (Hid & _ & Hinv & Hfin & Hcreated) Hblank. split_and!; try done.
  destruct (id t); [done|simpl; lia].
Qed.

(** ** The preview of a collection merged into itself *)

Lemma buildMergePreview_self generateTableId fuel draws (L : list BossTable) :
  Forall tableInvariant L → NoDup (bossName <$> L) →
  buildMergePreview generateTableId fuel draws L L =
    Some {| mergedTables := L; conflicts := []; defaultChoices := ∅ |}.
Proof.
  intros Hinv Hnames. rewrite buildMergePreview_unfold, mergeAll_self; [done..|].
  simpl. apply Forall_forall. intros t Ht. split; [done|].
  rewrite Forall_forall in Hinv. by apply Hinv.
Qed.

(** ** A single conflict *)

(** A run of the loop with a single conflict, at [k0]. *)
Lemma foldl_mergeChannel_one_conflict existing mb tb ks1 k0 ks2 nc cf ch :
  Forall (λ k, inConflict (channelAt mb k) (channelAt tb k) = false) ks1 →
  inConflict (channelAt mb k0) (channelAt tb k0) = true →
  Forall (λ k, inConflict (channelAt mb k) (channelAt tb k) = false) ks2 →
  foldl (mergeChannel existing mb tb) (nc, cf, ch) (ks1 ++ [k0] ++ ks2) =
    (nc ++ ((λ k, mergedChannel (channelAt mb k) (channelAt tb k) k) <$> ks1)
        ++ [channelAt mb k0]
        ++ ((λ k, mergedChannel (channelAt mb k) (channelAt tb k) k) <$> ks2),
     cf ++ [conflictAt existing (channelAt mb k0) (channelAt tb k0) k0 (length cf)],
     <[MergeConflict.id
         (conflictAt existing (channelAt mb k0) (channelAt tb k0) k0 (length cf))
       := mine_choice]> ch).
Proof.
  intros Hks1 Hk0 Hks2.
  rewrite foldl_app, foldl_mergeChannel_quiet by done.
  cbn [app foldl]. rewrite mergeChannel_unfold. cbv zeta. rewrite Hk0.
  rewrite foldl_mergeChannel_quiet by done.
  by rewrite <-!app_assoc.
Qed.

Lemma channelLoop_boards st i i' name n n' created created' :
  3 ≤ n ≤ 50 → 3 ≤ n' ≤ 50 →
  channelLoop st (boardTable i name n 100 created) (boardTable i' name n' 200 created') =
    (board (Z.max n n') 100,
     ms_conflicts st ++
       [conflictAt (boardTable i name n 100 created) (timed 3 100) (timed 3 200) 3
                   (length (ms_conflicts st))],
     <[i +:+ ":3:" +:+ pretty (length (ms_conflicts st)) := mine_choice]>
       (ms_defaultChoices st)).
Proof.
  intros Hn Hn'. unfold channelLoop, mergedCountOf. simpl.
  rewrite clampChannelsCount_id by lia.
  rewrite (seqZ_around_3 (Z.max n n')) by lia.
  assert (∀ k, k ≠ 3 →
    inConflict (channelAt (channelIndex (board n 100)) k)
               (channelAt (channelIndex (board n' 200)) k) = false) as Hquiet.
  { intros k Hk. rewrite !channelAt_board by lia. by rewrite !decide_False by done. }
  assert (∀ k, k ≠ 3 →
    mergedChannel (channelAt (channelIndex (board n 100)) k)
                  (channelAt (channelIndex (board n' 200)) k) k = emptyChannel k) as Hempty.
  { intros k Hk. rewrite !channelAt_board by lia. by rewrite !decide_False by done. }
  rewrite foldl_mergeChannel_one_conflict.
  - rewrite !(channelAt_board _ _ 3) by lia. rewrite !decide_True by done.
    f_equal. f_equal.
    rewrite (board_unfold (Z.max n n')) by lia. cbn [app fmap list_fmap].
    rewrite !Hempty by lia. do 3 f_equal.
    apply Forall_fmap_ext_1, Forall_seqZ. intros k Hk. apply Hempty. lia.
  - repeat constructor; apply Hquiet; lia.
  - by rewrite !channelAt_board by lia.
  - apply Forall_seqZ. intros k Hk. apply Hquiet. lia.
Qed.

Lemma buildMergePreview_boards generateTableId fuel draws i i' name n n' created created' :
  3 ≤ n ≤ 50 → 3 ≤ n' ≤ 50 →
  buildMergePreview generateTableId fuel draws
      [boardTable i name n 100 created] [boardTable i' name n' 200 created'] =
    Some {| mergedTables := [boardTable i name (Z.max n n') 100 created];
            conflicts :=
              [MergeConflict.mk (i +:+ ":3:0") name i 3 (timed 3 100) (timed 3 200)];
            defaultChoices := {[i +:+ ":3:0" := mine_choice]} |}.
Proof.
  intros Hn Hn'.
  rewrite buildMergePreview_unfold. cbn [mergeAll].
  rewrite mergeImported_unfold. cbn [initialState ms_mergedTables list_find].
  rewrite decide_True by done. cbn [fmap option_fmap option_map prod_map fst snd].
  rewrite channelLoop_boards by done.
  cbn [mbind option_bind fmap option_fmap option_map previewOf ms_mergedTables
       ms_conflicts ms_defaultChoices initialState fst snd length app].
  unfold mergedTable, mergedCountOf. cbn [channelsCount boardTable].
  rewrite clampChannelsCount_id by lia. rewrite insert_empty. reflexivity.
Qed.

Lemma applyMergeChoices_boards i name m created :
  3 ≤ m →
  applyMergeChoices
      {| mergedTables := [boardTable i name m 100 created];
         conflicts :=
           [MergeConflict.mk (i +:+ ":3:0") name i 3 (timed 3 100) (timed 3 200)];
         defaultChoices := {[i +:+ ":3:0" := mine_choice]} |}
      {[i +:+ ":3:0" := theirs_choice]} =
    [boardTable i name m 200 created].
Proof.
  intros Hm. unfold applyMergeChoices. rewrite cloneTables_id.
  cbn [mergedTables conflicts foldl]. unfold applyChoice.
  cbn [MergeConflict.id MergeConflict.tableId MergeConflict.channel
       MergeConflict.theirs MergeConflict.mine].
  rewrite lookup_singleton_eq. cbn [default].
  change (JsMap.of_entries _) with (JsMap.set i 0%nat ([] : list (string * nat))).
  cbn [JsMap.set JsMap.get]. rewrite decide_True by done.
  cbn [lookup list_lookup channels boardTable].
  rewrite (board_unfold _ 100) by lia.
  cbn [app list_find fmap option_fmap option_map channel emptyChannel timed].
  rewrite cloneChannel_id. unfold boardTable. cbn.
  rewrite (board_unfold _ 200) by lia. done.
Qed.

(** ** The last entry seen wins *)

Lemma lastSeen_snoc k cs c :
  lastSeen k (cs ++ [c]) = if decide (channel c = k) then Some c else lastSeen k cs.
Proof.
  induction cs as [|c' cs IH]; simpl; [by case_decide|].
  rewrite IH. by case_decide.
Qed.

Lemma channelIndex_get_lastSeen cs k : JsMap.get k (channelIndex cs) = lastSeen k cs.
Proof.
  induction cs as [|c cs IH] using rev_ind; [done|].
  by rewrite channelIndex_get_snoc, lastSeen_snoc, IH.
Qed.

(** Step 3 keeps, for each channel number, the entry seen last. *)
Lemma uniqueChannels_lastSeen cs c :
  c ∈ sortChannels (dedupe cs) ↔ lastSeen (channel c) cs = Some c.
Proof.
  rewrite sortChannels_perm, dedupe_channelIndex, <-channelIndex_get_lastSeen.
  unfold JsMap.values. split.
  - intros ([k c'] & -> & Hin)%list_elem_of_fmap. simpl.
    destruct (channelIndex_elem_of _ _ _ Hin) as [-> _].
    by apply JsMap_elem_of_get; [apply channelIndex_NoDup|].
  - intros Hget%JsMap_get_Some_elem_of.
    apply list_elem_of_fmap. by exists (channel c, c).
Qed.

(** ** A count out of range *)

Lemma clampChannelsCount_outside v :
  finite_ltZ v 1 ∨ finite_gtZ v 50 → FInt (clampChannelsCount v) ≠ v.
Proof.
  unfold clampChannelsCount, MIN_CHANNELS, MAX_CHANNELS.
  destruct v as [z|fl r]; simpl; [|done]. intros Hout Heq. simplify_eq. lia.
Qed.

(** ** The warnings of the normaliser *)

Section warnings_facts.
Variable Date_now : nat → Z.

(** [normalizeTable] only pushes warnings, none of them about the timezone. *)
Lemma normalizeTable_warnings table index ws clk :
  ∃ extra, (normalizeTable Date_now table index ws clk).1.2 = ws ++ extra ∧
           Forall (λ w, ¬ isTimezoneMismatch w) extra.
Proof.
  assert (∀ w, ¬ isTimezoneMismatch w →
            ∃ extra, ws ++ [w] = ws ++ extra ∧
                     Forall (λ w, ¬ isTimezoneMismatch w) extra) as Hone.
  { intros w Hw. exists [w]. split; [reflexivity|]. by apply Forall_singleton. }
  unfold normalizeTable. destruct (isObject table); simpl; [|apply Hone; by intros []].
  destruct (getField table "bossName") as [[| | |name| |]|];
    try (apply Hone; by intros []).
  case_decide; [apply Hone; by intros []|].
  destruct (assignId _ _ _ _) as [tid clk1].
  destruct (assignCreatedAt _ _ _) as [created clk2]. simpl.
  eexists. split; [symmetry; apply app_assoc|].
  apply Forall_app. split.
  - unfold clampWarning. repeat case_match; repeat constructor; by intros [].
  - unfold rebuildWarning. case_decide; repeat constructor; by intros [].
Qed.

Lemma normalizeTables_warnings rawTables index ws clk :
  ∃ extra, (normalizeTables Date_now rawTables index ws clk).1.2 = ws ++ extra ∧
           Forall (λ w, ¬ isTimezoneMismatch w) extra.
Proof.
  revert index ws clk. induction rawTables as [|table rest IH]; intros index ws clk.
  - exists []. by rewrite app_nil_r.
  - simpl. destruct (normalizeTable_warnings table index ws clk)
      as (extra1 & Hextra1 & Hall1).
    destruct (normalizeTable _ _ _ _ _) as [[t ws1] clk1]. simpl in Hextra1. subst ws1.
    destruct (IH (S index) (ws ++ extra1) clk1) as (extra2 & Hextra2 & Hall2).
    destruct (normalizeTables _ _ _ _ _) as [[ts ws2] clk2]. simpl in *. subst ws2.
    exists (extra1 ++ extra2). split; [by rewrite app_assoc|]. by apply Forall_app.
Qed.
End warnings_facts.

(** ** The envelope checks *)

Lemma strictEqNumber_true value k :
  strictEqNumber value k = true ↔ value = Some (JNum (Finite (FInt k))).
Proof.
  unfold strictEqNumber. split.
  - destruct value as [[| |[[]| | |]| | |]|]; try done.
    by intros ->%bool_decide_eq_true.
  - intros ->. by apply bool_decide_eq_true.
Qed.

Lemma strictEqString_true value s :
  strictEqString value s = true ↔ value = Some (JStr s).
Proof.
  unfold strictEqString. split.
  - destruct value as [[| | |s'| |]|]; try done.
    by intros ->%bool_decide_eq_true.
  - intros ->. by apply bool_decide_eq_true.
Qed.

Section envelope_facts.
Variable rt : runtime.
Variable APP_TIME_ZONE : string.
Variable Date_now : nat → Z.

Lemma importState_parsed input clk parsed :
  parseEnvelope rt input = inr parsed →
  importState rt APP_TIME_ZONE Date_now input clk =
    importParsed APP_TIME_ZONE Date_now parsed clk.
Proof. unfold importState. by intros ->. Qed.

(** What [importState] returns once the envelope is accepted. *)
Lemma importParsed_accepted parsed clk rawTables :
  isObject parsed = true →
  getField parsed "version" = Some (JNum (Finite (FInt 1))) →
  getField parsed "tables" = Some (JArr rawTables) →
  let mismatch :=
    if negb (strictEqString (getField parsed "timezone") APP_TIME_ZONE)
    then [TimezoneMismatch (getField parsed "timezone") APP_TIME_ZONE] else [] in
  let run := normalizeTables Date_now rawTables 0 mismatch clk in
  ∃ r, importParsed APP_TIME_ZONE Date_now parsed clk = inr r ∧
       warnings r = run.1.2 ∧
       tables (payload r) = run.1.1 ∧
       timezone (payload r) =
         match getField parsed "timezone" with
         | Some (JStr s) => s
         | _ => APP_TIME_ZONE
         end.
Proof.
  intros Hobj Hversion Htables. simpl. unfold importParsed.
  rewrite Hobj, Htables. simpl.
  rewrite (proj2 (strictEqNumber_true _ BACKUP_VERSION)) by done. simpl.
  destruct (normalizeTables _ _ _ _ _) as [[ts ws] clk1]. by eexists.
Qed.
End envelope_facts.

(** ** Export then import *)

Lemma noWhiteSpace_BACKUP_PREFIX : noWhiteSpace BACKUP_PREFIX.
Proof. apply (bool_decide_unpack _). vm_compute. exact I. Qed.

Lemma noWhiteSpace_BACKUP_PREFIX_GZ : noWhiteSpace BACKUP_PREFIX_GZ.
Proof. apply (bool_decide_unpack _). vm_compute. exact I. Qed.

Section roundtrip.
Variable rt : runtime.
Variable APP_TIME_ZONE : string.
Variable Date_now : nat → Z.
Hypothesis laws : codecLaws rt.

(** The text [importState] parses is the text [exportState] serialised,
    whichever of the two prefixes was chosen. *)
Lemma envelopeText_exportState ts clk :
  envelopeText rt (exportState rt APP_TIME_ZONE Date_now ts clk) =
    inr (JSON_stringify rt (valueOfPayload (exportPayload APP_TIME_ZONE Date_now ts clk))).
Proof.
  unfold exportState.
  set (json := JSON_stringify rt _).
  assert (envelopeText rt (BACKUP_PREFIX +:+ encodeBase64 rt json) = inr json) as Hplain.
  { unfold envelopeText, encodeBase64, bytesToBase64.
    rewrite trim_noWhiteSpace
      by (apply noWhiteSpace_app;
          [apply noWhiteSpace_BACKUP_PREFIX|apply (btoa_noWhiteSpace _ laws)]).
    rewrite decide_False by done.
    assert (startsWith (BACKUP_PREFIX +:+ btoa rt (TextEncoder_encode rt json))
                       BACKUP_PREFIX_GZ = false) as -> by reflexivity.
    rewrite startsWith_app, slice_app.
    unfold decodeBase64, base64ToBytes.
    rewrite (atob_btoa _ laws). simpl. by rewrite (decode_encode _ laws). }
  unfold gzipText.
  destruct (CompressionStream_gzip rt) as [gzip|] eqn:Hgzip; simpl; [|done].
  case_decide; [|done].
  unfold envelopeText, bytesToBase64.
  rewrite trim_noWhiteSpace
    by (apply noWhiteSpace_app;
        [apply noWhiteSpace_BACKUP_PREFIX_GZ|apply (btoa_noWhiteSpace _ laws)]).
  rewrite decide_False by done.
  rewrite startsWith_app, slice_app. unfold base64ToBytes.
  rewrite (atob_btoa _ laws). simpl.
  destruct (gunzip_gzip _ laws gzip json Hgzip) as (gunzip & Hgunzip & Hinverse).
  unfold gunzipBytes. rewrite Hgunzip. simpl. by rewrite Hinverse.
Qed.

(** Importing the value of an exported payload gives the payload back, with
    no warning. *)
Lemma importParsed_valueOfPayload ts clk clk' :
  Forall normalForm ts →
  importParsed APP_TIME_ZONE Date_now
      (valueOfPayload (exportPayload APP_TIME_ZONE Date_now ts clk)) clk' =
    inr {| payload := exportPayload APP_TIME_ZONE Date_now ts clk; warnings := [] |}.
Proof.
  intros Hts. unfold importParsed.
  change (isObject (valueOfPayload _)) with true.
  change (getField (valueOfPayload (exportPayload APP_TIME_ZONE Date_now ts clk)) "version")
    with (Some (JNum (Finite (FInt BACKUP_VERSION)))).
  change (getField (valueOfPayload (exportPayload APP_TIME_ZONE Date_now ts clk)) "tables")
    with (Some (JArr (valueOfTable <$> ts))).
  change (getField (valueOfPayload (exportPayload APP_TIME_ZONE Date_now ts clk)) "timezone")
    with (Some (JStr APP_TIME_ZONE)).
  change (getField (valueOfPayload (exportPayload APP_TIME_ZONE Date_now ts clk))
            "storageVersion") with (Some (JStr STORAGE_VERSION)).
  change (getField (valueOfPayload (exportPayload APP_TIME_ZONE Date_now ts clk))
            "exportedAt") with (Some (JNum (Finite (FInt (Date_now clk))))).
  rewrite (proj2 (strictEqNumber_true _ _)) by done.
  rewrite (proj2 (strictEqString_true _ _)) by done.
  cbn [negb]. cbv beta iota.
  by rewrite normalizeTables_normalForm_id.
Qed.
End roundtrip.

(** ** The reference host *)

Lemma decodeSextet_encodeSextet b5 b4 b3 b2 b1 b0 :
  decodeSextet (encodeSextet b5 b4 b3 b2 b1 b0) = Some (b5, b4, b3, b2, b1, b0).
Proof. by destruct b5, b4, b3, b2, b1, b0; vm_compute. Qed.

Lemma encodeSextet_not_pad b5 b4 b3 b2 b1 b0 :
  encodeSextet b5 b4 b3 b2 b1 b0 ≠ base64Pad.
Proof. by destruct b5, b4, b3, b2, b1, b0; vm_compute. Qed.

Lemma encodeSextet_not_space b5 b4 b3 b2 b1 b0 :
  isWhiteSpace (encodeSextet b5 b4 b3 b2 b1 b0) = false.
Proof. by destruct b5, b4, b3, b2, b1, b0; vm_compute. Qed.

Lemma base64Decode_Encode bytes : base64Decode (base64Encode bytes) = Some bytes.
Proof.
  remember (length bytes) as n eqn:Hn. revert bytes Hn.
  induction n as [n IH] using lt_wf_ind. intros bytes ->.
  destruct bytes as [|[x0 x1 x2 x3 x4 x5 x6 x7]
                      [|[y0 y1 y2 y3 y4 y5 y6 y7]
                        [|[z0 z1 z2 z3 z4 z5 z6 z7] rest]]]; [done|..];
    cbn [base64Encode base64Decode];
    repeat first
      [ rewrite decodeSextet_encodeSextet
      | rewrite decide_True by done
      | rewrite decide_False by apply encodeSextet_not_pad
      | progress cbn [mbind option_bind] ];
    [done..|].
  rewrite (IH (length rest)); [done|simpl; lia|done].
Qed.

Lemma base64Encode_noWhiteSpace bytes : noWhiteSpace (base64Encode bytes).
Proof.
  remember (length bytes) as n eqn:Hn. revert bytes Hn.
  induction n as [n IH] using lt_wf_ind. intros bytes ->.
  destruct bytes as [|[x0 x1 x2 x3 x4 x5 x6 x7]
                      [|[y0 y1 y2 y3 y4 y5 y6 y7]
                        [|[z0 z1 z2 z3 z4 z5 z6 z7] rest]]];
    unfold noWhiteSpace; cbn [base64Encode String.list_ascii_of_string];
    repeat (apply Forall_cons; split; [apply encodeSextet_not_space || done|]);
    try done.
  apply (IH (length rest)); [simpl; lia|done].
Qed.

Lemma referenceHost_laws compression corpus :
  codecLaws (referenceHost compression corpus).
Proof.
  split; simpl.
  - apply base64Decode_Encode.
  - apply base64Encode_noWhiteSpace.
  - intros gzip text. destruct compression; [|done]. intros [= <-].
    exists unstoreText. split; [done|]. unfold unstoreText, storeText. simpl.
    by rewrite String.string_of_list_ascii_of_string.
  - apply String.string_of_list_ascii_of_string.
Qed.

(** * The claims *)

(** ** C1: the final channel count and the surviving channels *)

(** C1 (amended): for every raw table that [normalizeTable] accepts (a keyed
    record whose [bossName] is a string that is not blank), the final
    [channelsCount] is the clamp to [1, 50] of the larger of the requested
    count and the highest observed channel number, and every channel entry
    that survives deduplication with a channel number of at most 50 appears,
    with its timer data, in the output [channels] array. *)
Theorem normalizeTable_count_and_survivors Date_now table index ws clk name :
  isObject table = true →
  getField table "bossName" = Some (JStr name) →
  ¬ blank name →
  let parsedChannels := parseChannels table in
  let highest := highestObserved parsedChannels in
  ∃ t ws' clk',
    normalizeTable Date_now table index ws clk = (Some t, ws', clk') ∧
    channelsCount t =
      Z.max 1 (Z.min 50 (Z.max (requestedCountOf table highest) highest)) ∧
    (∀ c, c ∈ sortChannels (dedupe parsedChannels) ↔
          lastSeen (channel c) parsedChannels = Some c) ∧
    (∀ c, c ∈ sortChannels (dedupe parsedChannels) → channel c ≤ 50 →
          c ∈ channels t).
Proof.
  intros Hobj Hname Hblank parsedChannels highest.
  eexists _, _, _. split; [by apply normalizeTable_accepted|]. simpl.
  assert (Forall (λ c, 1 ≤ channel c) parsedChannels) as Hpos.
  { eapply Forall_impl; [apply parseChannels_Forall|]. by intros c [? _]. }
  fold parsedChannels. rewrite maxChannelOf_highestObserved by done.
  fold highest. split_and!.
  - done.
  - intros c. apply uniqueChannels_lastSeen.
  - intros c Hc Hle. apply materialize_elem_of; [apply uniqueChannels_NoDup|done|].
    split.
    + rewrite Forall_forall in Hpos. by apply Hpos, uniqueChannels_elem_of.
    + pose proof (highestObserved_upper parsedChannels c) as Hup.
      specialize (Hup (uniqueChannels_elem_of _ _ Hc)). fold highest in Hup.
      unfold clampChannelsCount, MIN_CHANNELS, MAX_CHANNELS. simpl. lia.
Qed.

Lemma normalizeTable_count_and_survivors_witness :
  ∃ t ws' clk',
    normalizeTable sampleClock rawDuplicates 0 [] 0 = (Some t, ws', clk') ∧
    channelsCount t = 4 ∧
    timed 2 200 ∈ channels t.
Proof.
  destruct (normalizeTable_count_and_survivors sampleClock rawDuplicates 0%nat [] 0%nat
              "Zakum") as (t & ws' & clk' & Hrun & Hcount & _ & Hkept).
  - reflexivity.
  - reflexivity.
  - apply (bool_decide_unpack _). vm_compute. exact I.
  - exists t, ws', clk'. split; [exact Hrun|]. split; [exact Hcount|].
    apply Hkept.
    + apply (bool_decide_unpack _). vm_compute. exact I.
    + simpl. lia.
Defined.

Lemma normalizeTable_drops_channel_60 :
  isObject rawChannel60 = true ∧
  getField rawChannel60 "bossName" = Some (JStr "Zakum") ∧
  ¬ blank "Zakum" ∧
  sortChannels (dedupe (parseChannels rawChannel60)) = [timed 60 100] ∧
  ∃ t ws' clk',
    normalizeTable sampleClock rawChannel60 0 [] 0 = (Some t, ws', clk') ∧
    channelsCount t = 50 ∧
    channels t = emptyChannel <$> seqZ 1 50 ∧
    timed 60 100 ∉ channels t.
Proof.
  split_and!; [reflexivity|reflexivity| |reflexivity|].
  - intros Hblank. apply (bool_decide_pack _) in Hblank. vm_compute in Hblank.
    exact Hblank.
  - eexists _, _, _. split; [vm_compute; reflexivity|]. split_and!.
    + reflexivity.
    + vm_compute. reflexivity.
    + intros Hin. apply (bool_decide_pack _) in Hin. vm_compute in Hin. exact Hin.
Qed.

(** ** C2: export then import *)

(** C2 (amended): for every collection of well-formed tables whose boss names
    are not blank, on a host whose base64, gzip and UTF-8 functions undo each
    other and whose [JSON.parse] reads the exported payload back from its
    text, [importState(exportState(tables)).payload.tables] is equal to
    [tables]. *)
Theorem import_export_roundtrip rt APP_TIME_ZONE Date_now (ts : list BossTable) clk clk' :
  codecLaws rt →
  Forall wellFormedTable ts →
  Forall (λ t, ¬ blank (bossName t)) ts →
  JSON_parse rt
    (JSON_stringify rt (valueOfPayload (exportPayload APP_TIME_ZONE Date_now ts clk))) =
    Some (valueOfPayload (exportPayload APP_TIME_ZONE Date_now ts clk)) →
  ∃ r,
    importState rt APP_TIME_ZONE Date_now
      (exportState rt APP_TIME_ZONE Date_now ts clk) clk' = inr r ∧
    tables (payload r) = ts ∧
    warnings r = [].
Proof.
  intros laws Hwf Hnames Hjson.
  assert (Forall normalForm ts) as Hnormal.
  { apply Forall_forall. intros t Ht. rewrite Forall_forall in Hwf, Hnames.
    apply wellFormedTable_normalForm; auto. }
  exists {| payload := exportPayload APP_TIME_ZONE Date_now ts clk; warnings := [] |}.
  split; [|done].
  unfold importState, parseEnvelope.
  rewrite envelopeText_exportState by done. rewrite Hjson.
  by apply importParsed_valueOfPayload.
Qed.

Lemma import_export_roundtrip_witness :
  ∃ r,
    importState (referenceHost true [twoBossesPayload]) hostZone sampleClock
      (exportState (referenceHost true [twoBossesPayload]) hostZone sampleClock
         twoBosses 0) 1 = inr r ∧
    tables (payload r) = twoBosses ∧
    warnings r = [].
Proof.
  apply (import_export_roundtrip (referenceHost true [twoBossesPayload]) hostZone
           sampleClock twoBosses 0 1).
  - apply referenceHost_laws.
  - apply (bool_decide_unpack _). vm_compute. exact I.
  - apply (bool_decide_unpack _). vm_compute. exact I.
  - vm_compute. reflexivity.
Defined.

Lemma import_export_blank_bossName :
  let rt := referenceHost true [blankNamedPayload] in
  codecLaws rt ∧
  Forall wellFormedTable blankNamed ∧
  JSON_parse rt (JSON_stringify rt blankNamedPayload) = Some blankNamedPayload ∧
  ∃ r,
    importState rt hostZone sampleClock
      (exportState rt hostZone sampleClock blankNamed 0) 1 = inr r ∧
    tables (payload r) = [] ∧
    warnings r = [SkippedMissingBossName 1] ∧
    tables (payload r) ≠ blankNamed.
Proof.
  split_and!.
  - apply referenceHost_laws.
  - apply (bool_decide_unpack _). vm_compute. exact I.
  - vm_compute. reflexivity.
  - eexists. split; [vm_compute; reflexivity|]. by split_and!.
Qed.

(** ** C3: the invariant of the data model *)

(** C3 (amended): every table returned by [normalizeTable], every table of
    the [mergedTables] of [buildMergePreview] on inputs that satisfy the
    invariant, and every table returned by [applyMergeChoices] on a preview
    whose [mergedTables] satisfy the invariant and whose conflicts carry
    [mine] and [theirs] values numbered with the conflict's own channel (as
    the conflicts of [buildMergePreview] are), has
    [channels.length = channelsCount], the channel numbers [1..channelsCount]
    in ascending order, and [channelsCount] in [1, 50]. *)
Theorem tables_keep_invariant :
  (∀ Date_now table index ws clk t ws' clk',
     normalizeTable Date_now table index ws clk = (Some t, ws', clk') →
     tableInvariant t) ∧
  (∀ generateTableId fuel draws existingTables importedTables,
     Forall tableInvariant existingTables → Forall tableInvariant importedTables →
     (∀ preview,
        buildMergePreview generateTableId fuel draws existingTables importedTables
          = Some preview →
        Forall tableInvariant (mergedTables preview) ∧
        Forall conflictLabelled (conflicts preview)) ∧
     ((length existingTables + length importedTables ≤ fuel)%nat →
      NoDup (generateTableId <$> seq draws (length importedTables * fuel)) →
      is_Some (buildMergePreview generateTableId fuel draws
                 existingTables importedTables))) ∧
  (∀ preview choices,
     Forall tableInvariant (mergedTables preview) →
     Forall conflictLabelled (conflicts preview) →
     Forall tableInvariant (applyMergeChoices preview choices)).
Proof.
  split_and!.
  - intros Date_now table index ws clk t ws' clk' Hrun.
    by apply normalizeTable_normalForm in Hrun as (_ & _ & ? & _).
  - intros generateTableId fuel draws existingTables importedTables
      Hexisting Himported. split; [|apply buildMergePreview_total].
    intros preview. rewrite buildMergePreview_unfold.
    destruct (mergeAll _ _ _ _) as [st|] eqn:Hrun; intros; simplify_eq/=. split.
    + by eapply mergeAll_invariant.
    + eapply mergeAll_conflicts; [done|]. constructor.
  - apply applyMergeChoices_invariant.
Qed.

Lemma tables_keep_invariant_witness :
  (∃ t ws clk, normalizeTable sampleClock rawThreeChannels 0 [] 0 = (Some t, ws, clk) ∧
               tableInvariant t) ∧
  (∃ preview, buildMergePreview sampleIds 3 0 existingA importedTwiceA = Some preview ∧
              Forall tableInvariant (mergedTables preview)) ∧
  Forall tableInvariant
    (applyMergeChoices
       {| mergedTables := [threeChannels];
          conflicts := [MergeConflict.mk "a:2:0" "Zakum" "a" 2 (timed 2 100) (timed 2 200)];
          defaultChoices := {["a:2:0" := mine_choice]} |}
       {["a:2:0" := theirs_choice]}).
Proof.
  destruct tables_keep_invariant as (Hnormalize & Hbuild & Happly).
  split_and!.
  - eexists _, _, _. split; [vm_compute; reflexivity|].
    eapply (Hnormalize sampleClock rawThreeChannels 0%nat [] 0%nat).
    vm_compute. reflexivity.
  - destruct (Hbuild sampleIds 3%nat 0%nat existingA importedTwiceA)
      as [Hpartial Htotal].
    + apply (bool_decide_unpack _). vm_compute. exact I.
    + apply (bool_decide_unpack _). vm_compute. exact I.
    + destruct Htotal as [preview Hrun].
      * simpl. lia.
      * apply (bool_decide_unpack _). vm_compute. exact I.
      * exists preview. split; [exact Hrun|]. by apply Hpartial.
  - apply Happly; simpl.
    + apply (bool_decide_unpack _). vm_compute. exact I.
    + apply (bool_decide_unpack _). vm_compute. exact I.
Defined.

Lemma applyMergeChoices_mislabelled_conflict :
  Forall tableInvariant (mergedTables mislabelledPreview) ∧
  (λ t, channel <$> channels t) <$> applyMergeChoices mislabelledPreview ∅ = [[1; 7; 3]] ∧
  ¬ Forall tableInvariant (applyMergeChoices mislabelledPreview ∅).
Proof.
  split_and!.
  - apply (bool_decide_unpack _). vm_compute. exact I.
  - vm_compute. reflexivity.
  - intros Hall. apply (bool_decide_pack _) in Hall. vm_compute in Hall. exact Hall.
Qed.

(** ** C4: normalisation is idempotent *)

(** C4: a table returned by [normalizeTable], normalised again (at any
    index, with any warnings collected so far, at any time), is returned
    as it is, and no warning is pushed. *)
Theorem normalizeTable_idempotent Date_now table index ws clk t ws1 clk1
    Date_now' index' ws' clk' :
  normalizeTable Date_now table index ws clk = (Some t, ws1, clk1) →
  normalizeTable Date_now' (valueOfTable t) index' ws' clk' = (Some t, ws', clk').
Proof.
  intros Hrun. apply normalizeTable_normalForm_id.
  by eapply normalizeTable_normalForm.
Qed.

Lemma normalizeTable_idempotent_witness :
  ∃ t ws1 clk1,
    normalizeTable sampleClock rawDuplicates 0 [] 0 = (Some t, ws1, clk1) ∧
    normalizeTable sampleClock (valueOfTable t) 5 [] 9 = (Some t, [], 9%nat).
Proof.
  eexists _, _, _. split; [vm_compute; reflexivity|].
  eapply (normalizeTable_idempotent sampleClock rawDuplicates 0%nat [] 0%nat).
  vm_compute. reflexivity.
Defined.

(** ** C5: the identifiers of the merged tables *)

(** C5: when the existing tables have pairwise distinct ids, the
    [mergedTables] of every preview [buildMergePreview] returns have pairwise
    distinct ids, whatever the imported tables and their ids are; and the
    preview is returned as soon as the identifier generator does not repeat
    itself within the draws the merge can make. *)
Theorem merged_ids_distinct generateTableId fuel draws
    (existingTables importedTables : list BossTable) :
  NoDup (id <$> existingTables) →
  (∀ preview,
     buildMergePreview generateTableId fuel draws existingTables importedTables
       = Some preview →
     NoDup (id <$> mergedTables preview)) ∧
  ((length existingTables + length importedTables ≤ fuel)%nat →
   NoDup (generateTableId <$> seq draws (length importedTables * fuel)) →
   ∃ preview,
     buildMergePreview generateTableId fuel draws existingTables importedTables
       = Some preview ∧
     NoDup (id <$> mergedTables preview)).
Proof.
  intros Hnodup.
  assert (∀ preview,
    buildMergePreview generateTableId fuel draws existingTables importedTables
      = Some preview →
    NoDup (id <$> mergedTables preview)) as Hpartial.
  { intros preview. rewrite buildMergePreview_unfold.
    destruct (mergeAll _ _ _ _) as [st|] eqn:Hrun; intros; simplify_eq/=.
    eapply mergeAll_idsTracked in Hrun as [? _]; [done|].
    by apply initialState_idsTracked. }
  split; [done|]. intros Hfuel Hgen.
  destruct (buildMergePreview_total generateTableId fuel draws existingTables
              importedTables Hfuel Hgen) as [preview Hrun].
  exists preview. split; [done|]. by apply Hpartial.
Qed.

Lemma merged_ids_distinct_witness :
  ∃ preview,
    buildMergePreview sampleIds 3 0 existingA importedTwiceA = Some preview ∧
    id <$> mergedTables preview = ["a"; "generated-0"; "generated-1"] ∧
    NoDup (id <$> mergedTables preview).
Proof.
  assert (NoDup (id <$> existingA)) as Hexisting
    by (apply (bool_decide_unpack _); vm_compute; exact I).
  destruct (merged_ids_distinct sampleIds 3 0 existingA importedTwiceA Hexisting)
    as [_ Htotal].
  destruct Htotal as (preview & Hrun & Hnodup).
  - simpl. lia.
  - apply (bool_decide_unpack _). vm_compute. exact I.
  - exists preview. split; [exact Hrun|]. split; [|exact Hnodup].
    vm_compute in Hrun. injection Hrun as <-. reflexivity.
Defined.

(** ** C6: the version check *)

(** C6: for every input whose envelope parses to a keyed record,
    [importState] fails with [UnsupportedVersion] exactly when the parsed
    [version] is not the number 1, whatever the rest of the payload is. *)
Theorem importState_UnsupportedVersion_iff rt APP_TIME_ZONE Date_now input clk parsed :
  parseEnvelope rt input = inr parsed →
  isObject parsed = true →
  importState rt APP_TIME_ZONE Date_now input clk = inl UnsupportedVersion ↔
  getField parsed "version" ≠ Some (JNum (Finite (FInt BACKUP_VERSION))).
Proof.
  intros Hparse Hobj. rewrite (importState_parsed _ _ _ _ _ _ Hparse).
  unfold importParsed. rewrite Hobj. simpl.
  destruct (strictEqNumber _ _) eqn:Hversion; simpl.
  - apply strictEqNumber_true in Hversion. split; [|done].
    destruct (getField parsed "tables") as [[]|]; try done.
    by destruct (normalizeTables _ _ _ _ _) as [[??]?].
  - split; [|done]. intros _ Heq. apply strictEqNumber_true in Heq. congruence.
Qed.

Lemma importState_UnsupportedVersion_iff_witness :
  importState (referenceHost false [versionTwo]) hostZone sampleClock
    (printJson versionTwo) 0 = inl UnsupportedVersion.
Proof.
  apply (importState_UnsupportedVersion_iff (referenceHost false [versionTwo]) hostZone
           sampleClock (printJson versionTwo) 0 versionTwo).
  - vm_compute. reflexivity.
  - reflexivity.
  - vm_compute. intros Heq. discriminate Heq.
Defined.

(** ** C7: one conflict on channel 3 *)

(** C7: a local and an imported table of one boss, each well formed with at
    least three channels, where channel 3 was killed at 100 locally and at 200
    in the import and every other channel is empty.  The preview has
    exactly one conflict, on channel 3; [defaultChoices] maps its id to
    "mine"; the merged channel 3 holds [killedAt = 100]; applying the choice
    "theirs" for this id gives channel 3 with [killedAt = 200]. *)
Theorem channel3_conflict generateTableId fuel draws i i' name n n' created created' :
  3 ≤ n ≤ 50 → 3 ≤ n' ≤ 50 →
  let existing := boardTable i name n 100 created in
  let imported := boardTable i' name n' 200 created' in
  let conflictId := i +:+ ":3:0" in
  ∃ preview,
    buildMergePreview generateTableId fuel draws [existing] [imported] = Some preview ∧
    conflicts preview =
      [MergeConflict.mk conflictId name i 3 (timed 3 100) (timed 3 200)] ∧
    defaultChoices preview = {[conflictId := mine_choice]} ∧
    mergedTables preview = [boardTable i name (Z.max n n') 100 created] ∧
    board (Z.max n n') 100 !! 2%nat = Some (timed 3 100) ∧
    applyMergeChoices preview {[conflictId := theirs_choice]} =
      [boardTable i name (Z.max n n') 200 created] ∧
    board (Z.max n n') 200 !! 2%nat = Some (timed 3 200).
Proof.
  intros Hn Hn' existing imported conflictId.
  eexists. split; [by apply buildMergePreview_boards|].
  cbn [conflicts defaultChoices mergedTables]. split_and!; try done.
  - by rewrite board_unfold by lia.
  - apply applyMergeChoices_boards. lia.
  - by rewrite board_unfold by lia.
Qed.

Lemma channel3_conflict_witness :
  ∃ preview,
    buildMergePreview sampleIds 0 0
      [boardTable "local" "Zakum" 3 100 (Finite (FInt 1))]
      [boardTable "theirs" "Zakum" 5 200 (Finite (FInt 2))] = Some preview ∧
    length (conflicts preview) = 1%nat ∧
    applyMergeChoices preview {["local:3:0" := theirs_choice]} =
      [boardTable "local" "Zakum" 5 200 (Finite (FInt 1))].
Proof.
  destruct (channel3_conflict sampleIds 0 0 "local" "theirs" "Zakum" 3 5
              (Finite (FInt 1)) (Finite (FInt 2)))
    as (preview & Hrun & Hconflicts & _ & _ & _ & Happly & _); [lia..|].
  exists preview. split; [exact Hrun|]. split; [by rewrite Hconflicts|exact Happly].
Defined.

(** ** C8: merging a collection into itself *)

(** C8 (amended): for every well-formed table collection [L] whose tables
    have pairwise distinct boss names, [buildMergePreview(L, L)] returns no
    conflict, an empty [defaultChoices] and [mergedTables] equal to [L]. *)
Theorem self_merge_unchanged generateTableId fuel draws (L : list BossTable) :
  wellFormedCollection L → NoDup (bossName <$> L) →
  buildMergePreview generateTableId fuel draws L L =
    Some {| mergedTables := L; conflicts := []; defaultChoices := ∅ |}.
Proof.
  intros [_ Hwf] Hnames. apply buildMergePreview_self; [|done].
  eapply Forall_impl; [done|]. by intros t (_ & _ & ? & _).
Qed.

Lemma self_merge_unchanged_witness :
  buildMergePreview sampleIds 0 0 twoBosses twoBosses =
    Some {| mergedTables := twoBosses; conflicts := []; defaultChoices := ∅ |}.
Proof.
  apply (self_merge_unchanged sampleIds 0 0 twoBosses).
  - apply (bool_decide_unpack _). vm_compute. exact I.
  - apply (bool_decide_unpack _). vm_compute. exact I.
Defined.

Lemma self_merge_duplicate_bossName :
  wellFormedCollection sameBossTwice ∧
  ∃ p, buildMergePreview sampleIds 0 0 sameBossTwice sameBossTwice = Some p ∧
       length (conflicts p) = 1%nat ∧
       MergeConflict.channel <$> conflicts p = [1] ∧
       mergedTables p ≠ sameBossTwice.
Proof.
  split.
  - apply (bool_decide_unpack _). vm_compute. exact I.
  - eexists. split; [vm_compute; reflexivity|]. split_and!; [done..|].
    vm_compute. intros Heq. discriminate Heq.
Qed.

(** ** C9: an explicit count out of range *)

(** C9: for a raw table with a boss name whose explicit [channelsCount] is a
    finite number [v], [normalizeTable] returns a table, with a count in
    [1, 50]; when [v] is outside [1, 50] the warning citing the boss name and
    the clamped value is pushed; when [v] is above 50, and so when it is
    1000, the final count is 50 and the warning cites 50. *)
Theorem channelsCount_clamped_with_warning Date_now table index ws clk name v :
  isObject table = true →
  getField table "bossName" = Some (JStr name) →
  ¬ blank name →
  getField table "channelsCount" = Some (JNum (Finite v)) →
  ∃ t ws' clk',
    normalizeTable Date_now table index ws clk = (Some t, ws', clk') ∧
    ws `prefix_of` ws' ∧
    1 ≤ channelsCount t ≤ 50 ∧
    (finite_ltZ v 1 ∨ finite_gtZ v 50 →
       1 ≤ clampChannelsCount v ≤ 50 ∧
       ChannelsCountClamped name (clampChannelsCount v) ∈ ws') ∧
    (finite_gtZ v 50 →
       channelsCount t = 50 ∧ ChannelsCountClamped name 50 ∈ ws') ∧
    (v = FInt 1000 →
       channelsCount t = 50 ∧ ChannelsCountClamped name 50 ∈ ws').
Proof.
  intros Hobj Hname Hblank Hcount.
  eexists _, _, _. split; [by apply normalizeTable_accepted|]. simpl.
  set (maxChannel := maxChannelOf (sortChannels (dedupe (parseChannels table)))).
  assert (requestedCountOf table maxChannel = Math_floor v) as ->
    by (unfold requestedCountOf; by rewrite Hcount).
  assert (finite_ltZ v 1 ∨ finite_gtZ v 50 →
          ChannelsCountClamped name (clampChannelsCount v) ∈
            (ws ++ clampWarning table name) ++
              rebuildWarning name (sortChannels (dedupe (parseChannels table)))
                (clampChannelsCount (FInt (Z.max (Math_floor v) maxChannel)))) as Hwarn.
  { intros Hout. apply elem_of_app. left. apply elem_of_app. right.
    unfold clampWarning. rewrite Hcount. simpl.
    rewrite decide_True by by apply clampChannelsCount_outside.
    apply list_elem_of_singleton. done. }
  assert (finite_gtZ v 50 → 50 ≤ Math_floor v) as Hfloor
    by (destruct v; simpl; lia).
  assert (finite_gtZ v 50 →
          clampChannelsCount (FInt (Z.max (Math_floor v) maxChannel)) = 50 ∧
          clampChannelsCount v = 50) as Hhigh.
  { intros Hgt%Hfloor. unfold clampChannelsCount, MIN_CHANNELS, MAX_CHANNELS.
    simpl. lia. }
  split_and!.
  - rewrite <-app_assoc. by apply prefix_app_r.
  - apply clampChannelsCount_range.
  - apply clampChannelsCount_range.
  - intros Hout. split; [apply clampChannelsCount_range|by apply Hwarn].
  - intros Hgt. destruct (Hhigh Hgt) as [Hfinal Hclamp]. split; [done|].
    rewrite <-Hclamp. apply Hwarn. by right.
  - intros ->. destruct Hhigh as [Hfinal Hclamp]; [simpl; lia|]. split; [done|].
    rewrite <-Hclamp. apply Hwarn. right. simpl. lia.
Qed.

Lemma channelsCount_clamped_with_warning_witness :
  ∃ t ws' clk',
    normalizeTable sampleClock rawCount1000 0 [] 0 = (Some t, ws', clk') ∧
    channelsCount t = 50 ∧
    ws' = [ChannelsCountClamped "Zakum" 50; ChannelsRebuilt "Zakum" 1 50].
Proof.
  destruct (channelsCount_clamped_with_warning sampleClock rawCount1000 0%nat [] 0%nat
              "Zakum" (FInt 1000))
    as (t & ws' & clk' & Hrun & _ & _ & _ & _ & Hthousand).
  - reflexivity.
  - reflexivity.
  - apply (bool_decide_unpack _). vm_compute. exact I.
  - reflexivity.
  - exists t, ws', clk'. split; [exact Hrun|].
    split; [by apply Hthousand|].
    vm_compute in Hrun. by injection Hrun as _ <- _.
Defined.

(** ** C10: the timezone warning *)

(** C10: for every input that [importState] accepts, the timezone warning is
    among the warnings exactly when the raw [timezone] value is not the
    string of the host timezone; so when the field is absent or not a
    string the warning is pushed (first) although [payload.timezone] is the
    host timezone. *)
Theorem timezone_warning_on_raw_value rt APP_TIME_ZONE Date_now input clk parsed rawTables :
  parseEnvelope rt input = inr parsed →
  isObject parsed = true →
  getField parsed "version" = Some (JNum (Finite (FInt 1))) →
  getField parsed "tables" = Some (JArr rawTables) →
  ∃ r,
    importState rt APP_TIME_ZONE Date_now input clk = inr r ∧
    ((∃ w, w ∈ warnings r ∧ isTimezoneMismatch w) ↔
     getField parsed "timezone" ≠ Some (JStr APP_TIME_ZONE)) ∧
    (getField parsed "timezone" ≠ Some (JStr APP_TIME_ZONE) →
     head (warnings r) =
       Some (TimezoneMismatch (getField parsed "timezone") APP_TIME_ZONE)) ∧
    ((∀ s, getField parsed "timezone" ≠ Some (JStr s)) →
     timezone (payload r) = APP_TIME_ZONE ∧
     head (warnings r) =
       Some (TimezoneMismatch (getField parsed "timezone") APP_TIME_ZONE)).
Proof.
  intros Hparse Hobj Hversion Htables.
  rewrite (importState_parsed _ _ _ _ _ _ Hparse).
  destruct (importParsed_accepted APP_TIME_ZONE Date_now parsed clk rawTables
              Hobj Hversion Htables) as (r & -> & Hws & _ & Htz).
  exists r. split; [done|].
  destruct (normalizeTables_warnings Date_now rawTables 0
              (if negb (strictEqString (getField parsed "timezone") APP_TIME_ZONE)
               then [TimezoneMismatch (getField parsed "timezone") APP_TIME_ZONE]
               else []) clk) as (extra & Hextra & Hnone).
  rewrite Hextra in Hws. rewrite Hws. clear Hws Hextra.
  rewrite Forall_forall in Hnone.
  assert (getField parsed "timezone" ≠ Some (JStr APP_TIME_ZONE) →
          strictEqString (getField parsed "timezone") APP_TIME_ZONE = false) as Hne.
  { intros Hraw. apply not_true_is_false. by intros ?%strictEqString_true. }
  split_and!.
  - split.
    + intros (w & Hw & Htzw) Hraw.
      rewrite (proj2 (strictEqString_true _ _) Hraw) in Hw. simpl in Hw.
      by apply (Hnone w).
    + intros Hraw. rewrite (Hne Hraw). simpl. eexists. split; [left|done].
  - intros Hraw. by rewrite (Hne Hraw).
  - intros Hraw. split.
    + rewrite Htz. destruct (getField parsed "timezone") as [[| | |s| |]|]; try done.
      by destruct (Hraw s).
    + by rewrite (Hne (Hraw _)).
Qed.

Lemma timezone_warning_on_raw_value_witness :
  ∃ r,
    importState (referenceHost false [noTimezone]) hostZone sampleClock
      ("  " +:+ printJson noTimezone) 0 = inr r ∧
    timezone (payload r) = hostZone ∧
    warnings r = [TimezoneMismatch None hostZone].
Proof.
  destruct (timezone_warning_on_raw_value (referenceHost false [noTimezone]) hostZone
              sampleClock ("  " +:+ printJson noTimezone) 0 noTimezone
              (valueOfTable <$> twoBosses))
    as (r & Hrun & _ & _ & Habsent).
  - vm_compute. reflexivity.
  - reflexivity.
  - reflexivity.
  - reflexivity.
  - exists r. split; [exact Hrun|]. split.
    + apply Habsent. intros s Heq. vm_compute in Heq. discriminate Heq.
    + vm_compute in Hrun. injection Hrun as <-. reflexivity.
Defined.

(** * Further properties *)

(** ** Text behind the last separator *)

Lemma string_app_assoc (s1 s2 s3 : string) : s1 +:+ s2 +:+ s3 = (s1 +:+ s2) +:+ s3.
Proof. induction s1 as [|a s1 IH]; [done|]. exact (f_equal (String a) IH). Qed.

Lemma occurs_app c s1 s2 : occurs c (s1 +:+ s2) = occurs c s1 || occurs c s2.
Proof. induction s1 as [|a s1 IH]; simpl; [done|]. by rewrite IH, orb_assoc. Qed.

Lemma afterLast_app c prefix rest :
  occurs c rest = false → afterLast c (prefix +:+ String c rest) = rest.
Proof.
  intros Hrest. induction prefix as [|a prefix IH]; simpl.
  - by rewrite Hrest, decide_True.
  - rewrite occurs_app. simpl. rewrite bool_decide_eq_true_2 by done.
    by rewrite orb_true_r.
Qed.

Lemma occurs_allDigits c s : isDigit c = false → allDigits s = true → occurs c s = false.
Proof.
  intros Hc. induction s as [|a s IH]; simpl; [done|].
  intros [Ha Hs]%andb_true_iff. rewrite IH by done.
  rewrite bool_decide_eq_false_2; [done|]. intros ->. congruence.
Qed.

Lemma pretty_N_char_digit x : isDigit (pretty_N_char x) = true.
Proof. unfold pretty_N_char. by repeat case_match. Qed.

Lemma pretty_N_go_digits x s : allDigits s = true → allDigits (pretty_N_go x s) = true.
Proof.
  revert s. induction (N.lt_wf_0 x) as [x _ IH]; intros s Hs.
  assert (x = 0 ∨ 0 < x)%N as [->|?] by lia.
  - by rewrite pretty_N_go_0.
  - rewrite pretty_N_go_step by done. apply IH; [by apply N.div_lt|].
    simpl. by rewrite pretty_N_char_digit.
Qed.

Lemma pretty_nat_digits (n : nat) : allDigits (pretty n) = true.
Proof.
  unfold pretty, pretty_nat, pretty, pretty_N. case_decide; [done|].
  by apply pretty_N_go_digits.
Qed.

(** A text that ends in a separator and a natural number tells the number. *)
Lemma afterLast_pretty_nat c prefix (n : nat) :
  isDigit c = false → afterLast c (prefix +:+ String c (pretty n)) = pretty n.
Proof.
  intros Hc. apply afterLast_app, occurs_allDigits; [done|apply pretty_nat_digits].
Qed.

(** ** The channel loop in closed form *)

Lemma mergedChannel_inConflict mine theirs k :
  inConflict mine theirs = true → mergedChannel mine theirs k = mine.
Proof.
  unfold inConflict, mergedChannel.
  intros [[Hmine _]%andb_true_iff _]%andb_true_iff. by rewrite Hmine.
Qed.

Lemma withDefaults_app choices cs1 cs2 :
  withDefaults choices (cs1 ++ cs2) = withDefaults (withDefaults choices cs1) cs2.
Proof. unfold withDefaults. by rewrite foldl_app. Qed.

(** The loop pushes one channel per number and the conflicts of
    [newConflicts], each with its default choice. *)
Lemma foldl_mergeChannel_closed existing mb tb ks nc cf ch :
  foldl (mergeChannel existing mb tb) (nc, cf, ch) ks =
    (nc ++ ((λ k, mergedChannel (channelAt mb k) (channelAt tb k) k) <$> ks),
     cf ++ newConflicts existing mb tb (length cf) ks,
     withDefaults ch (newConflicts existing mb tb (length cf) ks)).
Proof.
  revert nc cf ch. induction ks as [|k ks IH]; intros nc cf ch.
  - by rewrite !app_nil_r.
  - cbn [foldl newConflicts]. rewrite mergeChannel_unfold, fmap_cons. cbv zeta.
    destruct (inConflict _ _) eqn:Hconflict; rewrite IH.
    + rewrite length_app, Nat.add_1_r. cbn [length].
      rewrite (mergedChannel_inConflict _ _ k) by done.
      unfold withDefaults. cbn [foldl]. by rewrite <-!app_assoc.
    + by rewrite <-app_assoc.
Qed.

(** ** One imported table, in closed form *)

Lemma channelLoop_closed st existing t :
  let mb := channelIndex (channels existing) in
  let tb := channelIndex (channels t) in
  let ks := seqZ 1 (mergedCountOf existing t) in
  channelLoop st existing t =
    ((λ k, mergedChannel (channelAt mb k) (channelAt tb k) k) <$> ks,
     ms_conflicts st ++ newConflicts existing mb tb (length (ms_conflicts st)) ks,
     withDefaults (ms_defaultChoices st)
       (newConflicts existing mb tb (length (ms_conflicts st)) ks)).
Proof. unfold channelLoop. by rewrite foldl_mergeChannel_closed. Qed.

Lemma newConflicts_elem_of existing mb tb position ks c :
  c ∈ newConflicts existing mb tb position ks →
  ∃ k (p : nat),
    k ∈ ks ∧ inConflict (channelAt mb k) (channelAt tb k) = true ∧
    c = conflictAt existing (channelAt mb k) (channelAt tb k) k p.
Proof.
  revert position. induction ks as [|k ks IH]; intros position; cbn [newConflicts];
    [by intros ?%elem_of_nil|].
  cbv zeta. destruct (inConflict _ _) eqn:Hconflict.
  - intros [->|Hin]%elem_of_cons.
    + exists k, position. split_and!; [left|done..].
    + destruct (IH _ Hin) as (k' & p & ? & ? & ?). exists k', p.
      split_and!; [by right|done..].
  - intros Hin. destruct (IH _ Hin) as (k' & p & ? & ? & ?). exists k', p.
    split_and!; [by right|done..].
Qed.

Lemma newConflicts_channels existing mb tb position ks :
  MergeConflict.channel <$> newConflicts existing mb tb position ks =
    filter (λ k, inConflict (channelAt mb k) (channelAt tb k) = true) ks.
Proof.
  revert position. induction ks as [|k ks IH]; intros position; [done|].
  cbn [newConflicts]. cbv zeta. rewrite filter_cons.
  destruct (inConflict _ _) eqn:Hconflict.
  - rewrite decide_True by done. csimpl. by rewrite IH.
  - rewrite decide_False by done. apply IH.
Qed.

(** The conflicts are numbered from [position] on, and the number ends the
    conflict id. *)
Lemma newConflicts_lookup existing mb tb position ks (j : nat) c :
  newConflicts existing mb tb position ks !! j = Some c →
  afterLast ":" (MergeConflict.id c) = pretty (position + j)%nat.
Proof.
  revert position j c. induction ks as [|k ks IH]; intros position j c; [done|].
  cbn [newConflicts]. cbv zeta. destruct (inConflict _ _); [|apply IH].
  destruct j as [|j]; simpl.
  - intros [= <-]. simpl. rewrite Nat.add_0_r.
    change (id existing +:+ ":" +:+ pretty k +:+ ":" +:+ pretty position)
      with (id existing +:+ (":" +:+ pretty k) +:+ String ":" (pretty position)).
    rewrite string_app_assoc.
    by apply (afterLast_pretty_nat ":"%char).
  - intros Hc%IH. by rewrite Nat.add_succ_r.
Qed.

(** ** What one turn of the merge keeps *)

Lemma keepsTimers_refl t : keepsTimers t t.
Proof. by intros k c. Qed.

Lemma keepsTimers_trans t1 t2 t3 : keepsTimers t1 t2 → keepsTimers t2 t3 → keepsTimers t1 t3.
Proof. intros H12 H23 k c Hc Htimer. by apply H23; [apply H12|]. Qed.

Lemma mergedCountOf_range existing t : 1 ≤ mergedCountOf existing t ≤ 50.
Proof. apply clampChannelsCount_range. Qed.

Lemma mergedCountOf_ge existing t :
  channelsCount existing ≤ 50 → channelsCount existing ≤ mergedCountOf existing t.
Proof.
  unfold mergedCountOf, clampChannelsCount, MIN_CHANNELS, MAX_CHANNELS. simpl. lia.
Qed.

(** The merged table keeps the timers of the table it replaces. *)
Lemma mergedTable_keepsTimers st existing t :
  tableInvariant existing →
  keepsTimers existing (mergedTable existing t (channelLoop st existing t).1.1).
Proof.
  intros (Hlen & Hlab & Hrange) k c Hc Htimer.
  rewrite channelLoop_closed. cbn [fst snd mergedTable channels].
  destruct (labelled_lookup _ _ _ _ Hlab Hc) as [Hnum Hk].
  pose proof (mergedCountOf_ge existing t) as Hge.
  rewrite list_lookup_fmap, lookup_seqZ_lt by lia. simpl. f_equal.
  rewrite (channelAt_labelled (channels existing) (channelsCount existing)) by done.
  rewrite decide_True by lia.
  replace (Z.to_nat (1 + Z.of_nat k - 1)) with k by lia. rewrite Hc. simpl.
  unfold mergedChannel. by rewrite Htimer.
Qed.

Section merge_keeps.
Variable generateTableId : nat → string.

Lemma mergeImported_headers fuel st t st' :
  mergeImported generateTableId fuel st t = Some st' →
  header <$> ms_mergedTables st `prefix_of` header <$> ms_mergedTables st' ∧
  (length (ms_mergedTables st') ≤ S (length (ms_mergedTables st)))%nat.
Proof.
  rewrite mergeImported_unfold.
  destruct (list_find _ _) as [[i e]|] eqn:Hfind.
  - intros [= <-]. simpl. rewrite length_insert. split; [|lia].
    apply list_find_Some in Hfind as (Hi & _ & _).
    rewrite list_fmap_insert.
    rewrite (list_insert_id (header <$> ms_mergedTables st));
      [done|by rewrite list_lookup_fmap, Hi].
  - destruct (ensureUniqueId _ _ _ _ _) as [[[uid used] d]|]; [|done].
    intros [= <-]. simpl. rewrite fmap_app, length_app. simpl.
    split; [by apply prefix_app_r|lia].
Qed.

Lemma mergeImported_bossNames fuel st t st' :
  mergeImported generateTableId fuel st t = Some st' →
  (NoDup (bossName <$> ms_mergedTables st) →
   NoDup (bossName <$> ms_mergedTables st')) ∧
  (∀ name, name ∈ bossName <$> ms_mergedTables st' ↔
           name ∈ bossName <$> ms_mergedTables st ∨ name = bossName t).
Proof.
  rewrite mergeImported_unfold.
  destruct (list_find _ _) as [[i e]|] eqn:Hfind.
  - intros [= <-]. simpl.
    apply list_find_Some in Hfind as (Hi & Hname & _).
    rewrite list_fmap_insert.
    rewrite (list_insert_id (bossName <$> ms_mergedTables st))
      by (by rewrite list_lookup_fmap, Hi).
    split; [done|]. intros name. split; [by left|]. intros [?| ->]; [done|].
    rewrite <-Hname. apply list_elem_of_fmap_2. by eapply list_elem_of_lookup_2.
  - destruct (ensureUniqueId _ _ _ _ _) as [[[uid used] d]|]; [|done].
    intros [= <-]. simpl. rewrite fmap_app. simpl. split.
    + intros Hnodup. apply NoDup_app. split_and!; [done| |apply NoDup_singleton].
      intros name Hin ->%list_elem_of_singleton.
      apply list_elem_of_fmap in Hin as (t' & Hname & Hin).
      apply list_find_None in Hfind. rewrite Forall_forall in Hfind.
      by apply (Hfind t').
    + intros name. rewrite elem_of_app, list_elem_of_singleton. done.
Qed.

Lemma mergeImported_keepsTimers fuel st t st' (i : nat) e :
  mergeImported generateTableId fuel st t = Some st' →
  Forall tableInvariant (ms_mergedTables st) →
  ms_mergedTables st !! i = Some e →
  ∃ e', ms_mergedTables st' !! i = Some e' ∧ id e' = id e ∧ keepsTimers e e'.
Proof.
  rewrite mergeImported_unfold. intros Hrun Hinv Hi.
  destruct (list_find _ _) as [[j e0]|] eqn:Hfind.
  - injection Hrun as <-. simpl.
    apply list_find_Some in Hfind as (Hj & _ & _).
    destruct (decide (j = i)) as [->|Hne].
    + assert (e0 = e) as -> by congruence.
      eexists. split; [apply list_lookup_insert_eq; by eapply lookup_lt_Some|].
      split; [done|]. apply mergedTable_keepsTimers.
      rewrite Forall_forall in Hinv. apply Hinv. by eapply list_elem_of_lookup_2.
    + exists e. rewrite list_lookup_insert_ne by done.
      split_and!; [done..|apply keepsTimers_refl].
  - destruct (ensureUniqueId _ _ _ _ _) as [[[uid used] d]|]; [|done].
    injection Hrun as <-. simpl. exists e.
    split_and!; [|done|apply keepsTimers_refl].
    by apply lookup_app_l_Some.
Qed.

Lemma mergeImported_defaults fuel st t st' :
  mergeImported generateTableId fuel st t = Some st' →
  ms_defaultChoices st = withDefaults ∅ (ms_conflicts st) →
  ms_defaultChoices st' = withDefaults ∅ (ms_conflicts st').
Proof.
  rewrite mergeImported_unfold. intros Hrun Hst.
  destruct (list_find _ _) as [[j e0]|] eqn:Hfind.
  - injection Hrun as <-. simpl. rewrite channelLoop_closed. simpl.
    by rewrite withDefaults_app, Hst.
  - destruct (ensureUniqueId _ _ _ _ _) as [[[uid used] d]|]; [|done].
    by injection Hrun as <-.
Qed.

Lemma mergeImported_positions fuel st t st' :
  mergeImported generateTableId fuel st t = Some st' →
  (∀ (j : nat) c, ms_conflicts st !! j = Some c →
                  afterLast ":" (MergeConflict.id c) = pretty j) →
  ∀ (j : nat) c, ms_conflicts st' !! j = Some c →
                 afterLast ":" (MergeConflict.id c) = pretty j.
Proof.
  rewrite mergeImported_unfold. intros Hrun Hst.
  destruct (list_find _ _) as [[i e0]|] eqn:Hfind.
  - injection Hrun as <-. simpl. rewrite channelLoop_closed. simpl.
    intros j c [Hc|[Hj Hc]]%lookup_app_Some; [by apply Hst|].
    apply newConflicts_lookup in Hc. rewrite Hc. f_equal. lia.
  - destruct (ensureUniqueId _ _ _ _ _) as [[[uid used] d]|]; [|done].
    by injection Hrun as <-.
Qed.

Lemma mergeImported_settled fuel st t st' :
  mergeImported generateTableId fuel st t = Some st' →
  Forall tableInvariant (ms_mergedTables st) →
  Forall (settled (ms_mergedTables st)) (ms_conflicts st) →
  Forall (settled (ms_mergedTables st')) (ms_conflicts st').
Proof.
  intros Hrun Hinv Hst.
  assert (Forall (settled (ms_mergedTables st')) (ms_conflicts st)) as Hold.
  { eapply Forall_impl; [done|]. intros c (i & e & Hi & Hid & Hk & Hc & Htimer).
    destruct (mergeImported_keepsTimers _ _ _ _ _ _ Hrun Hinv Hi)
      as (e' & Hi' & Hid' & Hkeeps).
    exists i, e'. split_and!; [done|congruence|done|by apply Hkeeps|done]. }
  rewrite mergeImported_unfold in Hrun.
  destruct (list_find _ _) as [[i e]|] eqn:Hfind.
  - injection Hrun as <-. simpl in *. rewrite channelLoop_closed in *. simpl in *.
    apply Forall_app. split; [done|].
    apply Forall_forall. intros c (k & p & Hk & Hconflict & ->)%newConflicts_elem_of.
    apply list_find_Some in Hfind as (Hi & _ & _).
    apply elem_of_seqZ in Hk.
    exists i, (mergedTable e t
      ((λ k, mergedChannel (channelAt (channelIndex (channels e)) k)
                           (channelAt (channelIndex (channels t)) k) k)
         <$> seqZ 1 (mergedCountOf e t))).
    split_and!; simpl.
    + apply list_lookup_insert_eq. by eapply lookup_lt_Some.
    + done.
    + lia.
    + rewrite list_lookup_fmap, lookup_seqZ_lt by lia. simpl.
      replace (1 + Z.of_nat (Z.to_nat (k - 1))) with k by lia.
      by rewrite mergedChannel_inConflict.
    + unfold inConflict in Hconflict.
      by apply andb_true_iff in Hconflict as [[? _]%andb_true_iff _].
  - destruct (ensureUniqueId _ _ _ _ _) as [[[uid used] d]|]; [|done].
    by injection Hrun as <-.
Qed.
End merge_keeps.

(** ** What the whole merge keeps *)

Section mergeAll_keeps.
Variable generateTableId : nat → string.

Lemma mergeAll_headers fuel st ts st' :
  mergeAll generateTableId fuel st ts = Some st' →
  header <$> ms_mergedTables st `prefix_of` header <$> ms_mergedTables st' ∧
  (length (ms_mergedTables st') ≤ length (ms_mergedTables st) + length ts)%nat.
Proof.
  revert st. induction ts as [|t ts IH]; intros st Hrun; simplify_eq/=.
  - split; [done|lia].
  - destruct (mergeImported _ _ _ _) as [st1|] eqn:Hstep; simplify_eq/=.
    destruct (mergeImported_headers _ _ _ _ _ Hstep) as [Hprefix1 Hlen1].
    destruct (IH _ Hrun) as [Hprefix Hlen]. split; [by etrans|lia].
Qed.

Lemma mergeAll_bossNames fuel st ts st' :
  mergeAll generateTableId fuel st ts = Some st' →
  (NoDup (bossName <$> ms_mergedTables st) →
   NoDup (bossName <$> ms_mergedTables st')) ∧
  (∀ name, name ∈ bossName <$> ms_mergedTables st' ↔
           name ∈ bossName <$> ms_mergedTables st ∨ name ∈ bossName <$> ts).
Proof.
  revert st. induction ts as [|t ts IH]; intros st Hrun; simplify_eq/=.
  - split; [done|]. intros name. set_solver.
  - destruct (mergeImported _ _ _ _) as [st1|] eqn:Hstep; simplify_eq/=.
    destruct (mergeImported_bossNames _ _ _ _ _ Hstep) as [Hnodup1 Hnames1].
    destruct (IH _ Hrun) as [Hnodup Hnames]. split; [auto|].
    intros name. rewrite Hnames, Hnames1. set_solver.
Qed.

Lemma mergeAll_keepsTimers fuel st ts st' (i : nat) e :
  mergeAll generateTableId fuel st ts = Some st' →
  Forall tableInvariant (ms_mergedTables st) → Forall tableInvariant ts →
  ms_mergedTables st !! i = Some e →
  ∃ e', ms_mergedTables st' !! i = Some e' ∧ id e' = id e ∧ keepsTimers e e'.
Proof.
  intros Hrun Hst Hts. revert st e Hrun Hst.
  induction Hts as [|t ts Ht Hts IH]; intros st e Hrun Hst Hi; simplify_eq/=.
  - exists e. split_and!; [done..|apply keepsTimers_refl].
  - destruct (mergeImported _ _ _ _) as [st1|] eqn:Hstep; simplify_eq/=.
    destruct (mergeImported_keepsTimers _ _ _ _ _ _ _ Hstep Hst Hi)
      as (e1 & Hi1 & Hid1 & Hkeeps1).
    destruct (IH st1 e1) as (e' & Hi' & Hid' & Hkeeps'); [done| |done|].
    { by eapply mergeImported_invariant. }
    exists e'. split_and!; [done|congruence|by eapply keepsTimers_trans].
Qed.

Lemma mergeAll_defaults fuel st ts st' :
  mergeAll generateTableId fuel st ts = Some st' →
  ms_defaultChoices st = withDefaults ∅ (ms_conflicts st) →
  ms_defaultChoices st' = withDefaults ∅ (ms_conflicts st').
Proof.
  revert st. induction ts as [|t ts IH]; intros st Hrun Hst; simplify_eq/=; [done|].
  destruct (mergeImported _ _ _ _) as [st1|] eqn:Hstep; simplify_eq/=.
  eapply IH; [done|]. by eapply mergeImported_defaults.
Qed.

Lemma mergeAll_positions fuel st ts st' :
  mergeAll generateTableId fuel st ts = Some st' →
  (∀ (j : nat) c, ms_conflicts st !! j = Some c →
                  afterLast ":" (MergeConflict.id c) = pretty j) →
  ∀ (j : nat) c, ms_conflicts st' !! j = Some c →
                 afterLast ":" (MergeConflict.id c) = pretty j.
Proof.
  revert st. induction ts as [|t ts IH]; intros st Hrun Hst; simplify_eq/=; [done|].
  destruct (mergeImported _ _ _ _) as [st1|] eqn:Hstep; simplify_eq/=.
  eapply IH; [done|]. by eapply mergeImported_positions.
Qed.

Lemma mergeAll_settled fuel st ts st' :
  mergeAll generateTableId fuel st ts = Some st' →
  Forall tableInvariant (ms_mergedTables st) → Forall tableInvariant ts →
  Forall (settled (ms_mergedTables st)) (ms_conflicts st) →
  Forall (settled (ms_mergedTables st')) (ms_conflicts st').
Proof.
  intros Hrun Hst Hts. revert st Hrun Hst.
  induction Hts as [|t ts Ht Hts IH]; intros st Hrun Hst Hsettled; simplify_eq/=;
    [done|].
  destruct (mergeImported _ _ _ _) as [st1|] eqn:Hstep; simplify_eq/=.
  eapply IH; [done|by eapply mergeImported_invariant|].
  by eapply mergeImported_settled.
Qed.
End mergeAll_keeps.

(** ** Default choices *)

Lemma withDefaults_lookup choices cs key :
  withDefaults choices cs !! key =
    if decide (key ∈ MergeConflict.id <$> cs) then Some mine_choice else choices !! key.
Proof.
  revert choices. induction cs as [|c cs IH]; intros choices.
  - by rewrite decide_False by set_solver.
  - unfold withDefaults in *. cbn [foldl]. rewrite IH, fmap_cons.
    destruct (decide (key ∈ MergeConflict.id <$> cs)).
    + by rewrite decide_True by set_solver.
    + destruct (decide (key = MergeConflict.id c)) as [->|].
      * rewrite decide_True by set_solver. by rewrite lookup_insert_eq.
      * rewrite decide_False by set_solver. by rewrite lookup_insert_ne.
Qed.

Lemma withDefaults_size cs :
  NoDup (MergeConflict.id <$> cs) → size (withDefaults ∅ cs) = length cs.
Proof.
  intros Hnodup.
  assert (dom (withDefaults ∅ cs) = list_to_set (MergeConflict.id <$> cs)) as Hdom.
  { apply set_eq. intros key.
    rewrite elem_of_dom, withDefaults_lookup, elem_of_list_to_set.
    case_decide; [by split; [|eexists]|].
    rewrite lookup_empty. split; [by intros []|done]. }
  by rewrite <-size_dom, Hdom, size_list_to_set, length_fmap.
Qed.

Lemma positions_NoDup (cs : list MergeConflict.t) :
  (∀ (j : nat) c, cs !! j = Some c → afterLast ":" (MergeConflict.id c) = pretty j) →
  NoDup (MergeConflict.id <$> cs).
Proof.
  intros Hpos. apply NoDup_alt. intros j1 j2 key.
  rewrite !list_lookup_fmap.
  destruct (cs !! j1) as [c1|] eqn:Hc1, (cs !! j2) as [c2|] eqn:Hc2; try done.
  intros [= Hkey1] [= Hkey2].
  apply Hpos in Hc1, Hc2. rewrite Hkey1 in Hc1. rewrite Hkey2 in Hc2.
  apply (inj pretty). congruence.
Qed.

(** ** The conflict resolver *)

Lemma JsMap_elem_of_set {K V : Type} `{EqDecision K} (m : list (K * V)) k v k' v' :
  (k, v) ∈ JsMap.set k' v' m → (k, v) = (k', v') ∨ (k, v) ∈ m.
Proof.
  induction m as [|[k0 v0] m IH]; simpl.
  - intros ?%list_elem_of_singleton. by left.
  - case_decide; simplify_eq; intros [?|Hin]%elem_of_cons; simplify_eq.
    + by left.
    + right. by right.
    + right. by left.
    + destruct (IH Hin); [by left|right; by right].
Qed.

Lemma JsMap_of_entries_elem_of {K V : Type} `{EqDecision K} (entries : list (K * V)) k v :
  (k, v) ∈ JsMap.of_entries entries → (k, v) ∈ entries.
Proof.
  induction entries as [|[k' v'] entries IH] using rev_ind; [done|].
  rewrite JsMap_of_entries_snoc. intros [?|?]%JsMap_elem_of_set; simplify_eq.
  - set_solver.
  - apply elem_of_app. left. auto.
Qed.

Lemma tableIndex_keys (ts : list BossTable) :
  (imap (λ index table, (id table, index)) ts).*1 = id <$> ts.
Proof.
  apply list_eq. intros i. rewrite !list_lookup_fmap, list_lookup_imap.
  by destruct (ts !! i).
Qed.

(** The index finds a table of a collection with distinct ids where it is. *)
Lemma tableIndex_get_NoDup (ts : list BossTable) (i : nat) t :
  NoDup (id <$> ts) → ts !! i = Some t → JsMap.get (id t) (tableIndex ts) = Some i.
Proof.
  intros Hnodup Hi. unfold tableIndex.
  rewrite JsMap_of_entries_NoDup by (by rewrite tableIndex_keys).
  apply JsMap_elem_of_get; [by rewrite tableIndex_keys|].
  apply list_elem_of_lookup. exists i. by rewrite list_lookup_imap, Hi.
Qed.

(** What the index finds is a table with the identifier asked for. *)
Lemma tableIndex_get_Some (ts : list BossTable) key (idx : nat) :
  JsMap.get key (tableIndex ts) = Some idx → ∃ t, ts !! idx = Some t ∧ id t = key.
Proof.
  intros Hget%JsMap_get_Some_elem_of%JsMap_of_entries_elem_of.
  apply list_elem_of_lookup in Hget as [i Hi].
  rewrite list_lookup_imap in Hi.
  destruct (ts !! i) as [t|] eqn:Ht; simplify_eq/=. by exists t.
Qed.

Lemma tableIndex_get_None (ts : list BossTable) key :
  key ∉ id <$> ts → JsMap.get key (tableIndex ts) = None.
Proof.
  intros Hkey. destruct (JsMap.get _ _) as [idx|] eqn:Hget; [|done].
  apply tableIndex_get_Some in Hget as (t & Ht & <-).
  destruct Hkey. apply list_elem_of_fmap. exists t. split; [done|].
  by eapply list_elem_of_lookup_2.
Qed.

Lemma applyChoice_shape choices index result c :
  shape <$> applyChoice choices index result c = shape <$> result.
Proof.
  unfold applyChoice.
  destruct (JsMap.get _ _) as [idx|]; [|done].
  destruct (result !! idx) as [table|] eqn:Htable; [|done].
  destruct (list_find _ _) as [[channelIdx ch]|]; [|done].
  rewrite list_fmap_insert. apply list_insert_id.
  rewrite list_lookup_fmap, Htable. unfold shape. simpl.
  by rewrite length_insert.
Qed.

Lemma shape_id (ts ts' : list BossTable) : shape <$> ts = shape <$> ts' → id <$> ts = id <$> ts'.
Proof.
  intros Hshape.
  assert (∀ l : list BossTable, id <$> l = (λ s, s.1.1.1.1) <$> (shape <$> l)) as Hid.
  { intros l. rewrite <-list_fmap_compose. done. }
  by rewrite !Hid, Hshape.
Qed.

(** A conflict whose table holds the [mine] side, resolved for [mine]. *)
Lemma applyChoice_settled choices (ts : list BossTable) c :
  NoDup (id <$> ts) → Forall tableInvariant ts → settled ts c →
  choices !! MergeConflict.id c ≠ Some theirs_choice →
  applyChoice choices (tableIndex ts) ts c = ts.
Proof.
  intros Hnodup Hinv (i & t & Hi & Hid & Hk & Hmine & _) Hchoice.
  unfold applyChoice.
  rewrite <-Hid, (tableIndex_get_NoDup ts i) by done. rewrite Hi.
  rewrite Forall_forall in Hinv.
  destruct (Hinv t) as (_ & Hlab & _); [by eapply list_elem_of_lookup_2|].
  assert (list_find (λ c0, channel c0 = MergeConflict.channel c) (channels t) =
            Some (Z.to_nat (MergeConflict.channel c - 1), MergeConflict.mine c)) as ->.
  { apply list_find_Some. split_and!; [done|..].
    - destruct (labelled_lookup _ _ _ _ Hlab Hmine). lia.
    - intros j c0 Hj Hlt. destruct (labelled_lookup _ _ _ _ Hlab Hj). lia. }
  assert (default mine_choice (choices !! MergeConflict.id c) = mine_choice) as ->.
  { by destruct (choices !! MergeConflict.id c) as [[]|]. }
  rewrite cloneChannel_id, (list_insert_id (channels t)) by done.
  apply list_insert_id. rewrite Hi. by destruct t.
Qed.

(** A channel that the conflict does not name stays where it is. *)
Lemma applyChoice_untouched choices index result c (i k : nat) t ch :
  (∀ key (idx : nat), JsMap.get key index = Some idx →
                      ∃ t0, result !! idx = Some t0 ∧ id t0 = key) →
  result !! i = Some t → channels t !! k = Some ch →
  ¬ (MergeConflict.tableId c = id t ∧ MergeConflict.channel c = channel ch) →
  ∃ t', applyChoice choices index result c !! i = Some t' ∧ id t' = id t ∧
        channels t' !! k = Some ch.
Proof.
  intros Hindex Hi Hk Hnamed. unfold applyChoice.
  destruct (JsMap.get _ _) as [idx|] eqn:Hget; [|by exists t].
  destruct (Hindex _ _ Hget) as (t0 & Hidx & Hid0). rewrite Hidx.
  destruct (list_find _ _) as [[channelIdx ch0]|] eqn:Hfind; [|by exists t].
  destruct (decide (idx = i)) as [->|Hne].
  - simplify_eq. eexists. split; [apply list_lookup_insert_eq; by eapply lookup_lt_Some|].
    split; [done|]. simpl.
    apply list_find_Some in Hfind as (Hch0 & Hnum & _).
    rewrite list_lookup_insert_ne; [done|]. intros ->. simplify_eq. by destruct Hnamed.
  - exists t. by rewrite list_lookup_insert_ne.
Qed.

(** * Properties of the merge engine and of the conflict resolver *)

(** X1. [buildMergePreview] keeps the existing tables where they are, each
    with its id, boss name and creation time (the headers of the existing
    tables are a prefix of the headers of the merged ones), and the merged
    collection has at most one more table per imported table. *)
Theorem merge_keeps_existing_headers generateTableId fuel draws existing imported preview :
  buildMergePreview generateTableId fuel draws existing imported = Some preview →
  header <$> existing `prefix_of` header <$> mergedTables preview ∧
  (length (mergedTables preview) ≤ length existing + length imported)%nat.
Proof.
  rewrite buildMergePreview_unfold. intros Hrun.
  destruct (mergeAll _ _ _ _) as [st|] eqn:Hall; simplify_eq/=.
  by apply mergeAll_headers in Hall.
Qed.

Lemma merge_keeps_existing_headers_witness :
  ∃ preview,
    buildMergePreview sampleIds 0 0 twoBosses sameBossTwice = Some preview ∧
    header <$> twoBosses `prefix_of` header <$> mergedTables preview ∧
    (length (mergedTables preview) ≤ length twoBosses + length sameBossTwice)%nat.
Proof.
  eexists. split; [vm_compute; reflexivity|].
  apply (merge_keeps_existing_headers sampleIds 0%nat 0%nat twoBosses sameBossTwice).
  vm_compute. reflexivity.
Defined.

(** X2. The boss names of the merged tables are those of the existing and of
    the imported tables, and when no two existing tables share a boss name,
    no two merged tables do. *)
Theorem merge_bossNames generateTableId fuel draws existing imported preview :
  buildMergePreview generateTableId fuel draws existing imported = Some preview →
  (∀ name, name ∈ bossName <$> mergedTables preview ↔
           name ∈ bossName <$> existing ∨ name ∈ bossName <$> imported) ∧
  (NoDup (bossName <$> existing) → NoDup (bossName <$> mergedTables preview)).
Proof.
  rewrite buildMergePreview_unfold. intros Hrun.
  destruct (mergeAll _ _ _ _) as [st|] eqn:Hall; simplify_eq/=.
  apply mergeAll_bossNames in Hall as [Hnodup Hnames]. by split.
Qed.

Lemma merge_bossNames_witness :
  ∃ preview,
    buildMergePreview sampleIds 0 0 twoBosses sameBossTwice = Some preview ∧
    (∀ name, name ∈ bossName <$> mergedTables preview ↔
             name ∈ bossName <$> twoBosses ∨ name ∈ bossName <$> sameBossTwice) ∧
    (NoDup (bossName <$> twoBosses) → NoDup (bossName <$> mergedTables preview)).
Proof.
  eexists. split; [vm_compute; reflexivity|].
  apply (merge_bossNames sampleIds 0%nat 0%nat twoBosses sameBossTwice).
  vm_compute. reflexivity.
Defined.

(** X3. A merge never loses or overwrites a local timer: when the existing
    and the imported tables satisfy the invariant of the data model, a
    channel of an existing table that holds timer data is in the merged
    table of the same position and id, at the same index, unchanged. *)
Theorem merge_keeps_local_timers generateTableId fuel draws existing imported preview
    (i : nat) e (k : nat) c :
  Forall tableInvariant existing → Forall tableInvariant imported →
  buildMergePreview generateTableId fuel draws existing imported = Some preview →
  existing !! i = Some e → channels e !! k = Some c → hasTimer c = true →
  ∃ e', mergedTables preview !! i = Some e' ∧ id e' = id e ∧ channels e' !! k = Some c.
Proof.
  intros Hexisting Himported. rewrite buildMergePreview_unfold. intros Hrun Hi Hk Hc.
  destruct (mergeAll _ _ _ _) as [st|] eqn:Hall; simplify_eq/=.
  destruct (mergeAll_keepsTimers _ _ _ _ _ i e Hall) as (e' & Hi' & Hid & Hkeeps);
    [done..|].
  exists e'. split_and!; [done..|]. by apply Hkeeps.
Qed.

Lemma merge_keeps_local_timers_witness :
  ∃ preview e',
    buildMergePreview sampleIds 0 0 twoBosses sameBossTwice = Some preview ∧
    mergedTables preview !! 0%nat = Some e' ∧ id e' = "a" ∧
    channels e' !! 0%nat = Some (timed 1 100).
Proof.
  destruct (buildMergePreview sampleIds 0 0 twoBosses sameBossTwice) as [preview|] eqn:Hrun;
    [|vm_compute in Hrun; discriminate].
  exists preview.
  destruct (merge_keeps_local_timers sampleIds 0%nat 0%nat twoBosses sameBossTwice preview
              0%nat (sampleTable "a" "Zakum" [timed 1 100; emptyChannel 2])
              0%nat (timed 1 100)) as (e' & Hi & Hid & Hk).
  - apply (bool_decide_unpack _). vm_compute. exact I.
  - apply (bool_decide_unpack _). vm_compute. exact I.
  - exact Hrun.
  - reflexivity.
  - reflexivity.
  - reflexivity.
  - exists e'. split_and!; [reflexivity|exact Hi|exact Hid|exact Hk].
Defined.

(** X4. The default choices of a preview are exactly its conflicts, each
    resolved for the local side: the conflict ids are pairwise distinct,
    [defaultChoices] has one entry per conflict, and it maps a key to
    ['mine'] when the key is a conflict id and to nothing otherwise. *)
Theorem defaultChoices_all_mine generateTableId fuel draws existing imported preview :
  buildMergePreview generateTableId fuel draws existing imported = Some preview →
  NoDup (MergeConflict.id <$> conflicts preview) ∧
  size (defaultChoices preview) = length (conflicts preview) ∧
  ∀ key, defaultChoices preview !! key =
           if decide (key ∈ MergeConflict.id <$> conflicts preview)
           then Some mine_choice else None.
Proof.
  rewrite buildMergePreview_unfold. intros Hrun.
  destruct (mergeAll _ _ _ _) as [st|] eqn:Hall; simplify_eq/=.
  pose proof (mergeAll_defaults _ _ _ _ _ Hall eq_refl) as Hdefaults.
  assert (NoDup (MergeConflict.id <$> ms_conflicts st)) as Hnodup.
  { apply positions_NoDup. eapply mergeAll_positions; [done|]. by intros j c. }
  rewrite Hdefaults. split_and!; [done|by apply withDefaults_size|].
  intros key. by rewrite withDefaults_lookup, lookup_empty.
Qed.

Lemma defaultChoices_all_mine_witness :
  ∃ preview,
    buildMergePreview sampleIds 0 0 twoBosses sameBossTwice = Some preview ∧
    MergeConflict.id <$> conflicts preview = ["a:1:0"] ∧
    size (defaultChoices preview) = 1%nat ∧
    defaultChoices preview !! "a:1:0" = Some mine_choice.
Proof.
  destruct (buildMergePreview sampleIds 0 0 twoBosses sameBossTwice) as [preview|] eqn:Hrun;
    [|vm_compute in Hrun; discriminate].
  exists preview.
  destruct (defaultChoices_all_mine sampleIds 0%nat 0%nat twoBosses sameBossTwice preview Hrun)
    as (_ & Hsize & Hlookup).
  assert (MergeConflict.id <$> conflicts preview = ["a:1:0"]) as Hids.
  { vm_compute in Hrun. injection Hrun as <-. reflexivity. }
  split_and!; [reflexivity|exact Hids| |].
  - rewrite Hsize, <-(length_fmap MergeConflict.id), Hids. reflexivity.
  - rewrite (Hlookup "a:1:0"), Hids. reflexivity.
Defined.

(** What the preview of a merge of well-formed collections holds. *)
Lemma buildMergePreview_settled generateTableId fuel draws existing imported preview :
  Forall tableInvariant existing → Forall tableInvariant imported →
  NoDup (id <$> existing) →
  buildMergePreview generateTableId fuel draws existing imported = Some preview →
  NoDup (id <$> mergedTables preview) ∧
  Forall tableInvariant (mergedTables preview) ∧
  Forall (settled (mergedTables preview)) (conflicts preview) ∧
  defaultChoices preview = withDefaults ∅ (conflicts preview).
Proof.
  intros Hexisting Himported Hids. rewrite buildMergePreview_unfold. intros Hrun.
  destruct (mergeAll _ _ _ _) as [st|] eqn:Hall; simplify_eq/=.
  split_and!.
  - eapply mergeAll_idsTracked; [done|]. by apply initialState_idsTracked.
  - by eapply mergeAll_invariant.
  - eapply mergeAll_settled; [done..|]. simpl. constructor.
  - by apply (mergeAll_defaults _ _ _ _ _ Hall).
Qed.

(** Conflicts that the merged tables already settle for the local side,
    resolved for the local side. *)
Lemma applyMergeChoices_settled preview choices :
  NoDup (id <$> mergedTables preview) →
  Forall tableInvariant (mergedTables preview) →
  Forall (settled (mergedTables preview)) (conflicts preview) →
  Forall (λ c, choices !! MergeConflict.id c ≠ Some theirs_choice) (conflicts preview) →
  applyMergeChoices preview choices = mergedTables preview.
Proof.
  intros Hnodup Hinv Hsettled Hchoices. unfold applyMergeChoices.
  rewrite cloneTables_id. fold (tableIndex (mergedTables preview)).
  induction Hsettled as [|c cs Hc Hcs IH]; [done|].
  apply Forall_cons in Hchoices as [Hchoice Hchoices]. simpl.
  rewrite applyChoice_settled by done. by apply IH.
Qed.

Lemma withDefaults_mine cs :
  Forall (λ c, withDefaults ∅ cs !! MergeConflict.id c ≠ Some theirs_choice) cs.
Proof.
  apply Forall_forall. intros c Hc.
  rewrite withDefaults_lookup, decide_True; [done|]. by apply list_elem_of_fmap_2.
Qed.

(** X5. Resolving every conflict of a preview for the local side returns the
    merged tables of the preview: when the existing tables have distinct ids
    and both sides satisfy the invariant, [applyMergeChoices] with choices
    that pick ['theirs'] for no conflict of the preview (the default choices,
    or no choices at all, among them) is [mergedTables]. *)
Theorem applyMergeChoices_mine generateTableId fuel draws existing imported preview :
  Forall tableInvariant existing → Forall tableInvariant imported →
  NoDup (id <$> existing) →
  buildMergePreview generateTableId fuel draws existing imported = Some preview →
  (∀ choices,
     Forall (λ c, choices !! MergeConflict.id c ≠ Some theirs_choice) (conflicts preview) →
     applyMergeChoices preview choices = mergedTables preview) ∧
  applyMergeChoices preview (defaultChoices preview) = mergedTables preview ∧
  applyMergeChoices preview ∅ = mergedTables preview.
Proof.
  intros Hexisting Himported Hids Hrun.
  destruct (buildMergePreview_settled _ _ _ _ _ _ Hexisting Himported Hids Hrun)
    as (Hnodup & Hinv & Hsettled & Hdefaults).
  split_and!.
  - intros choices Hchoices. by apply applyMergeChoices_settled.
  - apply applyMergeChoices_settled; [done..|]. rewrite Hdefaults.
    apply withDefaults_mine.
  - apply applyMergeChoices_settled; [done..|].
    apply Forall_forall. intros c _. by rewrite lookup_empty.
Qed.

Lemma applyMergeChoices_mine_witness :
  ∃ preview,
    buildMergePreview sampleIds 0 0 twoBosses sameBossTwice = Some preview ∧
    applyMergeChoices preview {["a:1:0" := mine_choice]} = mergedTables preview ∧
    applyMergeChoices preview (defaultChoices preview) = mergedTables preview ∧
    applyMergeChoices preview ∅ = mergedTables preview.
Proof.
  destruct (buildMergePreview sampleIds 0 0 twoBosses sameBossTwice) as [preview|] eqn:Hrun;
    [|vm_compute in Hrun; discriminate].
  exists preview.
  destruct (applyMergeChoices_mine sampleIds 0%nat 0%nat twoBosses sameBossTwice preview)
    as (Hgeneral & Hdefault & Hempty).
  - apply (bool_decide_unpack _). vm_compute. exact I.
  - apply (bool_decide_unpack _). vm_compute. exact I.
  - apply (bool_decide_unpack _). vm_compute. exact I.
  - exact Hrun.
  - split_and!; [reflexivity| |exact Hdefault|exact Hempty].
    apply Hgeneral. vm_compute in Hrun. injection Hrun as <-.
    apply (bool_decide_unpack _). vm_compute. exact I.
Defined.

(** X6. Whatever the preview and the choices, [applyMergeChoices] returns as
    many tables as [mergedTables], each with the id, boss name, channel
    count, creation time and number of channels of the table of the same
    position: resolving conflicts only replaces channel entries. *)
Theorem applyMergeChoices_keeps_shape preview choices :
  shape <$> applyMergeChoices preview choices = shape <$> mergedTables preview.
Proof.
  unfold applyMergeChoices. rewrite cloneTables_id.
  generalize (JsMap.of_entries (imap (λ index table, (id table, index))
                                     (mergedTables preview))).
  intros index. generalize (mergedTables preview). induction (conflicts preview) as [|c cs IH]; intros result; [done|].
  simpl. by rewrite IH, applyChoice_shape.
Qed.

(** X7. [applyMergeChoices] leaves alone every channel that no conflict
    names: a channel of a merged table is in the resolved table of the same
    position, at the same index, when no conflict of the preview carries the
    id of the table together with the number of the channel. *)
Theorem applyMergeChoices_untouched preview choices (i k : nat) t ch :
  mergedTables preview !! i = Some t → channels t !! k = Some ch →
  Forall (λ c, ¬ (MergeConflict.tableId c = id t ∧ MergeConflict.channel c = channel ch))
         (conflicts preview) →
  ∃ t', applyMergeChoices preview choices !! i = Some t' ∧ id t' = id t ∧
        channels t' !! k = Some ch.
Proof.
  unfold applyMergeChoices. rewrite cloneTables_id.
  fold (tableIndex (mergedTables preview)).
  pose proof (tableIndex_get_Some (mergedTables preview)) as Hindex.
  revert Hindex. generalize (tableIndex (mergedTables preview)). intros index.
  assert (id <$> mergedTables preview = id <$> mergedTables preview) as Hids by done.
  revert Hids. generalize (mergedTables preview) at 1 4 5. intros result.
  revert result t. induction (conflicts preview) as [|c cs IH];
    intros result t Hids Hindex Hi Hk Hcs.
  { by exists t. }
  apply Forall_cons in Hcs as [Hc Hcs]. simpl.
  destruct (applyChoice_untouched choices index result c i k t ch)
    as (t1 & Hi1 & Hid1 & Hk1); [|done..|].
  { intros key idx Hget. destruct (Hindex _ _ Hget) as (t0 & Ht0 & Hkey).
    assert ((id <$> result) !! idx = Some key) as Hlookup.
    { by rewrite Hids, list_lookup_fmap, Ht0; simpl; f_equal. }
    rewrite list_lookup_fmap in Hlookup.
    destruct (result !! idx) as [t0'|]; simplify_eq/=. by exists t0'. }
  destruct (IH (applyChoice choices index result c) t1) as (t' & Hi' & Hid' & Hk');
    [|done..| |].
  - rewrite <-Hids. apply shape_id, applyChoice_shape.
  - by rewrite Hid1.
  - exists t'. split_and!; [done|congruence|done].
Qed.

Lemma applyMergeChoices_untouched_witness :
  ∃ t', applyMergeChoices mislabelledPreview {["a:2:0" := theirs_choice]} !! 0%nat = Some t' ∧
        id t' = "a" ∧ channels t' !! 2%nat = Some (emptyChannel 3).
Proof.
  apply (applyMergeChoices_untouched mislabelledPreview {["a:2:0" := theirs_choice]}
           0%nat 2%nat threeChannels (emptyChannel 3)).
  - reflexivity.
  - reflexivity.
  - apply (bool_decide_unpack _). vm_compute. exact I.
Defined.

(** X8. A conflict that names a table which is not among the merged tables
    is skipped: when every conflict of a preview is such, the resolved
    tables are the merged tables, whatever the choices. *)
Theorem applyMergeChoices_unknown_table preview choices :
  Forall (λ c, MergeConflict.tableId c ∉ id <$> mergedTables preview) (conflicts preview) →
  applyMergeChoices preview choices = mergedTables preview.
Proof.
  unfold applyMergeChoices. rewrite cloneTables_id.
  fold (tableIndex (mergedTables preview)).
  induction 1 as [|c cs Hc Hcs IH]; [done|]. simpl.
  unfold applyChoice at 2. by rewrite tableIndex_get_None.
Qed.

Lemma applyMergeChoices_unknown_table_witness :
  applyMergeChoices stalePreview {["gone:2:0" := theirs_choice]} = [threeChannels].
Proof.
  apply (applyMergeChoices_unknown_table stalePreview {["gone:2:0" := theirs_choice]}).
  apply (bool_decide_unpack _). vm_compute. exact I.
Defined.

(** Tables of bosses that the collection does not track yet, with unused
    ids, are appended as they are. *)
Lemma mergeAll_new generateTableId fuel st ts :
  NoDup (bossName <$> ts) → NoDup (id <$> ts) →
  Forall (λ t, (bossName t ∉ bossName <$> ms_mergedTables st) ∧ id t ∉ ms_usedIds st) ts →
  ∃ st', mergeAll generateTableId fuel st ts = Some st' ∧
         ms_mergedTables st' = ms_mergedTables st ++ ts ∧
         ms_conflicts st' = ms_conflicts st ∧
         ms_defaultChoices st' = ms_defaultChoices st.
Proof.
  revert st. induction ts as [|t ts IH]; intros st Hnames Hids Hnew.
  { exists st. by rewrite app_nil_r. }
  rewrite fmap_cons in Hnames, Hids.
  apply NoDup_cons in Hnames as [Hname Hnames]. apply NoDup_cons in Hids as [Hid Hids].
  apply Forall_cons in Hnew as [[Hnew_name Hnew_id] Hnew]. cbn [mergeAll].
  rewrite mergeImported_unfold.
  assert (list_find (λ table, bossName table = bossName t) (ms_mergedTables st) = None) as ->.
  { apply list_find_None, Forall_forall. intros t0 Ht0 Heq. apply Hnew_name.
    rewrite <-Heq. by apply list_elem_of_fmap_2. }
  unfold ensureUniqueId. rewrite decide_True by done. cbn [mbind option_bind].
  assert (withId t (id t) = t) as -> by (by destruct t).
  match goal with
  | |- context [mergeAll _ _ ?st1 _] =>
      destruct (IH st1 Hnames Hids) as (st' & Hrun & Htables & Hconflicts & Hdefaults);
        [|exists st'; split; [exact Hrun|]; simpl in *;
          by rewrite Htables, <-app_assoc]
  end.
  simpl. rewrite Forall_forall in Hnew. apply Forall_forall. intros t' Ht'.
  destruct (Hnew t' Ht') as [Hname' Hid']. split.
  - rewrite fmap_app. intros [?|Heq%list_elem_of_singleton]%elem_of_app; [done|].
    apply Hname. rewrite <-Heq. by apply list_elem_of_fmap_2.
  - intros [Heq%elem_of_singleton|?]%elem_of_union; [|done].
    apply Hid. rewrite <-Heq. by apply list_elem_of_fmap_2.
Qed.

(** X9. One imported table whose boss is tracked is merged, channel by
    channel, into the first existing table of this boss, which keeps its
    place, id, name and creation time.  The merged table has the larger of
    the two channel counts, clamped; its channel [k] is the local one when
    that holds timer data, else the imported one when that holds timer data,
    else empty; and the conflicts are, in increasing order, the channels on
    which both sides hold timer data with different signatures, each
    conflict carrying the id and name of the table and the two sides. *)
Theorem merge_one_tracked_boss generateTableId fuel draws existing t (i : nat) e :
  list_find (λ table, bossName table = bossName t) existing = Some (i, e) →
  let mine := channelAt (channelIndex (channels e)) in
  let theirs := channelAt (channelIndex (channels t)) in
  ∃ preview e',
    buildMergePreview generateTableId fuel draws existing [t] = Some preview ∧
    mergedTables preview = <[i := e']> existing ∧
    header e' = header e ∧
    channelsCount e' = mergedCountOf e t ∧
    channels e' = (λ k, mergedChannel (mine k) (theirs k) k) <$> seqZ 1 (mergedCountOf e t) ∧
    MergeConflict.channel <$> conflicts preview =
      filter (λ k, inConflict (mine k) (theirs k) = true) (seqZ 1 (mergedCountOf e t)) ∧
    Forall (λ c, MergeConflict.tableId c = id e ∧ MergeConflict.bossName c = bossName e ∧
                 MergeConflict.mine c = mine (MergeConflict.channel c) ∧
                 MergeConflict.theirs c = theirs (MergeConflict.channel c))
           (conflicts preview).
Proof.
  intros Hfind mine theirs. rewrite buildMergePreview_unfold. cbn [mergeAll].
  rewrite mergeImported_unfold. cbn [initialState ms_mergedTables]. rewrite Hfind.
  rewrite channelLoop_closed. cbn [mbind option_bind fmap option_fmap option_map fst snd].
  eexists _, _. split; [reflexivity|]. cbn [previewOf mergedTables conflicts ms_mergedTables
    ms_conflicts initialState app length].
  split_and!; [reflexivity..|apply newConflicts_channels|].
  apply Forall_forall. intros c Hc.
  apply newConflicts_elem_of in Hc as (k & p & _ & _ & ->). done.
Qed.

Lemma merge_one_tracked_boss_witness :
  ∃ preview e',
    buildMergePreview sampleIds 0 0 twoBosses
      [sampleTable "b" "Zakum" [timed 1 200; timed 2 300]] = Some preview ∧
    mergedTables preview = <[0%nat := e']> twoBosses ∧
    header e' = ("a", "Zakum", Finite (FInt 1700000000000)) ∧
    channelsCount e' = 2 ∧
    channels e' = [timed 1 100; timed 2 300] ∧
    MergeConflict.channel <$> conflicts preview = [1].
Proof.
  destruct (merge_one_tracked_boss sampleIds 0%nat 0%nat twoBosses
              (sampleTable "b" "Zakum" [timed 1 200; timed 2 300])
              0%nat (sampleTable "a" "Zakum" [timed 1 100; emptyChannel 2]))
    as (preview & e' & Hrun & Hmerged & Hheader & Hcount & Hchannels & Hconflicts & _).
  - vm_compute. reflexivity.
  - exists preview, e'.
    split_and!; [exact Hrun|exact Hmerged|exact Hheader|exact Hcount|
                 exact Hchannels|exact Hconflicts].
Defined.

(** X10. Imported tables of bosses that are not tracked yet, with distinct
    boss names and with distinct ids that no existing table uses, are
    appended to the existing tables as they are, in their order, without a
    conflict and without a draw of the id generator. *)
Theorem merge_new_bosses_appended generateTableId fuel draws existing imported :
  NoDup (bossName <$> imported) → NoDup (id <$> imported) →
  Forall (λ t, (bossName t ∉ bossName <$> existing) ∧ id t ∉ id <$> existing) imported →
  buildMergePreview generateTableId fuel draws existing imported =
    Some {| mergedTables := existing ++ imported; conflicts := []; defaultChoices := ∅ |}.
Proof.
  intros Hnames Hids Hnew. rewrite buildMergePreview_unfold.
  destruct (mergeAll_new generateTableId fuel (initialState existing draws) imported)
    as (st' & -> & Htables & Hconflicts & Hdefaults); [done..| |].
  - simpl. eapply Forall_impl; [exact Hnew|]. simpl. intros t [? ?]. split; [done|].
    by rewrite elem_of_list_to_set.
  - simpl. unfold previewOf. by rewrite Htables, Hconflicts, Hdefaults.
Qed.

Lemma merge_new_bosses_appended_witness :
  buildMergePreview sampleIds 0 0 existingA newBosses =
    Some {| mergedTables := existingA ++ newBosses; conflicts := []; defaultChoices := ∅ |}.
Proof.
  apply (merge_new_bosses_appended sampleIds 0%nat 0%nat existingA newBosses).
  - apply (bool_decide_unpack _). vm_compute. exact I.
  - apply (bool_decide_unpack _). vm_compute. exact I.
  - apply (bool_decide_unpack _). vm_compute. exact I.
Defined.

(** * Properties of [ensureUniqueId] *)

Lemma drawUnusedId_first generateTableId fuel (existingIds : gset string) draws (j : nat) :
  (j < fuel)%nat →
  (∀ j', (j' < j)%nat → generateTableId (draws + j')%nat ∈ existingIds) →
  generateTableId (draws + j)%nat ∉ existingIds →
  drawUnusedId generateTableId fuel existingIds draws =
    Some (generateTableId (draws + j)%nat, S (draws + j)).
Proof.
  revert draws j. induction fuel as [|fuel IH]; intros draws j Hj Hused Hfresh; [lia|].
  simpl. destruct j as [|j].
  - rewrite Nat.add_0_r in *. by rewrite decide_False.
  - rewrite decide_True.
    + rewrite (IH (S draws) j); [|lia| |].
      * by replace (S draws + j)%nat with (draws + S j)%nat by lia.
      * intros j' Hj'. replace (S draws + j')%nat with (draws + S j')%nat by lia.
        apply Hused. lia.
      * by replace (S draws + j)%nat with (draws + S j)%nat by lia.
    + specialize (Hused 0%nat). rewrite Nat.add_0_r in Hused. apply Hused. lia.
Qed.

(** X11. When the preferred id is taken, [ensureUniqueId] returns the first
    generated id that is not in the set, after as many draws as it took to
    reach it, and adds this id to the set. *)
Theorem ensureUniqueId_first_unused generateTableId fuel existingIds preferredId draws
    (j : nat) :
  preferredId ∈ existingIds → (j < fuel)%nat →
  (∀ j', (j' < j)%nat → generateTableId (draws + j')%nat ∈ existingIds) →
  generateTableId (draws + j)%nat ∉ existingIds →
  ensureUniqueId generateTableId fuel existingIds preferredId draws =
    Some (generateTableId (draws + j)%nat,
          {[generateTableId (draws + j)%nat]} ∪ existingIds,
          S (draws + j)).
Proof.
  intros Htaken Hj Hused Hfresh. unfold ensureUniqueId.
  rewrite decide_False by (by intros []).
  by rewrite (drawUnusedId_first _ _ _ _ j).
Qed.

Lemma ensureUniqueId_first_unused_witness :
  ensureUniqueId sampleIds 3 {["a"; "generated-0"]} "a" 0 =
    Some ("generated-1", {["generated-1"]} ∪ {["a"; "generated-0"]}, 2%nat).
Proof.
  apply (ensureUniqueId_first_unused sampleIds 3%nat {["a"; "generated-0"]} "a" 0%nat 1%nat).
  - apply (bool_decide_unpack _). vm_compute. exact I.
  - lia.
  - intros j' Hj'. assert (j' = 0%nat) as -> by lia.
    apply (bool_decide_unpack _). vm_compute. exact I.
  - intros Hin. apply (bool_decide_pack _) in Hin. vm_compute in Hin. exact Hin.
Defined.

(** X12. The id that [ensureUniqueId] returns is never in the set it was
    given; the set returned is the given one with this id added; and the id
    is the preferred one, without a draw, exactly when the preferred one was
    not in the set. *)
Theorem ensureUniqueId_unused generateTableId fuel existingIds preferredId draws
    uniqueId existingIds' draws' :
  ensureUniqueId generateTableId fuel existingIds preferredId draws =
    Some (uniqueId, existingIds', draws') →
  (uniqueId ∉ existingIds) ∧
  existingIds' = {[uniqueId]} ∪ existingIds ∧
  (uniqueId = preferredId ↔ preferredId ∉ existingIds) ∧
  (preferredId ∉ existingIds → draws' = draws) ∧
  (preferredId ∈ existingIds → (draws < draws' ≤ draws + fuel)%nat).
Proof.
  unfold ensureUniqueId. case_decide as Hpreferred; intros Hrun; simplify_eq/=.
  - do 4 (split; [done|]). by intros ?.
  - destruct (drawUnusedId _ _ _ _) as [[i d]|] eqn:Hdraw; simplify_eq/=.
    apply drawUnusedId_Some in Hdraw as [Hfresh Hdraws].
    do 2 (split; [done|]). split; [|by split].
    split; [by intros ->|done].
Qed.

Lemma ensureUniqueId_unused_witness :
  ("generated-0" ∉ ({["a"]} : gset string)) ∧
  ({["generated-0"]} ∪ {["a"]} : gset string) = {["generated-0"]} ∪ {["a"]} ∧
  ("generated-0" = "a" ↔ "a" ∉ ({["a"]} : gset string)) ∧
  ("a" ∉ ({["a"]} : gset string) → 1%nat = 0%nat) ∧
  ("a" ∈ ({["a"]} : gset string) → (0 < 1 ≤ 0 + 3)%nat).
Proof.
  apply (ensureUniqueId_unused sampleIds 3%nat {["a"]} "a" 0%nat
           "generated-0" ({["generated-0"]} ∪ {["a"]}) 1%nat).
  vm_compute. reflexivity.
Defined.

(** * Properties of the normaliser *)

Lemma normalizeTable_None Date_now table index ws clk :
  acceptedName table = None →
  normalizeTable Date_now table index ws clk =
    (None,
     ws ++ [if isObject table then SkippedMissingBossName (index + 1)
            else SkippedNotObject (index + 1)],
     clk).
Proof.
  unfold acceptedName, normalizeTable, blank.
  destruct (isObject table); [|done]. simpl.
  destruct (getField table "bossName") as [[| | |name| |]|]; try done.
  case_decide; [intros _; by rewrite decide_True|done].
Qed.

Lemma acceptedName_Some table name :
  acceptedName table = Some name ↔
  isObject table = true ∧ getField table "bossName" = Some (JStr name) ∧ ¬ blank name.
Proof.
  unfold acceptedName. destruct (isObject table); [|naive_solver].
  destruct (getField table "bossName") as [[| | |name'| |]|]; try naive_solver.
  case_decide; naive_solver.
Qed.

Lemma acceptedName_None table :
  acceptedName table = None ↔
  isObject table = false ∨
  ∀ name, getField table "bossName" = Some (JStr name) → blank name.
Proof.
  unfold acceptedName. destruct (isObject table); [|naive_solver].
  destruct (getField table "bossName") as [[| | |name'| |]|]; try naive_solver.
  case_decide; naive_solver.
Qed.

Lemma skippedAt_clampWarning table name : omap skippedAt (clampWarning table name) = [].
Proof.
  unfold clampWarning. destruct (getField _ _) as [[|?|[[]| | |]|?|?|?]|]; try done;
    by case_decide.
Qed.

Lemma skippedAt_rebuildWarning name cs count :
  omap skippedAt (rebuildWarning name cs count) = [].
Proof. unfold rebuildWarning. by case_decide. Qed.

(** X13. [normalizeTable] returns [null] exactly for a value that is not an
    object or whose [bossName] is not a string with a character other than
    white space; it then pushes one warning, which carries the 1-based
    position of the table and tells which of the two it was, and does not
    read the clock. *)
Theorem normalizeTable_rejects Date_now table index warnings clk :
  let run := normalizeTable Date_now table index warnings clk in
  (run.1.1 = None ↔
     isObject table = false ∨
     ∀ name, getField table "bossName" = Some (JStr name) → blank name) ∧
  (run.1.1 = None →
     run = (None,
            warnings ++ [if isObject table then SkippedMissingBossName (index + 1)
                         else SkippedNotObject (index + 1)],
            clk)).
Proof.
  intros run. subst run.
  destruct (acceptedName table) as [name|] eqn:Haccepted.
  - pose proof Haccepted as (Hobject & Hname & Hblank)%acceptedName_Some.
    rewrite (normalizeTable_accepted Date_now table index warnings clk name) by done.
    simpl. split; [|done]. split; [done|].
    intros [Hno|Hno]; [congruence|]. destruct Hblank. by apply Hno.
  - rewrite (normalizeTable_None _ _ _ _ _ Haccepted). simpl. split; [|done].
    split; [|done]. intros _. by apply acceptedName_None.
Qed.

Lemma normalizeTables_cons Date_now table rest index ws clk :
  normalizeTables Date_now (table :: rest) index ws clk =
    let run := normalizeTable Date_now table index ws clk in
    let others := normalizeTables Date_now rest (S index) run.1.2 run.2 in
    (match run.1.1 with Some t => t :: others.1.1 | None => others.1.1 end,
     others.1.2, others.2).
Proof.
  simpl. destruct (normalizeTable _ _ _ _ _) as [[normalized ws1] clk1].
  by destruct (normalizeTables _ _ _ _ _) as [[others ws2] clk2].
Qed.

Lemma normalizeTables_normalForm Date_now rawTables index ws clk :
  Forall normalForm (normalizeTables Date_now rawTables index ws clk).1.1.
Proof.
  revert index ws clk. induction rawTables as [|table rest IH]; intros index ws clk.
  { constructor. }
  rewrite normalizeTables_cons. simpl.
  destruct (normalizeTable Date_now table index ws clk) as [[[t|] ws1] clk1] eqn:Hrun;
    simpl; [|apply IH].
  constructor; [|apply IH]. by eapply normalizeTable_normalForm.
Qed.

(** X14. The tables that an import returns are the accepted raw tables in
    their order, each under its raw boss name; the other raw tables are
    skipped, one warning each, which carries the position of the table
    counted from 1; so the returned tables and the skip warnings add up to
    the raw tables. *)
Theorem normalizeTables_keeps_order Date_now rawTables index warnings clk :
  let run := normalizeTables Date_now rawTables index warnings clk in
  bossName <$> run.1.1 = omap acceptedName rawTables ∧
  ∃ pushed,
    run.1.2 = warnings ++ pushed ∧
    (length run.1.1 + length (omap skippedAt pushed) = length rawTables)%nat ∧
    ∀ position,
      position ∈ omap skippedAt pushed ↔
      ∃ (j : nat) table, rawTables !! j = Some table ∧ acceptedName table = None ∧
                         position = (index + j + 1)%nat.
Proof.
  revert index warnings clk.
  induction rawTables as [|table rest IH]; intros index ws clk.
  { simpl. split; [done|]. exists []. rewrite app_nil_r. split_and!; [done..|].
    intros position. split; [by intros ?%elem_of_nil|]. by intros (j & t & ? & _). }
  rewrite normalizeTables_cons. cbn zeta.
  destruct (acceptedName table) as [name|] eqn:Haccepted.
  - pose proof Haccepted as (Hobject & Hname & Hblank)%acceptedName_Some.
    rewrite (normalizeTable_accepted Date_now table index ws clk name) by done.
    cbn [fst snd].
    match goal with
    | |- context [normalizeTables _ _ _ ?ws1 ?clk1] =>
        destruct (IH (S index) ws1 clk1) as (Hnames & pushed & Hws & Hcount & Hskipped)
    end.
    split.
    { rewrite fmap_cons. cbn [omap list_omap]. rewrite Haccepted. simpl.
      by rewrite Hnames. }
    eexists. split; [rewrite Hws, <-!app_assoc; reflexivity|].
    rewrite !omap_app, skippedAt_clampWarning, skippedAt_rebuildWarning. simpl.
    split; [lia|]. intros position. rewrite Hskipped. split.
    + intros (j & t & Hj & Hnone & ->). exists (S j), t. split_and!; [done..|lia].
    + intros ([|j] & t & Hj & Hnone & ->); simplify_eq/=.
      exists j, t. split_and!; [done..|lia].
  - rewrite (normalizeTable_None _ _ _ _ _ Haccepted). cbn [fst snd].
    match goal with
    | |- context [normalizeTables _ _ _ ?ws1 ?clk1] =>
        destruct (IH (S index) ws1 clk1) as (Hnames & pushed & Hws & Hcount & Hskipped)
    end.
    split.
    { cbn [omap list_omap]. by rewrite Haccepted. }
    eexists. split; [rewrite Hws, <-!app_assoc; reflexivity|].
    rewrite omap_app.
    assert (omap skippedAt
              [if isObject table then SkippedMissingBossName (index + 1)
               else SkippedNotObject (index + 1)] = [(index + 1)%nat]) as ->.
    { by destruct (isObject table). }
    simpl. split; [lia|]. intros position. rewrite elem_of_cons, Hskipped. split.
    + intros [->|(j & t & Hj & Hnone & ->)].
      * exists 0%nat, table. split_and!; [done..|lia].
      * exists (S j), t. split_and!; [done..|lia].
    + intros ([|j] & t & Hj & Hnone & ->); simplify_eq/=.
      * left. lia.
      * right. exists j, t. split_and!; [done..|lia].
Qed.

Lemma assignId_generated Date_now table (index clk : nat) :
  lacksId table →
  assignId Date_now table index clk =
    ("imported-" +:+ pretty (Date_now clk) +:+ "-" +:+ pretty index, S clk).
Proof.
  intros Hlacks. unfold assignId.
  destruct (getField table "id") as [[| | |s| |]|] eqn:Hid; try done.
  rewrite (Hlacks s) by done. by rewrite decide_False by (simpl; lia).
Qed.

Lemma generated_id_index (now : Z) (index : nat) :
  afterLast "-" ("imported-" +:+ pretty now +:+ "-" +:+ pretty index) = pretty index.
Proof.
  change ("imported-" +:+ pretty now +:+ "-" +:+ pretty index)
    with ("imported-" +:+ pretty now +:+ String "-" (pretty index)).
  rewrite string_app_assoc. by apply (afterLast_pretty_nat "-"%char).
Qed.

(** X15. Two raw tables without a usable [id], at different positions of an
    import, get different ids, whatever the clock reads: the generated id
    ends with the position of the table. *)
Theorem generated_ids_differ Date_now table1 table2 (index1 index2 : nat)
    ws1 ws2 clk1 clk2 t1 t2 ws1' ws2' clk1' clk2' :
  lacksId table1 → lacksId table2 → index1 ≠ index2 →
  normalizeTable Date_now table1 index1 ws1 clk1 = (Some t1, ws1', clk1') →
  normalizeTable Date_now table2 index2 ws2 clk2 = (Some t2, ws2', clk2') →
  afterLast "-" (id t1) = pretty index1 ∧ afterLast "-" (id t2) = pretty index2 ∧
  id t1 ≠ id t2.
Proof.
  intros Hlacks1 Hlacks2 Hindex Hrun1 Hrun2.
  assert (∀ table (index : nat) ws clk t ws' clk',
            lacksId table →
            normalizeTable Date_now table index ws clk = (Some t, ws', clk') →
            afterLast "-" (id t) = pretty index) as Hgenerated.
  { intros table index ws clk t ws' clk' Hlacks Hrun.
    destruct (normalizeTable_Some _ _ _ _ _ _ _ _ Hrun) as (Hobject & Hname & Hblank).
    rewrite (normalizeTable_accepted Date_now table index ws clk (bossName t)) in Hrun
      by done.
    rewrite assignId_generated in Hrun by done. cbn [fst snd] in Hrun.
    injection Hrun as <- _ _. apply generated_id_index. }
  pose proof (Hgenerated _ _ _ _ _ _ _ Hlacks1 Hrun1) as Hid1.
  pose proof (Hgenerated _ _ _ _ _ _ _ Hlacks2 Hrun2) as Hid2.
  split_and!; [done..|]. intros Heq. apply Hindex.
  apply (inj pretty). congruence.
Qed.

Lemma generated_ids_differ_witness :
  ∃ t1 t2 ws1 ws2 clk1 clk2,
    normalizeTable (λ _, 1700000000000) rawThreeChannels 0 [] 0 = (Some t1, ws1, clk1) ∧
    normalizeTable (λ _, 1700000000000) rawChannel60 1 [] 0 = (Some t2, ws2, clk2) ∧
    afterLast "-" (id t1) = "0" ∧ afterLast "-" (id t2) = "1" ∧ id t1 ≠ id t2.
Proof.
  eexists _, _, _, _, _, _.
  split; [vm_compute; reflexivity|]. split; [vm_compute; reflexivity|].
  eapply (generated_ids_differ (λ _, 1700000000000) rawThreeChannels rawChannel60
            0%nat 1%nat [] [] 0%nat 0%nat).
  - intros s Hs. vm_compute in Hs. discriminate.
  - intros s Hs. vm_compute in Hs. discriminate.
  - lia.
  - vm_compute. reflexivity.
  - vm_compute. reflexivity.
Defined.

(** * Properties of the codec *)

Lemma importState_tables_normalForm rt APP_TIME_ZONE Date_now input clk r :
  importState rt APP_TIME_ZONE Date_now input clk = inr r →
  Forall normalForm (tables (payload r)).
Proof.
  unfold importState. destruct (parseEnvelope rt input) as [e|parsed]; [done|].
  unfold importParsed. destruct (negb (isObject parsed)); [done|].
  destruct (negb (strictEqNumber _ _)); [done|].
  destruct (getField parsed "tables") as [[| | | |rawTables|]|]; try done.
  pose proof (normalizeTables_normalForm Date_now rawTables 0
                (if negb (strictEqString (getField parsed "timezone") APP_TIME_ZONE)
                 then [TimezoneMismatch (getField parsed "timezone") APP_TIME_ZONE]
                 else []) clk) as Hnormal.
  destruct (normalizeTables _ _ _ _ _) as [[ts ws] clk'].
  by intros [= <-].
Qed.

(** X16. Whatever [importState] accepts, the payload it returns is well
    formed: its version is the supported one, its storage version is not
    empty, its export time is a finite number, and every table has a
    non-empty id, a boss name that is not blank, a channel count within
    [1, 50] with the channels numbered [1..channelsCount], finite or absent
    timestamps and a finite creation time. *)
Theorem importState_payload_normalForm rt APP_TIME_ZONE Date_now input clk r :
  importState rt APP_TIME_ZONE Date_now input clk = inr r →
  version (payload r) = BACKUP_VERSION ∧
  storageVersion (payload r) ≠ "" ∧
  isFiniteNumber (exportedAt (payload r)) ∧
  Forall normalForm (tables (payload r)).
Proof.
  intros Hrun. pose proof (importState_tables_normalForm _ _ _ _ _ _ Hrun) as Hnormal.
  revert Hrun.
  unfold importState. destruct (parseEnvelope rt input) as [e|parsed]; [done|].
  unfold importParsed. destruct (negb (isObject parsed)); [done|].
  destruct (negb (strictEqNumber _ _)); [done|].
  destruct (getField parsed "tables") as [[| | | |rawTables|]|]; try done.
  destruct (normalizeTables _ _ _ _ _) as [[ts ws] clk'].
  intros [= <-]. simpl. split_and!; [done| | |done].
  - destruct (getField parsed "storageVersion") as [[| | |s| |]|]; try done.
    case_decide as Hs; [|done]. intros ->. simpl in Hs. lia.
  - unfold toEpoch. by destruct (getField parsed "exportedAt") as [[| |[]|?|?|?]|].
Qed.

Lemma importState_payload_normalForm_witness :
  ∃ r,
    importState (referenceHost false [messyEnvelope]) hostZone sampleClock
      (printJson messyEnvelope) 0 = inr r ∧
    bossName <$> tables (payload r) = ["Zakum"; "Zakum"] ∧
    Forall normalForm (tables (payload r)).
Proof.
  destruct (importState (referenceHost false [messyEnvelope]) hostZone sampleClock
              (printJson messyEnvelope) 0) as [e|r] eqn:Hrun;
    [vm_compute in Hrun; discriminate|].
  exists r. split; [reflexivity|]. split.
  - vm_compute in Hrun. injection Hrun as <-. reflexivity.
  - apply (importState_payload_normalForm (referenceHost false [messyEnvelope]) hostZone
             sampleClock (printJson messyEnvelope) 0%nat r Hrun).
Defined.

Lemma trimStart_whiteSpaceOnly pad s : whiteSpaceOnly pad → trimStart (pad +:+ s) = trimStart s.
Proof.
  unfold whiteSpaceOnly. induction pad as [|a pad IH]; simpl; [done|].
  intros [Ha Hpad]%Forall_cons. rewrite Ha. by apply IH.
Qed.

Lemma trimEnd_whiteSpaceOnly pad : whiteSpaceOnly pad → trimEnd pad = "".
Proof.
  unfold whiteSpaceOnly. induction pad as [|a pad IH]; simpl; [done|].
  intros [Ha Hpad]%Forall_cons. by rewrite IH, Ha.
Qed.

Lemma trimEnd_app_whiteSpaceOnly s pad : whiteSpaceOnly pad → trimEnd (s +:+ pad) = trimEnd s.
Proof.
  intros Hpad. induction s as [|a s IH]; simpl.
  - by apply trimEnd_whiteSpaceOnly.
  - by rewrite IH.
Qed.

Lemma trim_padding before s after :
  whiteSpaceOnly before → whiteSpaceOnly after → trim (before +:+ s +:+ after) = trim s.
Proof.
  intros Hbefore Hafter. unfold trim. rewrite trimStart_whiteSpaceOnly by done.
  induction s as [|a s IH]; simpl.
  - clear Hbefore. unfold whiteSpaceOnly in Hafter.
    induction after as [|a after IH]; simpl; [done|].
    apply Forall_cons in Hafter as [Ha Hafter]. rewrite Ha. by apply IH.
  - destruct (isWhiteSpace a); [done|].
    change (String a (s +:+ after)) with (String a s +:+ after).
    by rewrite trimEnd_app_whiteSpaceOnly.
Qed.

(** X17. [importState] ignores white space around the backup string: the
    result for a string with white space before and after it is the result
    for the string itself. *)
Theorem importState_ignores_padding rt APP_TIME_ZONE Date_now before input after clk :
  whiteSpaceOnly before → whiteSpaceOnly after →
  importState rt APP_TIME_ZONE Date_now (before +:+ input +:+ after) clk =
    importState rt APP_TIME_ZONE Date_now input clk.
Proof.
  intros Hbefore Hafter. unfold importState, parseEnvelope, envelopeText.
  by rewrite trim_padding.
Qed.

Lemma importState_ignores_padding_witness :
  importState (referenceHost false [messyEnvelope]) hostZone sampleClock
    ("  " +:+ printJson messyEnvelope +:+ String "010" " ") 0 =
  importState (referenceHost false [messyEnvelope]) hostZone sampleClock
    (printJson messyEnvelope) 0.
Proof.
  apply (importState_ignores_padding (referenceHost false [messyEnvelope]) hostZone
           sampleClock "  " (printJson messyEnvelope) (String "010" " ") 0%nat).
  - apply (bool_decide_unpack _). vm_compute. exact I.
  - apply (bool_decide_unpack _). vm_compute. exact I.
Defined.

Lemma trimEnd_nonempty a s : isWhiteSpace a = false → trimEnd (String a s) ≠ "".
Proof. intros Ha. simpl. rewrite Ha. by destruct (trimEnd s). Qed.

Lemma prefixes_apart rest :
  startsWith (BACKUP_PREFIX_GZ +:+ rest) BACKUP_PREFIX = false ∧
  startsWith (BACKUP_PREFIX +:+ rest) BACKUP_PREFIX_GZ = false.
Proof. split; reflexivity. Qed.

Lemma prefixed_not_blank rest :
  trim (BACKUP_PREFIX_GZ +:+ rest) ≠ "" ∧ trim (BACKUP_PREFIX +:+ rest) ≠ "".
Proof.
  split.
  - change (trimEnd (String "B" ("OSSTIMER_V2GZ:" +:+ rest)) ≠ "").
    by apply trimEnd_nonempty.
  - change (trimEnd (String "B" ("OSSTIMER_V1:" +:+ rest)) ≠ "").
    by apply trimEnd_nonempty.
Qed.

(** X18. The string that [exportState] returns starts with exactly one of
    the two prefixes, with the prefix of the compressed format exactly when
    the host has a compression stream that returns at least one byte for the
    JSON text, and it is not blank, so that [importState] does not take it
    for an empty input or for bare JSON. *)
Theorem exportState_prefix rt APP_TIME_ZONE Date_now ts clk :
  let text := exportState rt APP_TIME_ZONE Date_now ts clk in
  let jsonText := JSON_stringify rt (valueOfPayload (exportPayload APP_TIME_ZONE Date_now ts clk)) in
  startsWith text BACKUP_PREFIX = negb (startsWith text BACKUP_PREFIX_GZ) ∧
  (startsWith text BACKUP_PREFIX_GZ = true ↔
     ∃ gzip, CompressionStream_gzip rt = Some gzip ∧ gzip jsonText ≠ []) ∧
  trim text ≠ "".
Proof.
  intros text jsonText. subst text jsonText. unfold exportState, gzipText.
  destruct (CompressionStream_gzip rt) as [gzip|]; cbn [fmap option_fmap option_map].
  - case_decide as Hlen.
    + rewrite startsWith_app, (proj1 (prefixes_apart _)).
      split_and!; [done| |apply prefixed_not_blank].
      split; [|done]. intros _. exists gzip. split; [done|].
      intros Hnil. rewrite Hnil in Hlen. simpl in Hlen. lia.
    + rewrite startsWith_app, (proj2 (prefixes_apart _)).
      split_and!; [done| |apply prefixed_not_blank].
      split; [done|]. intros (gzip' & [= <-] & Hbytes).
      destruct Hlen. destruct (gzip _); [done|simpl; lia].
  - rewrite startsWith_app, (proj2 (prefixes_apart _)).
    split_and!; [done| |apply prefixed_not_blank].
    split; [done|]. by intros (gzip' & ? & _).
Qed.

(** * Properties of the backup panel *)

Lemma importState_exportState rt APP_TIME_ZONE Date_now (ts : list BossTable) clk clk' :
  codecLaws rt → Forall normalForm ts →
  JSON_parse rt
    (JSON_stringify rt (valueOfPayload (exportPayload APP_TIME_ZONE Date_now ts clk))) =
    Some (valueOfPayload (exportPayload APP_TIME_ZONE Date_now ts clk)) →
  importState rt APP_TIME_ZONE Date_now (exportState rt APP_TIME_ZONE Date_now ts clk) clk' =
    inr {| payload := exportPayload APP_TIME_ZONE Date_now ts clk; warnings := [] |}.
Proof.
  intros laws Hnormal Hjson. unfold importState, parseEnvelope.
  rewrite envelopeText_exportState by done. rewrite Hjson.
  by apply importParsed_valueOfPayload.
Qed.

(** X19. Merging the backup that the panel has just produced from its own
    tables changes nothing: when the tables are well formed with distinct
    boss names and the host decodes what it encodes, [handleMergeImport] on
    the exported string calls [onReplaceTables] with the tables themselves
    and reports [n] tables merged with no conflicts, without an error, a
    pending preview or a draw of the id generator. *)
Theorem handleMergeImport_own_backup rt APP_TIME_ZONE Date_now generateTableId fuel
    (ts : list BossTable) st clk clk' draws :
  codecLaws rt →
  Forall normalForm ts → NoDup (bossName <$> ts) →
  JSON_parse rt
    (JSON_stringify rt (valueOfPayload (exportPayload APP_TIME_ZONE Date_now ts clk))) =
    Some (valueOfPayload (exportPayload APP_TIME_ZONE Date_now ts clk)) →
  BackupPanel.importText st = exportState rt APP_TIME_ZONE Date_now ts clk →
  BackupPanel.handleMergeImport rt APP_TIME_ZONE Date_now generateTableId fuel
      ts st clk' draws =
    Some ({| BackupPanel.importText := BackupPanel.importText st;
             BackupPanel.message := BackupPanel.MergedWithoutConflicts (length ts);
             BackupPanel.error := None;
             BackupPanel.isBusy := false;
             BackupPanel.mergePreview := None;
             BackupPanel.choices := BackupPanel.choices st |}, Some ts).
Proof.
  intros laws Hnormal Hnames Hjson Htext. unfold BackupPanel.handleMergeImport.
  rewrite Htext at 1. rewrite importState_exportState by done.
  cbn [payload tables warnings exportPayload].
  rewrite buildMergePreview_self; [done| |done].
  eapply Forall_impl; [exact Hnormal|]. by intros t (_ & _ & Hinv & _).
Qed.

Lemma handleMergeImport_own_backup_witness :
  BackupPanel.handleMergeImport (referenceHost true [twoBossesPayload]) hostZone
      sampleClock sampleIds 0 twoBosses
      (freshPanel (exportState (referenceHost true [twoBossesPayload]) hostZone
                     sampleClock twoBosses 0)) 1 0 =
    Some ({| BackupPanel.importText :=
               exportState (referenceHost true [twoBossesPayload]) hostZone
                 sampleClock twoBosses 0;
             BackupPanel.message := BackupPanel.MergedWithoutConflicts 2;
             BackupPanel.error := None;
             BackupPanel.isBusy := false;
             BackupPanel.mergePreview := None;
             BackupPanel.choices := ∅ |}, Some twoBosses).
Proof.
  apply (handleMergeImport_own_backup (referenceHost true [twoBossesPayload]) hostZone
           sampleClock sampleIds 0%nat twoBosses
           (freshPanel (exportState (referenceHost true [twoBossesPayload]) hostZone
                          sampleClock twoBosses 0)) 0%nat 1%nat 0%nat).
  - apply referenceHost_laws.
  - apply (bool_decide_unpack _). vm_compute. exact I.
  - apply (bool_decide_unpack _). vm_compute. exact I.
  - vm_compute. reflexivity.
  - reflexivity.
Defined.



(** X21. Two channels that hold a kill time only, at different times, are
    in conflict for the merge, and the panel describes both sides of the
    conflict as ['No timer']: [formatChannelTimer] looks at the two respawn
    times only, [hasTimer] at the kill time as well. *)
Theorem killedAt_conflict_shows_no_timer formatTimestampLocal
    (channelNumber stamp stamp' : Z) :
  stamp ≠ stamp' →
  inConflict (timed channelNumber stamp) (timed channelNumber stamp') = true ∧
  BackupPanel.formatChannelTimer formatTimestampLocal (timed channelNumber stamp) =
    "No timer" ∧
  BackupPanel.formatChannelTimer formatTimestampLocal (timed channelNumber stamp') =
    "No timer".
Proof.
  intros Hstamp. split; [|done].
  unfold inConflict, timed, hasTimer, timerSignature. simpl.
  apply bool_decide_eq_true. congruence.
Qed.

Lemma killedAt_conflict_shows_no_timer_witness :
  inConflict (timed 3 100) (timed 3 200) = true ∧
  BackupPanel.formatChannelTimer (λ _, "-") (timed 3 100) = "No timer" ∧
  BackupPanel.formatChannelTimer (λ _, "-") (timed 3 200) = "No timer".
Proof.
  apply (killedAt_conflict_shows_no_timer (λ _, "-") 3 100 200). lia.
Defined.

(** * Further properties of the merge engine *)

Lemma header_prefix_lookup (ts ts' : list BossTable) (i : nat) e :
  header <$> ts `prefix_of` header <$> ts' → ts !! i = Some e →
  ∃ e', ts' !! i = Some e' ∧ id e' = id e ∧ bossName e' = bossName e.
Proof.
  intros Hprefix Hi.
  assert ((header <$> ts') !! i = Some (header e)) as Hlookup.
  { eapply prefix_lookup_Some; [|done]. by rewrite list_lookup_fmap, Hi. }
  rewrite list_lookup_fmap in Hlookup.
  destruct (ts' !! i) as [e'|]; simplify_eq/=. exists e'.
  unfold header in *. split_and!; [done|congruence..].
Qed.

Lemma inConflict_true mine theirs :
  inConflict mine theirs = true ↔
  hasTimer mine = true ∧ hasTimer theirs = true ∧
  timerSignature mine ≠ timerSignature theirs.
Proof.
  unfold inConflict. rewrite !andb_true_iff, bool_decide_eq_true. tauto.
Qed.

Lemma newConflicts_at existing mb tb position ks k :
  k ∈ ks → inConflict (channelAt mb k) (channelAt tb k) = true →
  ∃ p, conflictAt existing (channelAt mb k) (channelAt tb k) k p
         ∈ newConflicts existing mb tb position ks.
Proof.
  intros Hk Hconflict.
  assert (k ∈ MergeConflict.channel <$> newConflicts existing mb tb position ks) as Hin.
  { rewrite newConflicts_channels. by apply list_elem_of_filter. }
  apply list_elem_of_fmap in Hin as (cf & Hchannel & Hcf).
  pose proof Hcf as (k' & p & _ & _ & ->)%newConflicts_elem_of.
  simpl in Hchannel. subst k'. by exists p.
Qed.

Section merge_accounts.
Variable generateTableId : nat → string.

Lemma mergeImported_conflicts_prefix fuel st t st' :
  mergeImported generateTableId fuel st t = Some st' →
  ms_conflicts st `prefix_of` ms_conflicts st'.
Proof.
  rewrite mergeImported_unfold.
  destruct (list_find _ _) as [[i e]|] eqn:Hfind.
  - intros [= <-]. simpl. rewrite channelLoop_closed. simpl. by apply prefix_app_r.
  - destruct (ensureUniqueId _ _ _ _ _) as [[[uid used] d]|]; [|done].
    by intros [= <-].
Qed.

Lemma mergeImported_genuine fuel st t st' :
  mergeImported generateTableId fuel st t = Some st' →
  Forall (genuineIn (ms_mergedTables st)) (ms_conflicts st) →
  Forall (genuineIn (ms_mergedTables st')) (ms_conflicts st').
Proof.
  intros Hrun Hst.
  destruct (mergeImported_headers _ _ _ _ _ Hrun) as [Hprefix _].
  assert (Forall (genuineIn (ms_mergedTables st')) (ms_conflicts st)) as Hold.
  { eapply Forall_impl; [done|].
    intros cf (? & ? & ? & ? & ? & i & e & Hi & Hid & Hname).
    destruct (header_prefix_lookup _ _ _ _ Hprefix Hi) as (e' & Hi' & Hid' & Hname').
    split_and!; [done..|]. exists i, e'. split_and!; [done|congruence..]. }
  rewrite mergeImported_unfold in Hrun.
  destruct (list_find _ _) as [[i e]|] eqn:Hfind.
  - injection Hrun as <-. simpl in *. rewrite channelLoop_closed in *. simpl in *.
    apply Forall_app. split; [done|].
    apply Forall_forall. intros cf (k & p & Hk & Hconflict & ->)%newConflicts_elem_of.
    apply inConflict_true in Hconflict as (Hmine & Htheirs & Hsignature).
    apply list_find_Some in Hfind as (Hi & _ & _).
    split_and!; simpl; [done..|apply channelAt_channel|apply channelAt_channel|].
    eexists i, _. split; [apply list_lookup_insert_eq; by eapply lookup_lt_Some|].
    done.
  - destruct (ensureUniqueId _ _ _ _ _) as [[[uid used] d]|]; [|done].
    by injection Hrun as <-.
Qed.

Lemma mergeAll_genuine fuel st ts st' :
  mergeAll generateTableId fuel st ts = Some st' →
  Forall (genuineIn (ms_mergedTables st)) (ms_conflicts st) →
  Forall (genuineIn (ms_mergedTables st')) (ms_conflicts st').
Proof.
  revert st. induction ts as [|t ts IH]; intros st Hrun Hst; simplify_eq/=; [done|].
  destruct (mergeImported _ _ _ _) as [st1|] eqn:Hstep; simplify_eq/=.
  eapply IH; [done|]. by eapply mergeImported_genuine.
Qed.

(** One turn accounts for the timers of the table it merges. *)
Lemma mergeImported_accounts fuel st t st' (k : nat) c :
  mergeImported generateTableId fuel st t = Some st' →
  tableInvariant t → channels t !! k = Some c → hasTimer c = true →
  accounted (ms_mergedTables st') (ms_conflicts st') (bossName t) k c.
Proof.
  rewrite mergeImported_unfold. intros Hrun (Hlen & Hlab & Hrange) Hk Htimer.
  destruct (list_find _ _) as [[i e]|] eqn:Hfind.
  - injection Hrun as <-. simpl. rewrite channelLoop_closed. simpl.
    apply list_find_Some in Hfind as (Hi & Hname & _).
    destruct (labelled_lookup _ _ _ _ Hlab Hk) as [Hnum Hlt].
    assert (channelsCount t ≤ mergedCountOf e t) as Hge.
    { unfold mergedCountOf, clampChannelsCount, MIN_CHANNELS, MAX_CHANNELS. simpl. lia. }
    assert (channelAt (channelIndex (channels t)) (1 + Z.of_nat k) = c) as Htheirs.
    { rewrite (channelAt_labelled (channels t) (channelsCount t)) by done.
      rewrite decide_True by lia.
      replace (Z.to_nat (1 + Z.of_nat k - 1)) with k by lia. by rewrite Hk. }
    eexists i, _. split; [apply list_lookup_insert_eq; by eapply lookup_lt_Some|].
    split; [done|]. simpl.
    rewrite list_lookup_fmap, lookup_seqZ_lt by lia. simpl. rewrite Htheirs.
    set (mine := channelAt (channelIndex (channels e)) (1 + Z.of_nat k)).
    destruct (inConflict mine c) eqn:Hconflict.
    + right.
      destruct (newConflicts_at e (channelIndex (channels e)) (channelIndex (channels t))
                  (length (ms_conflicts st)) (seqZ 1 (mergedCountOf e t))
                  (1 + Z.of_nat k)) as [p Hin].
      { apply elem_of_seqZ. lia. }
      { by rewrite Htheirs. }
      rewrite Htheirs in Hin. eexists. split; [apply elem_of_app; right; exact Hin|].
      simpl. by rewrite Hnum.
    + left. f_equal. unfold mergedChannel. rewrite Htimer.
      destruct (hasTimer mine) eqn:Hmine; [|done].
      unfold inConflict in Hconflict. rewrite Hmine, Htimer in Hconflict.
      simpl in Hconflict. apply bool_decide_eq_false in Hconflict.
      apply dec_stable in Hconflict.
      assert (channel mine = channel c) as Hchannel.
      { unfold mine. by rewrite channelAt_channel, Hnum. }
      unfold timerSignature in Hconflict. destruct mine, c. simpl in *. congruence.
  - destruct (ensureUniqueId _ _ _ _ _) as [[[uid used] d]|]; [|done].
    injection Hrun as <-. simpl.
    exists (length (ms_mergedTables st)), (withId t uid).
    split; [by rewrite lookup_app_r, Nat.sub_diag by lia|].
    split; [done|]. by left.
Qed.

(** What is accounted for stays so. *)
Lemma mergeImported_accounted fuel st t st' name (k : nat) c :
  mergeImported generateTableId fuel st t = Some st' →
  Forall tableInvariant (ms_mergedTables st) → hasTimer c = true →
  accounted (ms_mergedTables st) (ms_conflicts st) name k c →
  accounted (ms_mergedTables st') (ms_conflicts st') name k c.
Proof.
  intros Hrun Hinv Htimer (i & e & Hi & Hname & Hheld).
  destruct (mergeImported_headers _ _ _ _ _ Hrun) as [Hprefix _].
  destruct (header_prefix_lookup _ _ _ _ Hprefix Hi) as (e' & Hi' & Hid' & Hname').
  destruct (mergeImported_keepsTimers _ _ _ _ _ _ _ Hrun Hinv Hi)
    as (e'' & Hi'' & _ & Hkeeps).
  assert (e'' = e') as -> by congruence.
  exists i, e'. split_and!; [done|congruence|].
  destruct Hheld as [Hheld|(cf & Hcf & Htable & Hchannel & Hside)].
  - left. by apply Hkeeps.
  - right. exists cf. split_and!; [|congruence|done..].
    eapply elem_of_prefix; [done|]. by eapply mergeImported_conflicts_prefix.
Qed.

Lemma mergeAll_accounted fuel st ts st' name (k : nat) c :
  mergeAll generateTableId fuel st ts = Some st' →
  Forall tableInvariant (ms_mergedTables st) → Forall tableInvariant ts →
  hasTimer c = true →
  accounted (ms_mergedTables st) (ms_conflicts st) name k c →
  accounted (ms_mergedTables st') (ms_conflicts st') name k c.
Proof.
  intros Hrun Hst Hts Htimer. revert st Hrun Hst.
  induction Hts as [|t ts Ht Hts IH]; intros st Hrun Hst Hacc; simplify_eq/=; [done|].
  destruct (mergeImported _ _ _ _) as [st1|] eqn:Hstep; simplify_eq/=.
  eapply IH; [done|by eapply mergeImported_invariant|].
  by eapply mergeImported_accounted.
Qed.

Lemma mergeAll_accounts fuel st ts st' (j : nat) t (k : nat) c :
  mergeAll generateTableId fuel st ts = Some st' →
  Forall tableInvariant (ms_mergedTables st) → Forall tableInvariant ts →
  ts !! j = Some t → channels t !! k = Some c → hasTimer c = true →
  accounted (ms_mergedTables st') (ms_conflicts st') (bossName t) k c.
Proof.
  intros Hrun Hst Hts. revert st j Hrun Hst.
  induction Hts as [|t0 ts Ht0 Hts IH]; intros st j Hrun Hst Hj Hk Htimer; [done|].
  simpl in Hrun.
  destruct (mergeImported _ _ _ _) as [st1|] eqn:Hstep; simplify_eq/=.
  assert (Forall tableInvariant (ms_mergedTables st1)) as Hst1.
  { by eapply mergeImported_invariant. }
  destruct j as [|j]; simplify_eq/=.
  - eapply mergeAll_accounted; [done..|]. by eapply mergeImported_accounts.
  - by eapply IH.
Qed.
End merge_accounts.

(** X22. A merge drops no imported timer silently: when the existing and
    the imported tables satisfy the invariant of the data model, a channel
    of an imported table that holds timer data is, after the merge, either
    on the same channel of a merged table of the same boss, or the
    imported side of a conflict on this channel of such a table. *)
Theorem merge_accounts_for_imported_timers generateTableId fuel draws existing imported
    preview (j : nat) t (k : nat) c :
  Forall tableInvariant existing → Forall tableInvariant imported →
  buildMergePreview generateTableId fuel draws existing imported = Some preview →
  imported !! j = Some t → channels t !! k = Some c → hasTimer c = true →
  ∃ (i : nat) e,
    mergedTables preview !! i = Some e ∧ bossName e = bossName t ∧
    (channels e !! k = Some c ∨
     ∃ cf, cf ∈ conflicts preview ∧ MergeConflict.tableId cf = id e ∧
           MergeConflict.channel cf = channel c ∧ MergeConflict.theirs cf = c).
Proof.
  intros Hexisting Himported. rewrite buildMergePreview_unfold. intros Hrun Hj Hk Htimer.
  destruct (mergeAll _ _ _ _) as [st|] eqn:Hall; simplify_eq/=.
  by eapply (mergeAll_accounts _ _ _ _ _ j t k c Hall).
Qed.

Lemma merge_accounts_for_imported_timers_witness :
  ∃ preview (i : nat) e,
    buildMergePreview sampleIds 0 0 twoBosses otherDevice = Some preview ∧
    mergedTables preview !! i = Some e ∧ bossName e = "Zakum" ∧
    (channels e !! 0%nat = Some (timed 1 200) ∨
     ∃ cf, cf ∈ conflicts preview ∧ MergeConflict.tableId cf = id e ∧
           MergeConflict.channel cf = 1 ∧ MergeConflict.theirs cf = timed 1 200).
Proof.
  destruct (buildMergePreview sampleIds 0 0 twoBosses otherDevice) as [preview|] eqn:Hrun;
    [|vm_compute in Hrun; discriminate].
  exists preview.
  destruct (merge_accounts_for_imported_timers sampleIds 0%nat 0%nat twoBosses otherDevice
              preview 0%nat (sampleTable "z" "Zakum" [timed 1 200; timed 2 300])
              0%nat (timed 1 200)) as (i & e & Hi & Hname & Hheld).
  - apply (bool_decide_unpack _). vm_compute. exact I.
  - apply (bool_decide_unpack _). vm_compute. exact I.
  - exact Hrun.
  - reflexivity.
  - reflexivity.
  - reflexivity.
  - exists i, e. split_and!; [reflexivity|exact Hi|exact Hname|exact Hheld].
Defined.

(** X23. Every conflict of a preview is a genuine one: its two sides hold
    timer data with different signatures and carry the channel number of
    the conflict, and the conflict names, by id and by boss name, a table
    of the merged tables. *)
Theorem conflicts_are_genuine generateTableId fuel draws existing imported preview :
  buildMergePreview generateTableId fuel draws existing imported = Some preview →
  Forall (λ cf,
            hasTimer (MergeConflict.mine cf) = true ∧
            hasTimer (MergeConflict.theirs cf) = true ∧
            timerSignature (MergeConflict.mine cf) ≠
              timerSignature (MergeConflict.theirs cf) ∧
            channel (MergeConflict.mine cf) = MergeConflict.channel cf ∧
            channel (MergeConflict.theirs cf) = MergeConflict.channel cf ∧
            ∃ (i : nat) e, mergedTables preview !! i = Some e ∧
                           id e = MergeConflict.tableId cf ∧
                           bossName e = MergeConflict.bossName cf)
         (conflicts preview).
Proof.
  rewrite buildMergePreview_unfold. intros Hrun.
  destruct (mergeAll _ _ _ _) as [st|] eqn:Hall; simplify_eq/=.
  apply (mergeAll_genuine _ _ _ _ _ Hall). constructor.
Qed.

Lemma conflicts_are_genuine_witness :
  ∃ preview,
    buildMergePreview sampleIds 0 0 twoBosses otherDevice = Some preview ∧
    length (conflicts preview) = 1%nat ∧
    Forall (genuineIn (mergedTables preview)) (conflicts preview).
Proof.
  destruct (buildMergePreview sampleIds 0 0 twoBosses otherDevice) as [preview|] eqn:Hrun;
    [|vm_compute in Hrun; discriminate].
  exists preview. split; [reflexivity|]. split.
  - vm_compute in Hrun. injection Hrun as <-. reflexivity.
  - apply (conflicts_are_genuine sampleIds 0%nat 0%nat twoBosses otherDevice preview Hrun).
Defined.
